(** * The uTP <-> bufferevent bridge of [utp_bufferevent.c]

    A shallow embedding of the bridge between a uTP socket ("Transport A")
    and a libevent bufferevent ("Transport B"), and the properties of its
    flow engine and its shutdown state machine.

    The bridge object, the two buffers of the bufferevent and its
    enabled-events mask are explicit state.  Every call that leaves the file
    (libutp, [bufferevent_free], [free], [shutdown], [close]) is recorded in
    a log.  A failed [assert], the use of a NULL handle and the use of the
    freed bridge are faults that stop the run. *)

From Stdlib Require Import ZArith List Bool Lia.
From Stdlib Require Import Strings.Byte.
Import ListNotations.
Local Open Scope Z_scope.

(** ** Constants of the two libraries *)

(** Modelled from the spec: the "read and write interest" of the stream
    endpoint and the "directional flags" of its error/EOF event are bit
    masks; the header that gives them their values is not part of the
    sources, the values below are those of libevent 2. *)
Definition EV_READ : Z := 2.
Definition EV_WRITE : Z := 4.
Definition BEV_EVENT_READING : Z := 1.
Definition BEV_EVENT_WRITING : Z := 2.
Definition BEV_EVENT_EOF : Z := 16.
Definition BEV_EVENT_ERROR : Z := 32.

Inductive how := SHUT_RD | SHUT_WR.

Inductive utp_state :=
| UTP_STATE_CONNECT
| UTP_STATE_WRITABLE
| UTP_STATE_EOF
| UTP_STATE_DESTROYING.

(** ** Data *)

Definition utp_socket := nat.

(** A bufferevent: the mask of enabled events and the two evbuffers. *)
Record bufferevent := mk_bev {
  enabled : Z;
  input : list byte;
  output : list byte
}.

(** The far end of the socket pair, as far as the bridge looks at it:
    whether its owner has installed an event callback. *)
Record other_end := mk_other { has_event_cb : bool }.

Record utp_bufferevent := mk_ubev {
  utp : option utp_socket;
  utp_read_shutdown : bool;
  bev : option bufferevent;
  other_bev : option other_end
}.

(** Calls that leave the file. [utp_write] carries the chunk it was given
    and the result it returned. *)
Inductive call :=
| utp_set_userdata (s : utp_socket) (bridge : bool)
| utp_write (s : utp_socket) (buf : list byte) (r : Z)
| utp_close (s : utp_socket)
| utp_shutdown (s : utp_socket) (h : how)
| utp_read_drained (s : utp_socket)
| bufferevent_free
| bufferevent_incref
| bufferevent_decref
| event_cb_connected
| shutdown_fd (h : how)
| close_fd (fd : Z)
| free_bridge.

Inductive fault :=
| assert_failed (line : nat)
| null_utp
| null_bev
| null_bridge
| use_after_free
| out_of_fuel.

(** [heap] is the bridge while it is allocated; [userdata] tells whether the
    user-data slot of the uTP socket points to the bridge; [calls] is the log,
    most recent call first; [writes] counts the calls of [utp_write]. *)
Record world := mk_world {
  heap : option utp_bufferevent;
  userdata : bool;
  calls : list call;
  writes : nat
}.

Definition set_utp (o : option utp_socket) (u : utp_bufferevent) :=
  mk_ubev o (utp_read_shutdown u) (bev u) (other_bev u).
Definition set_utp_read_shutdown (f : bool) (u : utp_bufferevent) :=
  mk_ubev (utp u) f (bev u) (other_bev u).
Definition set_bev (o : option bufferevent) (u : utp_bufferevent) :=
  mk_ubev (utp u) (utp_read_shutdown u) o (other_bev u).
Definition set_other_bev (o : option other_end) (u : utp_bufferevent) :=
  mk_ubev (utp u) (utp_read_shutdown u) (bev u) o.

Definition set_enabled (e : Z) (b : bufferevent) := mk_bev e (input b) (output b).
Definition set_input (l : list byte) (b : bufferevent) := mk_bev (enabled b) l (output b).
Definition set_output (l : list byte) (b : bufferevent) := mk_bev (enabled b) (input b) l.

Definition set_heap (h : option utp_bufferevent) (w : world) :=
  mk_world h (userdata w) (calls w) (writes w).
Definition set_userdata (d : bool) (w : world) :=
  mk_world (heap w) d (calls w) (writes w).
Definition log (c : call) (w : world) :=
  mk_world (heap w) (userdata w) (c :: calls w) (writes w).

(** ** The monad: state, log and faults *)

Inductive outcome (A : Type) :=
| Done (a : A) (w : world)
| Crash (f : fault) (w : world).
Arguments Done {A} a w.
Arguments Crash {A} f w.

Definition M (A : Type) := world -> outcome A.

Definition ret {A} (a : A) : M A := fun w => Done a w.
Definition crash {A} (f : fault) : M A := fun w => Crash f w.
Definition bind {A B} (m : M A) (k : A -> M B) : M B :=
  fun w => match m w with
           | Done a w' => k a w'
           | Crash f w' => Crash f w'
           end.

Notation "x <- m ;; k" := (bind m (fun x => k))
  (at level 61, m at next level, right associativity).
Notation "m ;; k" := (bind m (fun _ => k))
  (at level 61, right associativity).

(** The world a run ends in, and the fault it ended with. *)
Definition final {A} (o : outcome A) : world :=
  match o with Done _ w => w | Crash _ w => w end.
Definition fault_of {A} (o : outcome A) : option fault :=
  match o with Done _ _ => None | Crash f _ => Some f end.

Definition c_assert (line : nat) (b : bool) : M unit :=
  if b then ret tt else crash (assert_failed line).

(** [u->...]: the bridge has to be allocated. *)
Definition get_u : M utp_bufferevent :=
  fun w => match heap w with
           | Some u => Done u w
           | None => Crash use_after_free w
           end.
Definition modify_u (f : utp_bufferevent -> utp_bufferevent) : M unit :=
  fun w => match heap w with
           | Some u => Done tt (set_heap (Some (f u)) w)
           | None => Crash use_after_free w
           end.

(** A libevent call on [u->bev]: the handle has to be there. *)
Definition the_bev : M bufferevent :=
  u <- get_u ;;
  match bev u with
  | Some b => ret b
  | None => crash null_bev
  end.
Definition modify_bev (f : bufferevent -> bufferevent) : M unit :=
  b <- the_bev ;; modify_u (set_bev (Some (f b))).

Definition do_call (c : call) : M unit := fun w => Done tt (log c w).

(** A libutp call on [u->utp]: the handle has to be there. *)
Definition on_utp (s : option utp_socket) (c : utp_socket -> call) : M unit :=
  match s with
  | Some h => do_call (c h)
  | None => crash null_utp
  end.

Definition bufferevent_disable (ev : Z) : M unit :=
  modify_bev (fun b => set_enabled (Z.land (enabled b) (Z.lnot ev)) b).
Definition bufferevent_enable (ev : Z) : M unit :=
  modify_bev (fun b => set_enabled (Z.lor (enabled b) ev) b).
Definition is_enabled (ev : Z) (b : bufferevent) : bool :=
  negb (Z.land (enabled b) ev =? 0).
Definition evbuffer_get_length (l : list byte) : Z := Z.of_nat (length l).
Definition is_empty (l : list byte) : bool := evbuffer_get_length l =? 0.
(** [evbuffer_drain(in, r)] removes the first [r] bytes, all of them when
    there are fewer. *)
Definition evbuffer_drain (r : Z) (l : list byte) : list byte :=
  skipn (Z.to_nat r) l.

(** [evbuffer_pullup(in, len)]: the first [len] bytes, with [len] at most the
    length of the buffer. *)
Definition evbuffer_pullup (len : Z) (l : list byte) : list byte :=
  firstn (Z.to_nat len) l.

Definition present {A} (o : option A) : bool :=
  match o with Some _ => true | None => false end.

(** ** The code *)

Section Bridge.

(** What the [n]-th call of [utp_write] answers when it is given [buf]. *)
Variable utp_write_result : nat -> list byte -> Z.

Definition do_utp_write (s : option utp_socket) (buf : list byte) : M Z :=
  match s with
  | Some h =>
      fun w =>
        let r := utp_write_result (writes w) buf in
        Done r (mk_world (heap w) (userdata w) (utp_write h buf r :: calls w)
                         (S (writes w)))
  | None => crash null_utp
  end.

Definition ubev_cleanup : M unit :=
  u <- get_u ;;
  if present (utp u) || present (bev u) then ret tt
  else
    fun w => Done tt (log free_bridge (set_heap None w)).

Definition ubev_utp_close : M unit :=
  u <- get_u ;;
  match utp u with
  | None => crash null_utp
  | Some s =>
      (fun w => Done tt (log (utp_set_userdata s false) (set_userdata false w))) ;;
      do_call (utp_close s) ;;
      modify_u (set_utp None) ;;
      u <- get_u ;;
      if present (other_bev u) then
        do_call bufferevent_decref ;;
        modify_u (set_other_bev None)
      else ret tt
  end.

Definition ubev_bev_close : M unit :=
  b <- the_bev ;;
  c_assert 51 (enabled b =? 0) ;;
  c_assert 52 (is_empty (input b)) ;;
  c_assert 53 (is_empty (output b)) ;;
  do_call bufferevent_free ;;
  modify_u (set_bev None).

Definition ubev_bev_graceful_close : M unit :=
  u <- get_u ;;
  (if present (bev u) then
     modify_bev (set_input []) ;;
     bufferevent_disable EV_READ ;;
     b <- the_bev ;;
     if is_empty (output b) then
       bufferevent_disable EV_WRITE ;;
       ubev_bev_close
     else ret tt
   else ret tt) ;;
  ubev_cleanup.

(** Lines 90-99: what [utp_bufferevent_flush] does once its loop is left. *)
Definition flush_tail : M unit :=
  b <- the_bev ;;
  if negb (is_enabled EV_READ b) && is_empty (input b) then
    if negb (is_enabled EV_WRITE b) then
      ubev_utp_close ;;
      ubev_bev_close ;;
      ubev_cleanup
    else
      u <- get_u ;;
      on_utp (utp u) (fun s => utp_shutdown s SHUT_WR)
  else ret tt.

(** Lines 74-89 followed by the tail.  Every turn of the loop that goes on
    drains at least one byte, so the length of the input buffer bounds the
    number of turns; [fuel] is that bound, and [flush_enough_fuel] below
    shows that it never runs out. *)
Fixpoint flush_loop (fuel : nat) : M unit :=
  b <- the_bev ;;
  if is_empty (input b) then flush_tail
  else
    match fuel with
    | O => crash out_of_fuel
    | S fuel' =>
        let len := Z.min 1500 (evbuffer_get_length (input b)) in
        let buf := evbuffer_pullup len (input b) in
        u <- get_u ;;
        r <- do_utp_write (utp u) buf ;;
        if r <? 0 then
          ubev_utp_close ;;
          ubev_bev_graceful_close
        else if r =? 0 then flush_tail
        else
          modify_bev (fun b => set_input (evbuffer_drain r (input b)) b) ;;
          flush_loop fuel'
    end.

Definition utp_bufferevent_flush : M unit :=
  b <- the_bev ;;
  flush_loop (length (input b)).

(** [utp_get_userdata(a->socket)]: the bridge or NULL, and [u->...] through
    the pointer it returned. *)
Definition utp_get_userdata : M bool := fun w => Done (userdata w) w.
Definition deref (p : bool) : M utp_bufferevent :=
  if p then get_u else crash null_bridge.

Definition utp_on_error : M Z :=
  p <- utp_get_userdata ;;
  (if p then
     ubev_utp_close ;;
     ubev_bev_graceful_close
   else ret tt) ;;
  ret 0.

Definition bufferevent_write (buf : list byte) : M unit :=
  modify_bev (fun b => set_output (output b ++ buf) b).

Definition utp_on_read (buf : list byte) : M Z :=
  p <- utp_get_userdata ;;
  u <- deref p ;;
  (match bev u with
   | Some b => if is_enabled EV_WRITE b then bufferevent_write buf else ret tt
   | None => ret tt
   end) ;;
  ret 0.

Definition ubev_bev_stop_writing : M unit :=
  b <- the_bev ;;
  if is_enabled EV_READ b then
    bufferevent_disable EV_WRITE ;;
    do_call (shutdown_fd SHUT_WR)
  else
    c_assert 130 (is_empty (input b)) ;;
    utp_bufferevent_flush.

(** [case UTP_STATE_WRITABLE], which [case UTP_STATE_CONNECT] falls into. *)
Definition state_writable (p : bool) : M unit :=
  u <- deref p ;;
  if present (bev u) then utp_bufferevent_flush else ret tt.

Definition utp_on_state_change (st : utp_state) : M Z :=
  p <- utp_get_userdata ;;
  (match st with
   | UTP_STATE_CONNECT =>
       u <- deref p ;;
       (match other_bev u with
        | Some o =>
            (if has_event_cb o then do_call event_cb_connected else ret tt) ;;
            do_call bufferevent_decref ;;
            modify_u (set_other_bev None)
        | None => ret tt
        end) ;;
       state_writable p
   | UTP_STATE_WRITABLE => state_writable p
   | UTP_STATE_EOF =>
       deref p ;;
       modify_u (set_utp_read_shutdown true) ;;
       b <- the_bev ;;
       if is_empty (output b) then ubev_bev_stop_writing else ret tt
   | UTP_STATE_DESTROYING => ret tt
   end) ;;
  ret 0.

Definition ubev_read_cb : M unit :=
  u <- get_u ;;
  c_assert 188 (present (utp u)) ;;
  utp_bufferevent_flush.

Definition ubev_write_cb : M unit :=
  b <- the_bev ;;
  c_assert 197 (is_empty (output b)) ;;
  u <- get_u ;;
  if negb (present (utp u)) then
    ubev_bev_close ;;
    ubev_cleanup
  else on_utp (utp u) utp_read_drained.

Definition has_flag (events flag : Z) : bool := negb (Z.land events flag =? 0).

(** Lines 238-249: [if (events & BEV_EVENT_READING)] of the EOF branch. *)
Definition event_eof_reading (events : Z) : M unit :=
  if has_flag events BEV_EVENT_READING then
    u <- get_u ;;
    if negb (utp_read_shutdown u) then
      on_utp (utp u) (fun s => utp_shutdown s SHUT_WR)
    else
      ubev_utp_close ;;
      b <- the_bev ;;
      if is_empty (output b) then
        ubev_bev_close ;;
        ubev_cleanup
      else ret tt
  else ret tt.

(** [bev], the argument of the callback, is the bufferevent that raised the
    event: [u->bev == bev] holds when [u->bev] is still there. *)
Definition ubev_event_cb (events : Z) : M unit :=
  u <- get_u ;;
  c_assert 210 (present (bev u)) ;;
  if has_flag events BEV_EVENT_ERROR then
    (if present (utp u) then
       b <- the_bev ;;
       if is_empty (input b) then
         modify_u (set_utp_read_shutdown true) ;;
         on_utp (utp u) (fun s => utp_shutdown s SHUT_RD)
       else
         ubev_utp_close ;;
         ubev_bev_close ;;
         ubev_cleanup
     else
       ubev_bev_close ;;
       ubev_cleanup)
  else if has_flag events BEV_EVENT_EOF then
    if has_flag events BEV_EVENT_WRITING then
      b <- the_bev ;;
      if negb (is_enabled EV_READ b) then
        (if present (utp u) then ubev_utp_close else ret tt) ;;
        ubev_bev_close ;;
        ubev_cleanup
      else
        (if present (utp u) then
           modify_u (set_utp_read_shutdown true) ;;
           on_utp (utp u) (fun s => utp_shutdown s SHUT_RD)
         else ret tt) ;;
        modify_bev (set_output []) ;;
        event_eof_reading events
    else event_eof_reading events
  else ret tt.

(** Modelled from the spec: [alloc] is a macro defined outside the sources;
    a new Bridge has no handle, no peer endpoint and [readSuspended] false. *)
Definition alloc : M unit :=
  fun w => Done tt (set_heap (Some (mk_ubev None false None None)) w).

(** [new_bev] is what [bufferevent_socket_new] returns, [None] for NULL.
    The result is [true] for the bridge and [false] for NULL. *)
Definition utp_bufferevent_new (s : utp_socket) (new_bev : option bufferevent)
  : M bool :=
  alloc ;;
  modify_u (set_utp (Some s)) ;;
  (fun w => Done tt (log (utp_set_userdata s true) (set_userdata true w))) ;;
  modify_u (set_bev new_bev) ;;
  u <- get_u ;;
  if negb (present (bev u)) then
    ubev_utp_close ;;
    ubev_cleanup ;;
    ret false
  else
    bufferevent_enable EV_READ ;;
    ret true.

(** [fds0] and [fds1] are the two descriptors [socketpair] has made. *)
Definition utp_socket_create_fd (s : utp_socket) (fds0 fds1 : Z)
    (new_bev : option bufferevent) : M Z :=
  u <- utp_bufferevent_new s new_bev ;;
  if negb u then
    do_call (close_fd fds0) ;;
    do_call (close_fd fds1) ;;
    ret (-1)
  else ret fds1.

(** [new_other] is what the second [bufferevent_socket_new] returns. *)
Definition utp_socket_create_bev (s : utp_socket) (fds0 fds1 : Z)
    (new_bev : option bufferevent) (new_other : option other_end)
  : M (option other_end) :=
  u <- utp_bufferevent_new s new_bev ;;
  if negb u then
    do_call (close_fd fds0) ;;
    do_call (close_fd fds1) ;;
    ret None
  else
    modify_u (set_other_bev new_other) ;;
    match new_other with
    | Some o => do_call bufferevent_incref ;; ret (Some o)
    | None => crash null_bev
    end.

(** [connected] is the result of [bufferevent_socket_connect]. *)
Definition utp_connect_tcp (s : utp_socket) (new_bev : option bufferevent)
    (connected : Z) : M unit :=
  p <- utp_bufferevent_new s new_bev ;;
  deref p ;;
  the_bev ;;
  if connected <? 0 then
    do_call bufferevent_free ;;
    modify_u (set_bev None) ;;
    ubev_utp_close ;;
    ubev_cleanup
  else ret tt.

(** ** The event loop

    What the two libraries do to the bridge: the callbacks of the file, and
    what libevent does to the bufferevent on its own.  It reads the
    descriptor into the input buffer and writes the output buffer out; when
    reading (or writing) meets an error or the end of the stream it disables
    that direction and then calls the event callback with
    [BEV_EVENT_READING] (or [BEV_EVENT_WRITING]) set, which it can only do
    while the direction is enabled: [read_failed] and [write_failed].
    [event_cb] and [libevent_disable] are the same two steps taken apart,
    with any flags and in any state.  The callbacks of the bufferevent and
    libevent's own steps exist only as long as the bufferevent does. *)
Inductive io_failure := io_eof | io_error.

Definition failure_flag (what : io_failure) : Z :=
  match what with
  | io_eof => BEV_EVENT_EOF
  | io_error => BEV_EVENT_ERROR
  end.

Inductive event :=
| on_error
| on_read (buf : list byte)
| on_state_change (st : utp_state)
| read_cb
| write_cb
| event_cb (events : Z)
| fd_read (data : list byte)
| fd_written
| libevent_disable (ev : Z)
| read_failed (what : io_failure)
| write_failed (what : io_failure).

Definition bev_alive (w : world) : bool :=
  match heap w with
  | Some u => present (bev u)
  | None => false
  end.

Definition deliverable (e : event) (w : world) : bool :=
  match e with
  | on_error | on_read _ | on_state_change _ => true
  | _ => bev_alive w
  end.

Definition handler (e : event) : M unit :=
  match e with
  | on_error => utp_on_error ;; ret tt
  | on_read buf => utp_on_read buf ;; ret tt
  | on_state_change st => utp_on_state_change st ;; ret tt
  | read_cb => ubev_read_cb
  | write_cb => ubev_write_cb
  | event_cb events => ubev_event_cb events
  | fd_read data =>
      b <- the_bev ;;
      if is_enabled EV_READ b then
        modify_bev (fun b => set_input (input b ++ data) b)
      else ret tt
  | fd_written => modify_bev (set_output [])
  | libevent_disable ev => bufferevent_disable ev
  | read_failed what =>
      b <- the_bev ;;
      if is_enabled EV_READ b then
        bufferevent_disable EV_READ ;;
        ubev_event_cb (Z.lor BEV_EVENT_READING (failure_flag what))
      else ret tt
  | write_failed what =>
      b <- the_bev ;;
      if is_enabled EV_WRITE b then
        bufferevent_disable EV_WRITE ;;
        ubev_event_cb (Z.lor BEV_EVENT_WRITING (failure_flag what))
      else ret tt
  end.

Definition step (e : event) : M unit :=
  fun w => if deliverable e w then handler e w else Done tt w.

Fixpoint run (es : list event) : M unit :=
  match es with
  | [] => ret tt
  | e :: es' => step e ;; run es'
  end.

End Bridge.

(** * The vocabulary of the properties *)

(** ** Worlds and answers of [utp_write] used as examples *)

Definition rd_wr : Z := Z.lor EV_READ EV_WRITE.

(** A bridge as [utp_bufferevent_new] leaves it, with the given buffers. *)
Definition open_bridge (i o : list byte) : world :=
  mk_world (Some (mk_ubev (Some 7%nat) false (Some (mk_bev rd_wr i o)) None))
           true [] 0.

(** The same bridge after the uTP socket has reported its end of stream. *)
Definition suspended_bridge : world :=
  mk_world (Some (mk_ubev (Some 7%nat) true (Some (mk_bev rd_wr [] [x01])) None))
           true [] 0.

(** The bridge after an error of the uTP socket that found a byte in the
    output buffer: Transport A is closed, the bufferevent stays, with
    reading disabled, until the byte is written. *)
Definition closed_with_pending_output : world :=
  mk_world (Some (mk_ubev None false (Some (mk_bev EV_WRITE [] [x01])) None))
           false [utp_close 7%nat; utp_set_userdata 7%nat false] 0.

(** A world in which the bridge holds the socket [s] and the bufferevent
    [b]. *)
Definition both_open (s : utp_socket) (rs : bool) (b : bufferevent)
    (pe : option other_end) (d : bool) (cs : list call) (n : nat) : world :=
  mk_world (Some (mk_ubev (Some s) rs (Some b) pe)) d cs n.

(** [utp_write] takes all it is given; at most two bytes of it; nothing
    (backpressure); or fails. *)
Definition accept_all : nat -> list byte -> Z :=
  fun _ buf => Z.of_nat (length buf).
Definition accept_two : nat -> list byte -> Z :=
  fun _ buf => Z.min 2 (Z.of_nat (length buf)).
Definition backpressure : nat -> list byte -> Z := fun _ _ => 0.
Definition always_fails : nat -> list byte -> Z := fun _ _ => -1.

(** ** Invariants *)

(** [I] holds in the world [m] ends in, with or without a fault, when it
    holds in the world [m] starts in. *)
Definition preserves {A} (I : world -> Prop) (m : M A) : Prop :=
  forall w, I w -> I (final (m w)).

Definition writes_is (n : nat) (w : world) : Prop := writes w = n.

Definition is_utp_write (c : call) : bool :=
  match c with utp_write _ _ _ => true | _ => false end.

Definition is_free (c : call) : bool :=
  match c with free_bridge => true | _ => false end.

(** The calls made since the log was [base] all satisfy [P]. *)
Definition added (P : call -> Prop) (base : list call) (w : world) : Prop :=
  exists new, calls w = new ++ base /\ Forall P new.

(** ** The flow engine *)

Definition input_len (w : world) : nat :=
  match heap w with
  | Some u => match bev u with Some b => length (input b) | None => O end
  | None => O
  end.

Definition input_drained (w : world) : Prop := input_len w = O.

Definition remaining_input (w : world) : list byte :=
  match heap w with
  | Some u => match bev u with Some b => input b | None => [] end
  | None => []
  end.

(** The chunk the loop takes from a non-empty input buffer. *)
Definition chunk (l : list byte) : list byte :=
  evbuffer_pullup (Z.min 1500 (evbuffer_get_length l)) l.

(** The world after [utp_write] has been given [buf] and has answered [r]. *)
Definition wrote (s : utp_socket) (buf : list byte) (r : Z) (w : world) : world :=
  mk_world (heap w) (userdata w) (utp_write s buf r :: calls w) (S (writes w)).

Definition chunk_ok (c : call) : Prop :=
  match c with
  | utp_write _ buf _ => (length buf <= 1500)%nat
  | _ => True
  end.

(** The chunks given to [utp_write] and its answers, oldest first. *)
Fixpoint submits (cs : list call) : list (list byte * Z) :=
  match cs with
  | [] => []
  | utp_write _ buf r :: cs' => submits cs' ++ [(buf, r)]
  | _ :: cs' => submits cs'
  end.

Definition submits_are (L : list (list byte * Z)) (w : world) : Prop :=
  submits (calls w) = L.

(** The bytes [utp_write] has taken, oldest first: of each chunk, as many
    bytes as the call answered. *)
Fixpoint accepted (cs : list call) : list byte :=
  match cs with
  | [] => []
  | utp_write _ buf r :: cs' => accepted cs' ++ firstn (Z.to_nat r) buf
  | _ :: cs' => accepted cs'
  end.

(** The bytes taken so far followed by the bytes still in the buffer. *)
Definition accounted (L : list byte) (w : world) : Prop :=
  accepted (calls w) ++ remaining_input w = L.

(** The calls made between [w] and [w'], and all the bytes given to
    [utp_write] in a log, taken or not. *)
Definition calls_since (w w' : world) : list call :=
  firstn (length (calls w') - length (calls w)) (calls w').
Definition offered (cs : list call) : list byte :=
  concat (map fst (submits cs)).

(** The claim C2 as it is written: every byte that is in the input buffer
    when flush begins has, when flush ends, been given to [utp_write] by this
    flush or is still in the input buffer. *)
Definition flush_keeps_every_byte (oracle : nat -> list byte -> Z) (w : world)
  : Prop :=
  forall (k : nat) (x : byte),
    nth_error (remaining_input w) k = Some x ->
    In x (offered (calls_since w (final (utp_bufferevent_flush oracle w))))
    \/ In x (remaining_input (final (utp_bufferevent_flush oracle w))).

(** ** The shutdown state machine *)

(** The flag is set in the bridge, as long as there is a bridge. *)
Definition read_suspended (w : world) : Prop :=
  forall u, heap w = Some u -> utp_read_shutdown u = true.

Definition live (w : world) : Prop := heap w <> None.

(** [keeps m]: on an allocated bridge [m] does not touch freed memory and
    leaves the bridge allocated.  [safe m]: on an allocated bridge [m] does
    not touch freed memory (it may free the bridge as its last act). *)
Definition keeps {A} (m : M A) : Prop :=
  forall w, live w ->
    match m w with
    | Done _ w' => live w'
    | Crash f _ => f <> use_after_free
    end.
Definition safe {A} (m : M A) : Prop :=
  forall w, live w -> fault_of (m w) <> Some use_after_free.

(** [m] never ends with the fault [f0]. *)
Definition never {A} (f0 : fault) (m : M A) : Prop :=
  forall w, fault_of (m w) <> Some f0.

(** The callbacks of libutp reach the bridge through the user-data slot:
    it is enough that the slot is empty once the bridge is freed. *)
Definition no_dangling_userdata (w : world) : Prop :=
  userdata w = true -> live w.

Definition free_count (cs : list call) : nat := length (filter is_free cs).

(** The user-data slot points to the bridge only while the bridge holds the
    socket, and [free] has been called once if the bridge is gone and never
    if it is there. *)
Definition bridge_ok (w : world) : Prop :=
  (userdata w = true -> exists u s, heap w = Some u /\ utp u = Some s)
  /\ free_count (calls w) = (if present (heap w) then 0 else 1)%nat.

Definition null_handle (f : fault) : bool :=
  match f with
  | null_utp | null_bev => true
  | _ => false
  end.

(** One event in one state: the callback makes no call on an absent
    handle. *)
Definition spares_absent_handles (oracle : nat -> list byte -> Z)
    (e : event) (w : world) : Prop :=
  match step oracle e w with
  | Done _ _ => True
  | Crash f _ => f <> null_utp /\ f <> null_bev
  end.

(** The user-data slot is set only while the bridge holds the socket; the
    bufferevent outlives the socket, not the other way round; and once the
    socket is gone the bufferevent does not read any more. *)
Definition handles_ok (w : world) : Prop :=
  match heap w with
  | None => userdata w = false
  | Some u =>
      (userdata w = true -> present (utp u) = true)
      /\ (present (utp u) = true -> present (bev u) = true)
      /\ (present (utp u) = false ->
          forall b, bev u = Some b -> is_enabled EV_READ b = false)
  end.

(** The events libevent itself produces: it reports [BEV_EVENT_READING]
    only through [read_failed]. *)
Definition from_libevent (e : event) : bool :=
  match e with
  | event_cb events => negb (has_flag events BEV_EVENT_READING)
  | _ => true
  end.

Definition no_null_handle {A} (o : outcome A) : Prop :=
  match o with
  | Done _ w' => handles_ok w'
  | Crash f _ => null_handle f = false
  end.

(** ** Releases and masks *)

Definition count (p : call -> bool) (cs : list call) : nat :=
  length (filter p cs).

Definition is_utp_close (c : call) : bool :=
  match c with utp_close _ => true | _ => false end.
Definition is_bufferevent_free (c : call) : bool :=
  match c with bufferevent_free => true | _ => false end.
Definition is_decref (c : call) : bool :=
  match c with bufferevent_decref => true | _ => false end.

(** The calls that tell the other side something and release nothing. *)
Definition quiet (c : call) : bool :=
  match c with
  | utp_shutdown _ _ | utp_read_drained _ | shutdown_fd _ => true
  | _ => false
  end.

(** [case UTP_STATE_CONNECT], lines 143-152: the owner of the far end is told
    and the reference on it is given back. *)
Definition tell_connected (o : other_end) : M unit :=
  (if has_event_cb o then do_call event_cb_connected else ret tt) ;;
  do_call bufferevent_decref ;;
  modify_u (set_other_bev None).

Definition holds_utp (w : world) : bool :=
  match heap w with
  | Some u => present (utp u)
  | None => false
  end.

(** The number of [utp_close] calls plus one while the socket is held, and
    the same for [bufferevent_free] and the bufferevent. *)
Definition utp_balance (w : world) : nat :=
  (count is_utp_close (calls w) + Nat.b2n (holds_utp w))%nat.
Definition bev_balance (w : world) : nat :=
  (count is_bufferevent_free (calls w) + Nat.b2n (bev_alive w))%nat.
Definition balance_is (k1 k2 : nat) (w : world) : Prop :=
  utp_balance w = k1 /\ bev_balance w = k2.

(** [a] has no bit that [b] has not. *)
Definition submask (a b : Z) : Prop := Z.land a (Z.lnot b) = 0.

(** The event [ev] is not enabled in the bufferevent, if there is one. *)
Definition disabled (ev : Z) (w : world) : Prop :=
  forall u b, heap w = Some u -> bev u = Some b -> Z.land (enabled b) ev = 0.

(** ** The stream from the descriptor to the uTP socket *)

Definition read_on (w : world) : bool :=
  match heap w with
  | Some u => match bev u with Some b => is_enabled EV_READ b | None => false end
  | None => false
  end.

(** The bytes libevent reads from the descriptor in the course of [es]. *)
Fixpoint fed (es : list event) : list byte :=
  match es with
  | [] => []
  | fd_read data :: es' => data ++ fed es'
  | _ :: es' => fed es'
  end.

(** The events that put bytes into a buffer of the bufferevent. *)
Definition brings_data (e : event) : bool :=
  match e with fd_read _ | on_read _ => true | _ => false end.

(** [L] is the stream of the descriptor and [T] what is still to be read of
    it: [utp_write] has taken a prefix of [L]; while the bridge holds the
    socket the input buffer is what follows that prefix, and while it also
    reads, [T] is what follows the input buffer. *)
Definition in_order (L T : list byte) (w : world) : Prop :=
  exists rest,
    L = accepted (calls w) ++ rest
    /\ (holds_utp w = true ->
        exists tail, rest = remaining_input w ++ tail
                     /\ (read_on w = true -> tail = T)).

(** ** Teardown *)

(** What [ubev_utp_close] logs for the socket [s], most recent call first:
    the reference on the far end is given back if there is one. *)
Definition utp_close_calls (s : utp_socket) (pe : option other_end) : list call :=
  (if present pe then [bufferevent_decref] else [])
    ++ [utp_close s; utp_set_userdata s false].

(** The world after both sides were closed and the bridge was freed. *)
Definition torn_down (s : utp_socket) (pe : option other_end) (cs : list call)
    (n : nat) : world :=
  mk_world None false
    (free_bridge :: bufferevent_free :: utp_close_calls s pe ++ cs) n.

(** ** Construction *)

(** The bridge [utp_bufferevent_new] makes around the socket [s] and the
    new bufferevent [b], in a world without a bridge. *)
Definition new_bridge (s : utp_socket) (b : bufferevent) (n : nat) : world :=
  final (utp_bufferevent_new s (Some b) (mk_world None false [] n)).

Definition has_other (w : world) : bool :=
  match heap w with
  | Some u => present (other_bev u)
  | None => false
  end.

(** The number of [bufferevent_decref] calls plus one while the bridge
    refers to the far end, which it does only while it holds the socket. *)
Definition reference_is (k : nat) (w : world) : Prop :=
  (count is_decref (calls w) + Nat.b2n (has_other w))%nat = k
  /\ (has_other w = true -> holds_utp w = true).

(** What [utp_socket_create_bev] leaves when both bufferevents could be
    made: the bridge, with a reference on the far end [o]. *)
Definition new_bridge_with_far_end (s : utp_socket) (fds0 fds1 : Z)
    (b : bufferevent) (o : other_end) (n : nat) : world :=
  final (utp_socket_create_bev s fds0 fds1 (Some b) (Some o)
           (mk_world None false [] n)).

(** ** The stream from the uTP socket to the descriptor *)

Definition write_on (w : world) : bool :=
  match heap w with
  | Some u => match bev u with Some b => is_enabled EV_WRITE b | None => false end
  | None => false
  end.

(** The bytes that wait in the output buffer. *)
Definition waiting_output (w : world) : list byte :=
  match heap w with
  | Some u => match bev u with Some b => output b | None => [] end
  | None => []
  end.

(** The bytes libutp hands to [utp_on_read] in the course of [es]. *)
Fixpoint given (es : list event) : list byte :=
  match es with
  | [] => []
  | on_read buf :: es' => buf ++ given es'
  | _ :: es' => given es'
  end.

(** [L] is the stream of the uTP socket and [T] what is still to come of
    it: the output buffer is a run of consecutive bytes of [L], and while
    the write side is enabled and the socket refers to the bridge, [T] is
    what follows it. *)
Definition queued_in_order (L T : list byte) (w : world) : Prop :=
  exists pre post,
    L = pre ++ waiting_output w ++ post
    /\ (write_on w = true -> userdata w = true -> post = T).

(** * Properties *)

(** ** Reading from Transport A *)

(** C9. When data arrives from Transport A and the bridge has a bufferevent
    whose write side is enabled, [utp_on_read] appends exactly the received
    bytes, in one piece, to the output buffer and changes nothing else; in
    every other state of the bridge it changes nothing at all. *)
Theorem utp_on_read_forwards_or_drops :
  forall (w : world) (u : utp_bufferevent) (buf : list byte),
    heap w = Some u -> userdata w = true ->
    (forall b, bev u = Some b -> is_enabled EV_WRITE b = true ->
       utp_on_read buf w =
         Done 0 (set_heap (Some (set_bev (Some (set_output (output b ++ buf) b)) u)) w)
       /\ length (output b ++ buf) = (length (output b) + length buf)%nat)
    /\ ((bev u = None \/ exists b, bev u = Some b /\ is_enabled EV_WRITE b = false) ->
        utp_on_read buf w = Done 0 w).
Proof.
  intros [h d cs n] u buf Hh Hd; simpl in Hh, Hd; subst h d.
  split.
  - intros b Hb Hen. split; [| apply length_app].
    unfold utp_on_read, bind, utp_get_userdata, deref, get_u; simpl.
    rewrite Hb, Hen.
    unfold bufferevent_write, modify_bev, the_bev, bind, get_u, modify_u; simpl.
    rewrite Hb. reflexivity.
  - intros [Hb | [b [Hb Hen]]];
      unfold utp_on_read, bind, utp_get_userdata, deref, get_u; simpl;
      rewrite Hb; [| rewrite Hen]; reflexivity.
Qed.

Lemma utp_on_read_forwards_or_drops_witness :
  utp_on_read (repeat x2a 3000) (open_bridge [] [x01]) =
    Done 0 (mk_world (Some (mk_ubev (Some 7%nat) false
                              (Some (mk_bev rd_wr [] (x01 :: repeat x2a 3000))) None))
                     true [] 0)
  /\ length (x01 :: repeat x2a 3000) = 3001%nat.
Proof.
  destruct (utp_on_read_forwards_or_drops
              (open_bridge [] [x01])
              (mk_ubev (Some 7%nat) false (Some (mk_bev rd_wr [] [x01])) None)
              (repeat x2a 3000) eq_refl eq_refl) as [H _].
  destruct (H (mk_bev rd_wr [] [x01]) eq_refl eq_refl) as [H1 H2].
  split; [exact H1 | exact H2].
Defined.

(** ** Construction *)

(** C10. When [bufferevent_socket_new] fails inside a factory, the
    constructor clears the back-reference of the uTP socket and closes the
    socket, then frees the bridge; the factory closes both descriptors and
    returns its error value ([-1], or NULL for [utp_socket_create_bev]). *)
Theorem factory_failure_consumes_utp :
  forall (w : world) (s : utp_socket) (fds0 fds1 : Z) (o : option other_end),
    let w' :=
      mk_world None false
        (close_fd fds1 :: close_fd fds0 :: free_bridge :: utp_close s
           :: utp_set_userdata s false :: utp_set_userdata s true :: calls w)
        (writes w) in
    utp_socket_create_fd s fds0 fds1 None w = Done (-1) w'
    /\ utp_socket_create_bev s fds0 fds1 None o w = Done None w'.
Proof.
  intros [h d cs n] s fds0 fds1 o; split; reflexivity.
Qed.

(** ** Symbolic execution *)

Ltac fields :=
  cbn [heap userdata calls writes utp utp_read_shutdown bev other_bev
       enabled input output set_utp set_utp_read_shutdown set_bev
       set_other_bev set_enabled set_input set_output set_heap set_userdata
       log present negb orb andb final fault_of input_len] in *.

Ltac exec :=
  cbv [bind ret crash c_assert get_u modify_u the_bev modify_bev do_call
       on_utp bufferevent_disable bufferevent_enable bufferevent_write
       utp_get_userdata deref do_utp_write];
  fields.

Lemma is_empty_false (l : list byte) : l <> [] -> is_empty l = false.
Proof. destruct l; [congruence | reflexivity]. Qed.

Lemma drain_shorter (r : Z) (l : list byte) :
  0 < r -> l <> [] -> (length (evbuffer_drain r l) < length l)%nat.
Proof.
  intros Hr Hl. unfold evbuffer_drain. rewrite length_skipn.
  destruct l; [congruence |]. cbn [length]. lia.
Qed.

(** The result of the loop does not depend on the fuel, once there is as
    much of it as there are bytes in the input buffer. *)
Lemma flush_loop_fuel (oracle : nat -> list byte -> Z) :
  forall (f1 f2 : nat) (w : world),
    (input_len w <= f1)%nat -> (input_len w <= f2)%nat ->
    flush_loop oracle f1 w = flush_loop oracle f2 w.
Proof.
  induction f1 as [| f1 IH]; intros f2 w H1 H2.
  - destruct w as [[[ut rs [[e i o] |] ob] |] d cs n]; destruct f2; try reflexivity;
      cbn in H1; destruct i; [reflexivity | cbn in H1; lia].
  - destruct f2 as [| f2].
    + destruct w as [[[ut rs [[e i o] |] ob] |] d cs n]; try reflexivity;
        cbn in H2; destruct i; [reflexivity | cbn in H2; lia].
    + destruct w as [[[ut rs [[e i o] |] ob] |] d cs n]; try reflexivity.
      fields.
      destruct i as [| x i]; [reflexivity |].
      cbn [flush_loop]. exec.
      rewrite (is_empty_false (x :: i)) by congruence.
      destruct ut as [s |]; [| reflexivity]. exec.
      match goal with |- context [oracle n ?b] => set (r := oracle n b) end.
      destruct (r <? 0) eqn:Hneg; [reflexivity |].
      destruct (r =? 0) eqn:Hz; [reflexivity |].
      assert (Hd : (length (evbuffer_drain r (x :: i)) < length (x :: i))%nat)
        by (apply drain_shorter; [lia | congruence]).
      apply IH; fields; lia.
Qed.

(** *** The fuel of the loop never runs out *)

Lemma never_bind {A B} (f0 : fault) (m : M A) (k : A -> M B) :
  never f0 m -> (forall a, never f0 (k a)) -> never f0 (bind m k).
Proof.
  intros Hm Hk w. unfold bind. specialize (Hm w).
  destruct (m w) as [a w' | f w']; [apply Hk | exact Hm].
Qed.

Lemma never_ret {A} (f0 : fault) (a : A) : never f0 (ret a).
Proof. intros w; cbn; discriminate. Qed.

Lemma never_crash {A} (f0 f : fault) : f <> f0 -> never f0 (@crash A f).
Proof. intros H w; cbn; congruence. Qed.

Ltac never_prim :=
  intros w;
  cbv [c_assert get_u modify_u the_bev modify_bev do_call on_utp deref
       do_utp_write utp_get_userdata bind ret crash];
  try (destruct (heap w) as [u |]; cbn; try destruct (bev u); cbn;
       try (destruct (heap w); cbn));
  cbn; discriminate.

Lemma never_fuel_get_u : never out_of_fuel get_u.
Proof. never_prim. Qed.
Lemma never_fuel_modify_u f : never out_of_fuel (modify_u f).
Proof. never_prim. Qed.
Lemma never_fuel_the_bev : never out_of_fuel the_bev.
Proof. never_prim. Qed.
Lemma never_fuel_modify_bev f : never out_of_fuel (modify_bev f).
Proof. never_prim. Qed.
Lemma never_fuel_c_assert line b : never out_of_fuel (c_assert line b).
Proof. destruct b; never_prim. Qed.
Lemma never_fuel_do_call c : never out_of_fuel (do_call c).
Proof. never_prim. Qed.
Lemma never_fuel_on_utp s c : never out_of_fuel (on_utp s c).
Proof. destruct s; never_prim. Qed.
Lemma never_fuel_deref p : never out_of_fuel (deref p).
Proof. destruct p; never_prim. Qed.
Lemma never_fuel_utp_get_userdata : never out_of_fuel utp_get_userdata.
Proof. never_prim. Qed.
Lemma never_fuel_do_utp_write oracle s buf :
  never out_of_fuel (do_utp_write oracle s buf).
Proof. destruct s; never_prim. Qed.

Ltac never_go :=
  repeat first
    [ assumption
    | match goal with
      | H : forall _, never _ _ |- never _ _ => apply H
      end
    | apply never_ret
    | apply never_crash; discriminate
    | apply never_fuel_get_u
    | apply never_fuel_modify_u
    | apply never_fuel_the_bev
    | apply never_fuel_modify_bev
    | apply never_fuel_c_assert
    | apply never_fuel_do_call
    | apply never_fuel_on_utp
    | apply never_fuel_deref
    | apply never_fuel_utp_get_userdata
    | apply never_fuel_do_utp_write
    | match goal with
      | |- never _ (if ?c then _ else _) => destruct c
      | |- never _ (match ?o with Some _ => _ | None => _ end) => destruct o
      | |- never _ (bufferevent_disable _) => unfold bufferevent_disable
      | |- never _ (bufferevent_enable _) => unfold bufferevent_enable
      | |- never _ (bufferevent_write _) => unfold bufferevent_write
      | |- never _ (fun w => Done _ _) => intros ?; cbn; discriminate
      end
    | apply never_bind; [| intro] ].

Lemma never_fuel_flush_tail : never out_of_fuel flush_tail.
Proof.
  unfold flush_tail, ubev_utp_close, ubev_bev_close, ubev_cleanup. never_go.
Qed.

Lemma never_fuel_close_then_graceful :
  never out_of_fuel (ubev_utp_close ;; ubev_bev_graceful_close).
Proof.
  unfold ubev_bev_graceful_close, ubev_utp_close, ubev_bev_close, ubev_cleanup.
  never_go.
Qed.

(** With as much fuel as there are bytes in the input buffer the loop comes
    to its end. *)
Lemma flush_loop_enough_fuel (oracle : nat -> list byte -> Z) :
  forall (fuel : nat) (w : world),
    (input_len w <= fuel)%nat ->
    fault_of (flush_loop oracle fuel w) <> Some out_of_fuel.
Proof.
  induction fuel as [| fuel IH]; intros w Hf.
  - destruct w as [[[ut rs [[e i o] |] ob] |] d cs n]; try discriminate.
    fields. destruct i; [| cbn in Hf; lia].
    apply never_fuel_flush_tail.
  - destruct w as [[[ut rs [[e i o] |] ob] |] d cs n]; try discriminate.
    fields.
    destruct i as [| x i]; [apply never_fuel_flush_tail |].
    cbn [flush_loop]. exec.
    rewrite (is_empty_false (x :: i)) by congruence.
    destruct ut as [s |]; [| discriminate]. exec.
    match goal with |- context [oracle n ?b] => set (r := oracle n b) end.
    destruct (r <? 0) eqn:Hneg; [apply never_fuel_close_then_graceful |].
    destruct (r =? 0) eqn:Hz; [apply never_fuel_flush_tail |].
    assert (Hd : (length (evbuffer_drain r (x :: i)) < length (x :: i))%nat)
      by (apply drain_shorter; [lia | congruence]).
    apply IH; fields; lia.
Qed.

Lemma flush_enough_fuel (oracle : nat -> list byte -> Z) :
  never out_of_fuel (utp_bufferevent_flush oracle).
Proof.
  intros w. unfold utp_bufferevent_flush, bind.
  destruct (the_bev w) as [b w' | f w'] eqn:E.
  - apply flush_loop_enough_fuel.
    unfold the_bev, bind, get_u in E.
    destruct w as [[u |] d cs n]; [| discriminate E]. fields.
    destruct (bev u) as [b' |] eqn:Hb; [| discriminate E].
    injection E as <- <-. fields. rewrite Hb. apply le_n.
  - pose proof (never_fuel_the_bev w) as N. rewrite E in N. exact N.
Qed.

Lemma run_enough_fuel (oracle : nat -> list byte -> Z) (es : list event) :
  never out_of_fuel (run oracle es).
Proof.
  pose proof (flush_enough_fuel oracle) as F.
  assert (S : forall e, never out_of_fuel (step oracle e)).
  { intros e w. unfold step. destruct (deliverable e w); [| cbn; discriminate].
    revert w. change (never out_of_fuel (handler oracle e)).
    destruct e; cbn [handler];
      unfold utp_on_error, utp_on_read, utp_on_state_change, state_writable,
        ubev_bev_stop_writing, ubev_read_cb, ubev_write_cb, ubev_event_cb,
        event_eof_reading, ubev_bev_graceful_close, ubev_utp_close,
        ubev_bev_close, ubev_cleanup;
      try destruct st; never_go. }
  induction es as [| e es IH]; cbn [run]; never_go.
Qed.

(** ** Invariants of the monadic code *)

Section Preserves.

Variable I : world -> Prop.

Lemma preserves_bind {A B} (m : M A) (k : A -> M B) :
  preserves I m -> (forall a, preserves I (k a)) -> preserves I (bind m k).
Proof.
  intros Hm Hk w Hw. unfold bind. specialize (Hm w Hw).
  destruct (m w) as [a w' | f w']; cbn in *; [apply Hk |]; assumption.
Qed.

Lemma preserves_ret {A} (a : A) : preserves I (ret a).
Proof. intros w Hw; exact Hw. Qed.

Lemma preserves_crash {A} (f : fault) : preserves I (@crash A f).
Proof. intros w Hw; exact Hw. Qed.

Lemma preserves_c_assert (line : nat) (b : bool) : preserves I (c_assert line b).
Proof. intros w Hw; destruct b; exact Hw. Qed.

Lemma preserves_get_u : preserves I get_u.
Proof. intros w Hw; unfold get_u; destruct (heap w); exact Hw. Qed.

Lemma preserves_the_bev : preserves I the_bev.
Proof.
  intros w Hw; unfold the_bev, bind, get_u.
  destruct (heap w) as [u |]; [destruct (bev u) |]; exact Hw.
Qed.

Lemma preserves_utp_get_userdata : preserves I utp_get_userdata.
Proof. intros w Hw; exact Hw. Qed.

Lemma preserves_deref (p : bool) : preserves I (deref p).
Proof. destruct p; [apply preserves_get_u | apply preserves_crash]. Qed.

Lemma preserves_modify_u (f : utp_bufferevent -> utp_bufferevent) :
  (forall w u, I w -> heap w = Some u -> I (set_heap (Some (f u)) w)) ->
  preserves I (modify_u f).
Proof.
  intros H w Hw; unfold modify_u.
  destruct (heap w) as [u |] eqn:Hu; [apply H |]; assumption.
Qed.

Lemma preserves_modify_bev (f : bufferevent -> bufferevent) :
  (forall w u b, I w -> heap w = Some u ->
     I (set_heap (Some (set_bev (Some b) u)) w)) ->
  preserves I (modify_bev f).
Proof.
  intros H w Hw; unfold modify_bev, the_bev, bind, get_u, modify_u.
  destruct (heap w) as [u |] eqn:Hu; [| exact Hw].
  destruct (bev u) as [b |]; cbn; [| exact Hw].
  rewrite Hu. cbn. apply H; assumption.
Qed.

Lemma preserves_do_call (c : call) :
  (forall w, I w -> I (log c w)) -> preserves I (do_call c).
Proof. intros H w Hw; apply H; exact Hw. Qed.

Lemma preserves_on_utp (s : option utp_socket) (c : utp_socket -> call) :
  (forall h w, I w -> I (log (c h) w)) -> preserves I (on_utp s c).
Proof.
  intros H; destruct s; [apply preserves_do_call, H | apply preserves_crash].
Qed.

End Preserves.

(** Takes a goal [preserves I m] apart along the structure of [m]; [leaf]
    proves what is asked of [I] at the places where the world changes. *)
Ltac pres_with leaf :=
  repeat first
    [ assumption
    | match goal with H : forall _, preserves _ _ |- _ => apply H end
    | apply preserves_ret
    | apply preserves_crash
    | apply preserves_c_assert
    | apply preserves_get_u
    | apply preserves_the_bev
    | apply preserves_utp_get_userdata
    | apply preserves_deref
    | apply preserves_bind; [| intro]
    | apply preserves_modify_u; solve [leaf]
    | apply preserves_modify_bev; solve [leaf]
    | apply preserves_do_call; solve [leaf]
    | apply preserves_on_utp; solve [leaf]
    | match goal with
      | |- preserves _ (if ?c then _ else _) => destruct c
      | |- preserves _ (match ?o with Some _ => _ | None => _ end) => destruct o
      | |- preserves _ (bufferevent_disable _) => unfold bufferevent_disable
      | |- preserves _ (bufferevent_enable _) => unfold bufferevent_enable
      | |- preserves _ (bufferevent_write _) => unfold bufferevent_write
      end
    | solve [leaf] ].

(** *** The counter of [utp_write] calls moves only in the loop *)

Ltac writes_leaf := unfold writes_is; intros; fields; auto.

Lemma ubev_cleanup_writes (n : nat) : preserves (writes_is n) ubev_cleanup.
Proof. unfold ubev_cleanup. pres_with writes_leaf. Qed.

Lemma ubev_utp_close_writes (n : nat) : preserves (writes_is n) ubev_utp_close.
Proof. unfold ubev_utp_close. pres_with writes_leaf. Qed.

Lemma ubev_bev_close_writes (n : nat) : preserves (writes_is n) ubev_bev_close.
Proof. unfold ubev_bev_close. pres_with writes_leaf. Qed.

Lemma ubev_bev_graceful_close_writes (n : nat) :
  preserves (writes_is n) ubev_bev_graceful_close.
Proof.
  unfold ubev_bev_graceful_close.
  pres_with writes_leaf; first [apply ubev_bev_close_writes | apply ubev_cleanup_writes].
Qed.

(** ** The submission loop of [utp_bufferevent_flush] *)

Lemma flush_first_turn (oracle : nat -> list byte -> Z) :
  forall (w : world) (u : utp_bufferevent) (s : utp_socket) (b : bufferevent),
    heap w = Some u -> utp u = Some s -> bev u = Some b -> input b <> [] ->
    utp_bufferevent_flush oracle w =
      let r := oracle (writes w) (chunk (input b)) in
      let w1 := wrote s (chunk (input b)) r w in
      if r <? 0 then (ubev_utp_close ;; ubev_bev_graceful_close) w1
      else if r =? 0 then flush_tail w1
      else
        utp_bufferevent_flush oracle
          (set_heap
             (Some (set_bev (Some (set_input (evbuffer_drain r (input b)) b)) u))
             w1).
Proof.
  intros [h d cs n] [ut rs ob pe] s [e i o] Hh Hu Hb Hi.
  fields. subst h ut ob.
  unfold utp_bufferevent_flush at 1. exec.
  destruct (length i) as [| f] eqn:Hlen; [destruct i; [congruence | discriminate] |].
  cbn [flush_loop]. exec.
  rewrite (is_empty_false i Hi). fold (chunk i). unfold wrote. fields.
  cbv zeta.
  destruct (oracle n (chunk i) <? 0) eqn:Hneg; [reflexivity |].
  destruct (oracle n (chunk i) =? 0) eqn:Hz; [reflexivity |].
  unfold utp_bufferevent_flush. exec.
  assert (Hd : (length (evbuffer_drain (oracle n (chunk i)) i) < length i)%nat)
    by (apply drain_shorter; [lia | exact Hi]).
  apply flush_loop_fuel; fields; lia.
Qed.

Lemma flush_tail_nonempty :
  forall (w : world) (u : utp_bufferevent) (b : bufferevent),
    heap w = Some u -> bev u = Some b -> input b <> [] ->
    flush_tail w = Done tt w.
Proof.
  intros [h d cs n] [ut rs ob pe] [e i o] Hh Hb Hi. fields. subst h ob.
  unfold flush_tail. exec.
  rewrite (is_empty_false i Hi), andb_false_r. reflexivity.
Qed.

Lemma land_disable_same (e ev : Z) : Z.land (Z.land e (Z.lnot ev)) ev = 0.
Proof.
  rewrite <- Z.land_assoc, (Z.land_comm (Z.lnot ev)), Z.land_lnot_diag.
  apply Z.land_0_r.
Qed.

Lemma land_disable_other (e ev ev' : Z) :
  Z.land e ev' = 0 -> Z.land (Z.land e (Z.lnot ev)) ev' = 0.
Proof.
  intros H.
  rewrite <- Z.land_assoc, (Z.land_comm (Z.lnot ev)), Z.land_assoc, H.
  apply Z.land_0_l.
Qed.

(** A mask within [EV_READ|EV_WRITE] is one of four. *)
Lemma mask_cases (e : Z) :
  submask e rd_wr -> e = 0 \/ e = EV_READ \/ e = EV_WRITE \/ e = rd_wr.
Proof.
  unfold submask. intros H.
  assert (B : forall k, 0 <= k -> k <> 1 -> k <> 2 -> Z.testbit e k = false).
  { intros k Hk H1 H2.
    apply (f_equal (fun x => Z.testbit x k)) in H.
    rewrite Z.land_spec, Z.lnot_spec, Z.bits_0 in H by exact Hk.
    assert (T : Z.testbit rd_wr k = false).
    { destruct (Z.eq_dec k 0) as [-> | H0]; [reflexivity |].
      apply Z.bits_above_log2; [cbv; discriminate |].
      change (Z.log2 rd_wr) with 2. lia. }
    rewrite T in H. cbn in H. rewrite andb_true_r in H. exact H. }
  assert (C : forall v, 0 <= v -> Z.log2 v < 3 -> Z.testbit v 0 = false ->
              Z.testbit e 1 = Z.testbit v 1 -> Z.testbit e 2 = Z.testbit v 2 ->
              e = v).
  { intros v Hv Hl H0 H1 H2. apply Z.bits_inj'. intros k Hk.
    destruct (Z.eq_dec k 1) as [-> | N1]; [exact H1 |].
    destruct (Z.eq_dec k 2) as [-> | N2]; [exact H2 |].
    rewrite (B k Hk N1 N2). symmetry.
    destruct (Z.eq_dec k 0) as [-> | N0]; [exact H0 |].
    destruct (Z.eq_dec v 0) as [-> | Nv]; [apply Z.bits_0 |].
    apply Z.bits_above_log2; lia. }
  destruct (Z.testbit e 1) eqn:E1, (Z.testbit e 2) eqn:E2.
  - right; right; right. apply C; try reflexivity; cbv; congruence.
  - right; left. apply C; try reflexivity; cbv; congruence.
  - right; right; left. apply C; try reflexivity; cbv; congruence.
  - left. apply C; try reflexivity; cbv; congruence.
Qed.

(** What [ubev_utp_close] followed by [ubev_bev_graceful_close] leaves of a
    bridge that holds both sides: the socket is closed and its user data
    cleared, the input buffer is discarded and reading is disabled; the
    bufferevent stays while its output buffer holds bytes, and is freed
    with the bridge when the buffer is empty. *)
Lemma close_then_graceful_world :
  forall s rs e i o pe d cs n,
    (holds_utp (final ((ubev_utp_close ;; ubev_bev_graceful_close)
                         (both_open s rs (mk_bev e i o) pe d cs n))) = false
     /\ userdata (final ((ubev_utp_close ;; ubev_bev_graceful_close)
                           (both_open s rs (mk_bev e i o) pe d cs n))) = false
     /\ remaining_input (final ((ubev_utp_close ;; ubev_bev_graceful_close)
                                  (both_open s rs (mk_bev e i o) pe d cs n))) = []
     /\ read_on (final ((ubev_utp_close ;; ubev_bev_graceful_close)
                          (both_open s rs (mk_bev e i o) pe d cs n))) = false
     /\ count is_utp_close
          (calls (final ((ubev_utp_close ;; ubev_bev_graceful_close)
                           (both_open s rs (mk_bev e i o) pe d cs n))))
        = S (count is_utp_close cs)
     /\ submits (calls (final ((ubev_utp_close ;; ubev_bev_graceful_close)
                                 (both_open s rs (mk_bev e i o) pe d cs n))))
        = submits cs)
    /\ (o <> [] ->
        (ubev_utp_close ;; ubev_bev_graceful_close)
          (both_open s rs (mk_bev e i o) pe d cs n)
        = Done tt
            (mk_world
               (Some (mk_ubev None rs
                        (Some (mk_bev (Z.land e (Z.lnot EV_READ)) [] o)) None))
               false (utp_close_calls s pe ++ cs) n))
    /\ (o = [] -> submask e rd_wr ->
        (ubev_utp_close ;; ubev_bev_graceful_close)
          (both_open s rs (mk_bev e i o) pe d cs n)
        = Done tt (torn_down s pe cs n)).
Proof.
  intros s rs e i o pe d cs n. split; [| split].
  - unfold ubev_utp_close, ubev_bev_graceful_close, ubev_bev_close, ubev_cleanup,
      both_open, holds_utp, read_on, remaining_input, count, is_enabled.
    destruct pe;
      destruct (is_empty o) eqn:Ho;
      destruct (Z.land (Z.land e (Z.lnot EV_READ)) (Z.lnot EV_WRITE) =? 0) eqn:Hm;
      repeat (exec; rewrite ?Ho, ?Hm;
              change (is_empty (@nil byte)) with true);
      rewrite ?land_disable_same,
        ?(land_disable_other _ EV_WRITE EV_READ (land_disable_same e EV_READ));
      repeat split; reflexivity.
  - intros Ho.
    unfold ubev_utp_close, ubev_bev_graceful_close, both_open, utp_close_calls.
    destruct pe; exec; rewrite (is_empty_false o Ho); reflexivity.
  - intros -> Hm. unfold torn_down, utp_close_calls.
    destruct (mask_cases e Hm) as [-> | [-> | [-> | ->]]]; destruct pe; reflexivity.
Qed.

(** C3. One turn of the loop of [utp_bufferevent_flush], which offers the
    chunk [chunk (input b)] to [utp_write] and gets [r]:
    - [r < 0]: flush closes Transport A ([utp_close], user data cleared,
      [u->utp] NULL), closes Transport B gracefully (input buffer
      discarded, reading disabled; with bytes in the output buffer the
      bufferevent stays as it is otherwise, with an empty output buffer it
      is freed and the bridge with it), and stops: [utp_write] is not
      called again;
    - [r = 0]: flush returns at once, without a fault, and leaves the
      bridge and its input buffer as they were;
    - [r > 0]: the first [r] bytes are drained from the input buffer and
      the loop goes on with what is left. *)
Theorem flush_submit_result_policy (oracle : nat -> list byte -> Z) :
  forall (w : world) (u : utp_bufferevent) (s : utp_socket) (b : bufferevent),
    heap w = Some u -> utp u = Some s -> bev u = Some b -> input b <> [] ->
    forall r, r = oracle (writes w) (chunk (input b)) ->
    (r < 0 ->
       (holds_utp (final (utp_bufferevent_flush oracle w)) = false
        /\ userdata (final (utp_bufferevent_flush oracle w)) = false
        /\ remaining_input (final (utp_bufferevent_flush oracle w)) = []
        /\ read_on (final (utp_bufferevent_flush oracle w)) = false
        /\ count is_utp_close (calls (final (utp_bufferevent_flush oracle w)))
           = S (count is_utp_close (calls w))
        /\ submits (calls (final (utp_bufferevent_flush oracle w)))
           = submits (calls w) ++ [(chunk (input b), r)]
        /\ writes (final (utp_bufferevent_flush oracle w)) = S (writes w))
       /\ (output b <> [] ->
           utp_bufferevent_flush oracle w =
             Done tt
               (mk_world
                  (Some (mk_ubev None (utp_read_shutdown u)
                           (Some (mk_bev (Z.land (enabled b) (Z.lnot EV_READ))
                                    [] (output b)))
                           None))
                  false
                  (utp_close_calls s (other_bev u)
                     ++ utp_write s (chunk (input b)) r :: calls w)
                  (S (writes w))))
       /\ (output b = [] -> submask (enabled b) rd_wr ->
           utp_bufferevent_flush oracle w =
             Done tt
               (torn_down s (other_bev u)
                  (utp_write s (chunk (input b)) r :: calls w)
                  (S (writes w)))))
    /\ (r = 0 ->
        utp_bufferevent_flush oracle w = Done tt (wrote s (chunk (input b)) r w)
        /\ heap (wrote s (chunk (input b)) r w) = heap w)
    /\ (0 < r ->
        utp_bufferevent_flush oracle w =
          utp_bufferevent_flush oracle
            (set_heap
               (Some (set_bev (Some (set_input (evbuffer_drain r (input b)) b)) u))
               (wrote s (chunk (input b)) r w))
        /\ (r <= evbuffer_get_length (input b) ->
            evbuffer_get_length (evbuffer_drain r (input b)) =
              evbuffer_get_length (input b) - r)).
Proof.
  intros w u s b Hh Hu Hb Hi r Hr.
  pose proof (flush_first_turn oracle w u s b Hh Hu Hb Hi) as E.
  cbv zeta in E. rewrite <- Hr in E.
  split; [| split].
  - intros Hneg. rewrite E. destruct (Z.ltb_spec r 0); [| lia].
    assert (P : preserves (writes_is (S (writes w)))
                  (ubev_utp_close ;; ubev_bev_graceful_close)).
    { apply preserves_bind; [apply ubev_utp_close_writes |].
      intros _; apply ubev_bev_graceful_close_writes. }
    specialize (P (wrote s (chunk (input b)) r w) eq_refl).
    destruct w as [h d cs n]. destruct u as [ut rs ob pe]. destruct b as [e i o].
    fields. subst h ut ob.
    destruct (close_then_graceful_world s rs e i o pe d
                (utp_write s (chunk i) r :: cs) (S n))
      as [[G1 [G2 [G3 [G4 [G5 G6]]]]] [Gout Gempty]].
    unfold both_open in *. unfold wrote in *. fields.
    split; [| split; [exact Gout | exact Gempty]].
    repeat split; assumption.
  - intros Hz. split; [| reflexivity].
    rewrite E. rewrite Hz. cbn [Z.ltb Z.eqb Z.compare].
    apply (flush_tail_nonempty _ u b); assumption.
  - intros Hpos. split.
    + rewrite E.
      destruct (Z.ltb_spec r 0); [lia |].
      destruct (Z.eqb_spec r 0); [lia | reflexivity].
    + intros Hle. unfold evbuffer_get_length, evbuffer_drain in *.
      rewrite length_skipn. lia.
Qed.

Lemma flush_submit_result_policy_witness :
  utp_bufferevent_flush backpressure (open_bridge (repeat x00 1500) []) =
    Done tt (wrote 7%nat (chunk (repeat x00 1500)) 0
               (open_bridge (repeat x00 1500) []))
  /\ utp_bufferevent_flush always_fails (open_bridge [x01] []) =
       Done tt (torn_down 7%nat None [utp_write 7%nat [x01] (-1)] 1)
  /\ utp_bufferevent_flush always_fails (open_bridge [x01] [x02]) =
       Done tt
         (mk_world
            (Some (mk_ubev None false (Some (mk_bev EV_WRITE [] [x02])) None))
            false
            [utp_close 7%nat; utp_set_userdata 7%nat false;
             utp_write 7%nat [x01] (-1)] 1)
  /\ utp_bufferevent_flush accept_two (open_bridge [x01; x02; x03] []) =
       utp_bufferevent_flush accept_two
         (wrote 7%nat (chunk [x01; x02; x03]) 2 (open_bridge [x03] [])).
Proof.
  split; [| split; [| split]].
  - destruct (flush_submit_result_policy backpressure
                (open_bridge (repeat x00 1500) [])
                (mk_ubev (Some 7%nat) false
                   (Some (mk_bev rd_wr (repeat x00 1500) [])) None)
                7%nat (mk_bev rd_wr (repeat x00 1500) [])
                eq_refl eq_refl eq_refl ltac:(discriminate) 0 eq_refl)
      as [_ [Hz _]].
    exact (proj1 (Hz eq_refl)).
  - destruct (flush_submit_result_policy always_fails
                (open_bridge [x01] [])
                (mk_ubev (Some 7%nat) false (Some (mk_bev rd_wr [x01] [])) None)
                7%nat (mk_bev rd_wr [x01] [])
                eq_refl eq_refl eq_refl ltac:(discriminate) (-1) eq_refl)
      as [Hn _].
    exact (proj2 (proj2 (Hn eq_refl)) eq_refl eq_refl).
  - destruct (flush_submit_result_policy always_fails
                (open_bridge [x01] [x02])
                (mk_ubev (Some 7%nat) false (Some (mk_bev rd_wr [x01] [x02])) None)
                7%nat (mk_bev rd_wr [x01] [x02])
                eq_refl eq_refl eq_refl ltac:(discriminate) (-1) eq_refl)
      as [Hn _].
    exact (proj1 (proj2 (Hn eq_refl)) ltac:(discriminate)).
  - destruct (flush_submit_result_policy accept_two
                (open_bridge [x01; x02; x03] [])
                (mk_ubev (Some 7%nat) false
                   (Some (mk_bev rd_wr [x01; x02; x03] [])) None)
                7%nat (mk_bev rd_wr [x01; x02; x03] [])
                eq_refl eq_refl eq_refl ltac:(discriminate) 2 eq_refl)
      as [_ [_ Hp]].
    exact (proj1 (Hp eq_refl)).
Defined.

(** *** Invariants of the event loop

    An invariant that [ubev_utp_close] and [ubev_cleanup] preserve, and that
    no other change the code makes to the world can break, holds along every
    run of the event loop. *)

Section Loop_invariant.

Variable oracle : nat -> list byte -> Z.
Variable I : world -> Prop.

Hypothesis I_utp_close : preserves I ubev_utp_close.
Hypothesis I_cleanup : preserves I ubev_cleanup.
Hypothesis I_call :
  forall c w, is_utp_write c = false -> is_free c = false -> I w -> I (log c w).
Hypothesis I_write :
  forall s l w, I w -> I (wrote s (chunk l) (oracle (writes w) (chunk l)) w).
Hypothesis I_bev :
  forall w u ob, I w -> heap w = Some u -> I (set_heap (Some (set_bev ob u)) w).
Hypothesis I_flag :
  forall w u, I w -> heap w = Some u ->
    I (set_heap (Some (set_utp_read_shutdown true u)) w).
Hypothesis I_other :
  forall w u, I w -> heap w = Some u ->
    I (set_heap (Some (set_other_bev None u)) w).

Ltac inv_leaf :=
  first [ apply I_utp_close | apply I_cleanup
        | intros; apply I_call; [reflexivity | reflexivity | assumption]
        | intros; apply I_bev; assumption
        | intros; apply I_flag; assumption
        | intros; apply I_other; assumption ].

Lemma inv_bev_close : preserves I ubev_bev_close.
Proof. unfold ubev_bev_close. pres_with inv_leaf. Qed.

Lemma inv_graceful_close : preserves I ubev_bev_graceful_close.
Proof.
  pose proof inv_bev_close.
  unfold ubev_bev_graceful_close. pres_with inv_leaf.
Qed.

Lemma inv_flush_tail : preserves I flush_tail.
Proof.
  pose proof inv_bev_close.
  unfold flush_tail. pres_with inv_leaf.
Qed.

Lemma inv_do_utp_write (s : option utp_socket) (l : list byte) :
  preserves I (do_utp_write oracle s (chunk l)).
Proof.
  destruct s; [| apply preserves_crash].
  intros w Hw. apply (I_write _ l w Hw).
Qed.

Lemma inv_flush_loop (fuel : nat) : preserves I (flush_loop oracle fuel).
Proof.
  pose proof inv_flush_tail. pose proof inv_graceful_close.
  induction fuel as [| fuel IH]; cbn [flush_loop].
  - pres_with inv_leaf.
  - apply preserves_bind; [apply preserves_the_bev | intros b].
    destruct (is_empty (input b)); [assumption |].
    cbv zeta. fold (chunk (input b)).
    apply preserves_bind; [apply preserves_get_u | intros u].
    apply preserves_bind; [apply inv_do_utp_write | intros r].
    pres_with inv_leaf.
Qed.

Lemma inv_flush : preserves I (utp_bufferevent_flush oracle).
Proof.
  unfold utp_bufferevent_flush.
  apply preserves_bind; [apply preserves_the_bev | intros b; apply inv_flush_loop].
Qed.

Lemma inv_stop_writing : preserves I (ubev_bev_stop_writing oracle).
Proof.
  pose proof inv_flush.
  unfold ubev_bev_stop_writing. pres_with inv_leaf.
Qed.

Lemma inv_utp_on_error : preserves I utp_on_error.
Proof.
  pose proof inv_graceful_close.
  unfold utp_on_error. pres_with inv_leaf.
Qed.

Lemma inv_utp_on_read (buf : list byte) : preserves I (utp_on_read buf).
Proof. unfold utp_on_read. pres_with inv_leaf. Qed.

Lemma inv_utp_on_state_change (st : utp_state) :
  preserves I (utp_on_state_change oracle st).
Proof.
  pose proof inv_flush. pose proof inv_stop_writing.
  unfold utp_on_state_change, state_writable. destruct st; pres_with inv_leaf.
Qed.

Lemma inv_read_cb : preserves I (ubev_read_cb oracle).
Proof.
  pose proof inv_flush.
  unfold ubev_read_cb. pres_with inv_leaf.
Qed.

Lemma inv_write_cb : preserves I ubev_write_cb.
Proof.
  pose proof inv_bev_close.
  unfold ubev_write_cb. pres_with inv_leaf.
Qed.

Lemma inv_event_cb (events : Z) : preserves I (ubev_event_cb events).
Proof.
  pose proof inv_bev_close.
  unfold ubev_event_cb, event_eof_reading. pres_with inv_leaf.
Qed.

Lemma inv_step (e : event) : preserves I (step oracle e).
Proof.
  intros w Hw. unfold step. destruct (deliverable e w); [| exact Hw].
  revert w Hw. fold (preserves I (handler oracle e)).
  pose proof inv_utp_on_error. pose proof inv_utp_on_read.
  pose proof inv_utp_on_state_change. pose proof inv_read_cb.
  pose proof inv_write_cb. pose proof inv_event_cb.
  destruct e; cbn [handler]; pres_with inv_leaf.
Qed.

Lemma inv_run (es : list event) : preserves I (run oracle es).
Proof.
  induction es as [| e es IH]; cbn [run].
  - apply preserves_ret.
  - apply preserves_bind; [apply inv_step | intros _; exact IH].
Qed.

End Loop_invariant.

(** ** [utp_read_shutdown] is never cleared *)

Ltac flag_leaf :=
  unfold preserves, read_suspended; intros; fields;
  repeat match goal with
         | H : Some _ = Some _ |- _ => injection H as H; subst
         | H : None = Some _ |- _ => discriminate H
         end;
  fields; eauto.

Lemma ubev_utp_close_flag : preserves read_suspended ubev_utp_close.
Proof. unfold ubev_utp_close. pres_with flag_leaf. Qed.

Lemma ubev_cleanup_flag : preserves read_suspended ubev_cleanup.
Proof. unfold ubev_cleanup. pres_with flag_leaf. Qed.

(** C8. Along every sequence of events delivered to a bridge, once
    [utp_read_shutdown] is true it is true in every later state in which the
    bridge still exists. *)
Theorem read_shutdown_monotonic (oracle : nat -> list byte -> Z) :
  forall (es : list event) (w : world),
    read_suspended w -> read_suspended (final (run oracle es w)).
Proof.
  intros es.
  apply (inv_run oracle read_suspended);
    first [ exact ubev_utp_close_flag | exact ubev_cleanup_flag | flag_leaf ].
Qed.

Lemma read_shutdown_monotonic_witness :
  read_suspended
    (final (run accept_all
              [fd_read [x02]; read_cb; on_read [x03]; fd_written; write_cb;
               event_cb (Z.lor BEV_EVENT_EOF BEV_EVENT_WRITING)]
              suspended_bridge)).
Proof.
  apply (read_shutdown_monotonic accept_all).
  intros u E. injection E as <-. reflexivity.
Defined.

(** ** The chunks given to [utp_write] *)

Lemma chunk_length (l : list byte) : (length (chunk l) <= 1500)%nat.
Proof.
  unfold chunk, evbuffer_pullup, evbuffer_get_length.
  rewrite length_firstn. lia.
Qed.

Lemma added_refl (P : call -> Prop) (w : world) : added P (calls w) w.
Proof. exists []; split; [reflexivity | constructor]. Qed.

Lemma added_log (P : call -> Prop) (base : list call) (c : call) (w : world) :
  P c -> added P base w -> added P base (log c w).
Proof.
  intros Hc [new [E F]]. exists (c :: new); split; [| constructor; assumption].
  cbn. rewrite E. reflexivity.
Qed.

Lemma added_same (P : call -> Prop) (base : list call) (w w' : world) :
  calls w' = calls w -> added P base w -> added P base w'.
Proof. intros Hc [new [E F]]. exists new; split; [congruence | assumption]. Qed.

Ltac chunk_leaf :=
  unfold preserves; intros;
  first [ apply added_log; [exact I | assumption]
        | eapply added_same; [| eassumption]; reflexivity ].

Lemma ubev_utp_close_chunks (base : list call) :
  preserves (added chunk_ok base) ubev_utp_close.
Proof.
  unfold ubev_utp_close. pres_with chunk_leaf.
Qed.

Lemma ubev_cleanup_chunks (base : list call) :
  preserves (added chunk_ok base) ubev_cleanup.
Proof.
  unfold ubev_cleanup. pres_with chunk_leaf.
Qed.

Lemma flush_chunks (oracle : nat -> list byte -> Z) (w : world) :
  added chunk_ok (calls w) (final (utp_bufferevent_flush oracle w)).
Proof.
  apply (inv_flush oracle (added chunk_ok (calls w)));
    try first [ apply ubev_utp_close_chunks | apply ubev_cleanup_chunks ];
    try (intros; eapply added_same; [| eassumption]; reflexivity).
  - intros c w0 Hc _ H. apply added_log; [| exact H].
    destruct c; try exact I. discriminate Hc.
  - intros s l w0 [new [E F]].
    exists (utp_write s (chunk l) (oracle (writes w0) (chunk l)) :: new).
    split; [cbn; rewrite E; reflexivity |].
    constructor; [apply chunk_length | exact F].
  - apply added_refl.
Qed.

Ltac submits_leaf :=
  unfold preserves, submits_are; intros; fields; cbn [submits]; assumption.

Ltac drained_leaf :=
  unfold preserves, input_drained, input_len; intros; fields;
  repeat match goal with H : heap ?w = _ |- _ => rewrite H in * end;
  auto.

Lemma flush_tail_submits (L : list (list byte * Z)) :
  preserves (submits_are L) flush_tail.
Proof.
  unfold flush_tail, ubev_utp_close, ubev_bev_close, ubev_cleanup.
  pres_with submits_leaf.
Qed.

Lemma flush_tail_drained : preserves input_drained flush_tail.
Proof.
  unfold flush_tail, ubev_utp_close, ubev_bev_close, ubev_cleanup.
  pres_with drained_leaf.
Qed.

Lemma flush_empty (oracle : nat -> list byte -> Z) :
  forall (w : world) (u : utp_bufferevent) (b : bufferevent),
    heap w = Some u -> bev u = Some b -> input b = [] ->
    utp_bufferevent_flush oracle w = flush_tail w.
Proof.
  intros [h d cs n] [ut rs ob pe] [e i o] Hh Hb Hi. fields. subst h ob i.
  reflexivity.
Qed.

(** One turn of the loop when [utp_write] takes all it is given. *)
Lemma flush_accept_turn (oracle : nat -> list byte -> Z) :
  (forall n buf, oracle n buf = Z.of_nat (length buf)) ->
  forall (w : world) (u : utp_bufferevent) (s : utp_socket) (b : bufferevent),
    heap w = Some u -> utp u = Some s -> bev u = Some b -> input b <> [] ->
    forall k, k = Nat.min 1500 (length (input b)) ->
    utp_bufferevent_flush oracle w =
      utp_bufferevent_flush oracle
        (set_heap (Some (set_bev (Some (set_input (skipn k (input b)) b)) u))
                  (wrote s (firstn k (input b)) (Z.of_nat k) w)).
Proof.
  intros Hall w u s b Hh Hu Hb Hi k Hk.
  rewrite (flush_first_turn oracle w u s b Hh Hu Hb Hi). cbv zeta.
  assert (Ec : chunk (input b) = firstn k (input b)).
  { unfold chunk, evbuffer_pullup, evbuffer_get_length. f_equal. lia. }
  assert (Hpos : (0 < length (input b))%nat)
    by (destruct (input b); [congruence | cbn [length]; lia]).
  assert (Er : oracle (writes w) (chunk (input b)) = Z.of_nat k).
  { rewrite Hall, Ec, length_firstn. lia. }
  rewrite Er, Ec.
  destruct (Z.ltb_spec (Z.of_nat k) 0); [lia |].
  destruct (Z.eqb_spec (Z.of_nat k) 0); [lia |].
  unfold evbuffer_drain. rewrite Nat2Z.id. reflexivity.
Qed.

Lemma flush_accept_turn_open (oracle : nat -> list byte -> Z) :
  (forall n buf, oracle n buf = Z.of_nat (length buf)) ->
  forall s rs e i o pe d cs n k,
    i <> [] -> k = Nat.min 1500 (length i) ->
    utp_bufferevent_flush oracle
      (mk_world (Some (mk_ubev (Some s) rs (Some (mk_bev e i o)) pe)) d cs n) =
    utp_bufferevent_flush oracle
      (mk_world (Some (mk_ubev (Some s) rs (Some (mk_bev e (skipn k i) o)) pe)) d
                (utp_write s (firstn k i) (Z.of_nat k) :: cs) (S n)).
Proof.
  intros Hall s rs e i o pe d cs n k Hi Hk.
  exact (flush_accept_turn oracle Hall
           (mk_world (Some (mk_ubev (Some s) rs (Some (mk_bev e i o)) pe)) d cs n)
           (mk_ubev (Some s) rs (Some (mk_bev e i o)) pe) s (mk_bev e i o)
           eq_refl eq_refl eq_refl Hi k Hk).
Qed.

(** C7. Every chunk [utp_bufferevent_flush] gives to [utp_write] has at most
    1500 bytes.  When the input buffer holds 4000 bytes and [utp_write]
    takes all it is given, flush calls it three times, with the first 1500
    bytes, the next 1500 and the last 1000, and the input buffer is empty
    afterwards. *)
Theorem flush_chunks_of_1500 (oracle : nat -> list byte -> Z) :
  (forall w, added chunk_ok (calls w) (final (utp_bufferevent_flush oracle w)))
  /\ forall (w : world) (u : utp_bufferevent) (s : utp_socket) (b : bufferevent),
       heap w = Some u -> utp u = Some s -> bev u = Some b ->
       length (input b) = 4000%nat ->
       (forall n buf, oracle n buf = Z.of_nat (length buf)) ->
       submits (calls (final (utp_bufferevent_flush oracle w))) =
         submits (calls w) ++
           [ (firstn 1500 (input b), 1500);
             (firstn 1500 (skipn 1500 (input b)), 1500);
             (skipn 3000 (input b), 1000) ]
       /\ length (firstn 1500 (input b)) = 1500%nat
       /\ length (firstn 1500 (skipn 1500 (input b))) = 1500%nat
       /\ length (skipn 3000 (input b)) = 1000%nat
       /\ input_len (final (utp_bufferevent_flush oracle w)) = O.
Proof.
  split; [apply flush_chunks |].
  intros [h d cs n] [ut rs ob pe] s [e i o] Hh Hu Hb Hlen Hall.
  fields. subst h ut ob.
  assert (L1 : length (skipn 1500 i) = 2500%nat) by (rewrite length_skipn; lia).
  assert (L2 : length (skipn 1500 (skipn 1500 i)) = 1000%nat)
    by (rewrite length_skipn; lia).
  assert (L3 : length (skipn 1000 (skipn 1500 (skipn 1500 i))) = O)
    by (rewrite length_skipn; lia).
  assert (E3 : skipn 1500 (skipn 1500 i) = skipn 3000 i)
    by (rewrite skipn_skipn; f_equal).
  assert (E4 : firstn 1000 (skipn 1500 (skipn 1500 i)) = skipn 1500 (skipn 1500 i))
    by (apply firstn_all2; rewrite L2; apply le_n).
  rewrite (flush_accept_turn_open oracle Hall) with (k := 1500%nat);
    [| intros E; rewrite E in Hlen; discriminate Hlen | lia].
  rewrite (flush_accept_turn_open oracle Hall) with (k := 1500%nat);
    [| intros E; rewrite E in L1; discriminate L1 | lia].
  rewrite (flush_accept_turn_open oracle Hall) with (k := 1000%nat);
    [| intros E; rewrite E in L2; discriminate L2 | lia].
  apply length_zero_iff_nil in L3.
  match goal with
  | |- context [utp_bufferevent_flush oracle ?w0] => set (w3 := w0)
  end.
  rewrite (flush_empty oracle w3 _ _ eq_refl eq_refl L3).
  rewrite (flush_tail_submits (submits (calls w3)) w3 eq_refl).
  rewrite (flush_tail_drained w3)
    by (unfold input_drained, w3; fields; rewrite L3; reflexivity).
  unfold w3; fields. cbn [submits].
  rewrite E4, E3, <- !app_assoc. cbn [app].
  repeat split; try reflexivity.
  - rewrite length_firstn; lia.
  - rewrite length_firstn; lia.
  - rewrite <- E3. exact L2.
Qed.

Lemma flush_chunks_of_1500_witness :
  submits (calls (final (utp_bufferevent_flush accept_all
                           (open_bridge (repeat x00 4000) [])))) =
    [ (firstn 1500 (repeat x00 4000), 1500);
      (firstn 1500 (skipn 1500 (repeat x00 4000)), 1500);
      (skipn 3000 (repeat x00 4000), 1000) ]
  /\ input_len (final (utp_bufferevent_flush accept_all
                         (open_bridge (repeat x00 4000) []))) = O.
Proof.
  destruct (proj2 (flush_chunks_of_1500 accept_all)
              (open_bridge (repeat x00 4000) [])
              (mk_ubev (Some 7%nat) false
                 (Some (mk_bev rd_wr (repeat x00 4000) [])) None)
              7%nat (mk_bev rd_wr (repeat x00 4000) [])
              eq_refl eq_refl eq_refl (repeat_length x00 4000)
              (fun _ _ => eq_refl))
    as [H1 [_ [_ [_ H2]]]].
  split; [exact H1 | exact H2].
Defined.

(** ** What becomes of the bytes of the input buffer *)

Ltac accounted_leaf :=
  unfold preserves, accounted, remaining_input; intros; fields;
  repeat match goal with H : heap ?w = _ |- _ => rewrite H in * end;
  cbn [accepted]; auto.

Lemma ubev_utp_close_accounted (L : list byte) :
  preserves (accounted L) ubev_utp_close.
Proof. unfold ubev_utp_close. pres_with accounted_leaf. Qed.

Lemma ubev_cleanup_accounted (L : list byte) :
  preserves (accounted L) ubev_cleanup.
Proof.
  intros [[[ut rs [b |] pe] |] d cs n] H; try exact H.
  - unfold ubev_cleanup. exec. rewrite orb_true_r. exact H.
  - unfold ubev_cleanup. exec. destruct ut; exact H.
Qed.

Lemma ubev_bev_close_accounted (L : list byte) :
  preserves (accounted L) ubev_bev_close.
Proof.
  intros [[[ut rs [[e i o] |] pe] |] d cs n] H; try exact H.
  unfold ubev_bev_close. exec.
  destruct (e =? 0); [| exact H]. fields.
  destruct i as [| x i]; [| exact H].
  cbn [is_empty evbuffer_get_length length Z.of_nat Z.eqb].
  destruct (is_empty o); exact H.
Qed.

Lemma flush_tail_accounted (L : list byte) : preserves (accounted L) flush_tail.
Proof.
  pose proof (ubev_utp_close_accounted L).
  pose proof (ubev_cleanup_accounted L).
  pose proof (ubev_bev_close_accounted L).
  unfold flush_tail. pres_with accounted_leaf.
Qed.

Lemma flush_loop_accounted (oracle : nat -> list byte -> Z) (L : list byte) :
  (forall n buf, 0 <= oracle n buf <= Z.of_nat (length buf)) ->
  forall fuel, preserves (accounted L) (flush_loop oracle fuel).
Proof.
  intros Hor. pose proof (flush_tail_accounted L) as Htail.
  induction fuel as [| fuel IH]; intros w H.
  - destruct w as [[[ut rs [[e i o] |] pe] |] d cs n]; try exact H.
    cbn [flush_loop]. exec.
    destruct (is_empty i); [apply Htail |]; exact H.
  - destruct w as [[[ut rs [[e i o] |] pe] |] d cs n]; try exact H.
    cbn [flush_loop]. exec.
    destruct (is_empty i) eqn:Hi; [apply Htail; exact H |].
    destruct ut as [s |]; [| exact H]. exec. fold (chunk i).
    specialize (Hor n (chunk i)).
    set (r := oracle n (chunk i)) in *.
    destruct (Z.ltb_spec r 0); [lia |].
    destruct (Z.eqb_spec r 0) as [Hz | Hz].
    + apply Htail. unfold accounted in *. fields. cbn [accepted].
      rewrite Hz. cbn [Z.to_nat firstn]. rewrite app_nil_r. exact H.
    + apply IH. unfold accounted, remaining_input in *. fields. cbn [accepted].
      rewrite <- H, <- app_assoc. f_equal.
      unfold evbuffer_drain.
      rewrite <- (firstn_skipn (Z.to_nat r) i) at 3. f_equal.
      unfold chunk, evbuffer_pullup in *. rewrite firstn_firstn. f_equal.
      rewrite length_firstn in Hor. unfold evbuffer_get_length in *. lia.
Qed.

(** C2, as the code has it.  When no call of [utp_write] fails, and
    [utp_write] never claims more bytes than it was given, the bytes taken by
    [utp_write] followed by the bytes in the input buffer are the same
    sequence after [utp_bufferevent_flush] as before it: of the bytes that
    were in the buffer, a prefix has been taken and the rest is still
    there, in order. *)
Theorem flush_conserves_bytes (oracle : nat -> list byte -> Z) :
  (forall n buf, 0 <= oracle n buf <= Z.of_nat (length buf)) ->
  forall w : world,
    accepted (calls (final (utp_bufferevent_flush oracle w)))
      ++ remaining_input (final (utp_bufferevent_flush oracle w))
    = accepted (calls w) ++ remaining_input w.
Proof.
  intros Hor w.
  change (accounted (accepted (calls w) ++ remaining_input w)
            (final (utp_bufferevent_flush oracle w))).
  unfold utp_bufferevent_flush.
  apply preserves_bind; [apply preserves_the_bev | | reflexivity].
  intros b. apply flush_loop_accounted, Hor.
Qed.

Lemma accept_two_bounds :
  forall n buf, 0 <= accept_two n buf <= Z.of_nat (length buf).
Proof. intros n buf. unfold accept_two. lia. Qed.

Lemma flush_conserves_bytes_witness :
  accepted (calls (final (utp_bufferevent_flush accept_two
                            (open_bridge [x01; x02; x03] []))))
    ++ remaining_input (final (utp_bufferevent_flush accept_two
                                 (open_bridge [x01; x02; x03] [])))
  = [x01; x02; x03].
Proof.
  exact (flush_conserves_bytes accept_two accept_two_bounds
           (open_bridge [x01; x02; x03] [])).
Defined.

(** C2 fails when [utp_write] fails: of 1501 bytes in the input buffer the
    first 1500 are given to [utp_write], which refuses them, and
    [ubev_bev_graceful_close] clears the buffer; the last byte has not been
    given to Transport A and is not in the buffer any more. *)
Lemma flush_failure_discards_input :
  ~ flush_keeps_every_byte always_fails
      (open_bridge (repeat x00 1500 ++ [xff]) []).
Proof.
  intros H.
  specialize (H 1500%nat xff eq_refl).
  assert (B : existsb (Byte.eqb xff)
                (offered (calls_since
                            (open_bridge (repeat x00 1500 ++ [xff]) [])
                            (final (utp_bufferevent_flush always_fails
                                      (open_bridge (repeat x00 1500 ++ [xff]) []))))
                 ++ remaining_input
                      (final (utp_bufferevent_flush always_fails
                                (open_bridge (repeat x00 1500 ++ [xff]) []))))
              = false)
    by (vm_compute; reflexivity).
  assert (T : existsb (Byte.eqb xff)
                (offered (calls_since
                            (open_bridge (repeat x00 1500 ++ [xff]) [])
                            (final (utp_bufferevent_flush always_fails
                                      (open_bridge (repeat x00 1500 ++ [xff]) []))))
                 ++ remaining_input
                      (final (utp_bufferevent_flush always_fails
                                (open_bridge (repeat x00 1500 ++ [xff]) []))))
              = true).
  { apply existsb_exists. exists xff. split; [| reflexivity].
    apply in_or_app. exact H. }
  rewrite B in T. discriminate T.
Qed.

(** ** The bridge is freed once and not used afterwards *)

Lemma keeps_safe {A} (m : M A) : keeps m -> safe m.
Proof.
  intros H w Hw. specialize (H w Hw).
  destruct (m w); cbn; [discriminate | congruence].
Qed.

Lemma keeps_bind {A B} (m : M A) (k : A -> M B) :
  keeps m -> (forall a, keeps (k a)) -> keeps (bind m k).
Proof.
  intros Hm Hk w Hw. unfold bind. specialize (Hm w Hw).
  destruct (m w) as [a w' | f w']; [apply Hk |]; assumption.
Qed.

Lemma safe_bind {A B} (m : M A) (k : A -> M B) :
  keeps m -> (forall a, safe (k a)) -> safe (bind m k).
Proof.
  intros Hm Hk w Hw. unfold bind. specialize (Hm w Hw).
  destruct (m w) as [a w' | f w']; [apply Hk; assumption |].
  cbn. congruence.
Qed.

Lemma keeps_ret {A} (a : A) : keeps (ret a).
Proof. intros w Hw; exact Hw. Qed.

Lemma keeps_crash {A} (f : fault) : f <> use_after_free -> keeps (@crash A f).
Proof. intros Hf w Hw; exact Hf. Qed.

Lemma keeps_c_assert (line : nat) (b : bool) : keeps (c_assert line b).
Proof. intros w Hw; destruct b; cbn; [exact Hw | discriminate]. Qed.

Lemma keeps_get_u : keeps get_u.
Proof.
  intros w Hw; unfold get_u, live in *.
  destruct (heap w) eqn:E; cbn; congruence.
Qed.

Lemma keeps_modify_u (f : utp_bufferevent -> utp_bufferevent) : keeps (modify_u f).
Proof.
  intros w Hw; unfold modify_u, live in *.
  destruct (heap w) eqn:E; cbn; congruence.
Qed.

Lemma keeps_the_bev : keeps the_bev.
Proof.
  intros w Hw; unfold the_bev, bind, get_u, live in *.
  destruct (heap w) as [u |] eqn:Hu; [| congruence].
  destruct (bev u); cbn; congruence.
Qed.

Lemma keeps_modify_bev (f : bufferevent -> bufferevent) : keeps (modify_bev f).
Proof.
  unfold modify_bev. apply keeps_bind; [apply keeps_the_bev |].
  intros b; apply keeps_modify_u.
Qed.

Lemma keeps_do_call (c : call) : keeps (do_call c).
Proof. intros w Hw; exact Hw. Qed.

Lemma keeps_on_utp (s : option utp_socket) (c : utp_socket -> call) :
  keeps (on_utp s c).
Proof. destruct s; [apply keeps_do_call | apply keeps_crash; discriminate]. Qed.

Lemma keeps_deref (p : bool) : keeps (deref p).
Proof. destruct p; [apply keeps_get_u | apply keeps_crash; discriminate]. Qed.

Lemma keeps_do_utp_write (oracle : nat -> list byte -> Z)
    (s : option utp_socket) (buf : list byte) :
  keeps (do_utp_write oracle s buf).
Proof.
  destruct s; [| apply keeps_crash; discriminate]. intros w Hw; exact Hw.
Qed.

Lemma safe_then_ret {A B} (m : M A) (b : B) : safe m -> safe (m ;; ret b).
Proof.
  intros H w Hw. specialize (H w Hw). unfold bind.
  destruct (m w); [discriminate | exact H].
Qed.

Ltac safe_go :=
  repeat first
    [ assumption
    | match goal with
      | H : forall _, safe _ |- safe _ => apply H
      | H : forall _, keeps _ |- keeps _ => apply H
      end
    | apply keeps_ret
    | apply keeps_crash; discriminate
    | apply keeps_c_assert
    | apply keeps_get_u
    | apply keeps_the_bev
    | apply keeps_deref
    | apply keeps_modify_u
    | apply keeps_modify_bev
    | apply keeps_do_call
    | apply keeps_on_utp
    | apply keeps_do_utp_write
    | match goal with
      | |- _ (if ?c then _ else _) => destruct c
      | |- _ (match ?o with Some _ => _ | None => _ end) => destruct o
      | |- _ (bufferevent_disable _) => unfold bufferevent_disable
      | |- _ (bufferevent_enable _) => unfold bufferevent_enable
      | |- _ (bufferevent_write _) => unfold bufferevent_write
      | |- keeps (fun w => Done _ _) => intros ? ?; assumption
      | |- safe (fun w => Done _ _) => intros ? ?; discriminate
      end
    | apply keeps_bind; [| intro]
    | apply safe_then_ret
    | apply safe_bind; [| intro]
    | apply keeps_safe ].

Lemma keeps_utp_close : keeps ubev_utp_close.
Proof. unfold ubev_utp_close. safe_go. Qed.

Lemma keeps_bev_close : keeps ubev_bev_close.
Proof. unfold ubev_bev_close. safe_go. Qed.

Lemma safe_cleanup : safe ubev_cleanup.
Proof. unfold ubev_cleanup. safe_go. Qed.

Lemma safe_graceful_close : safe ubev_bev_graceful_close.
Proof.
  pose proof keeps_bev_close. pose proof safe_cleanup.
  unfold ubev_bev_graceful_close. safe_go.
Qed.

Lemma safe_flush_tail : safe flush_tail.
Proof.
  pose proof keeps_utp_close. pose proof keeps_bev_close. pose proof safe_cleanup.
  unfold flush_tail. safe_go.
Qed.

Lemma safe_flush_loop (oracle : nat -> list byte -> Z) (fuel : nat) :
  safe (flush_loop oracle fuel).
Proof.
  pose proof keeps_utp_close. pose proof safe_graceful_close.
  pose proof safe_flush_tail.
  induction fuel as [| fuel IH]; cbn [flush_loop]; cbv zeta; safe_go.
Qed.

Lemma safe_flush (oracle : nat -> list byte -> Z) :
  safe (utp_bufferevent_flush oracle).
Proof.
  pose proof (safe_flush_loop oracle).
  unfold utp_bufferevent_flush. safe_go.
Qed.

Lemma safe_stop_writing (oracle : nat -> list byte -> Z) :
  safe (ubev_bev_stop_writing oracle).
Proof.
  pose proof (safe_flush oracle).
  unfold ubev_bev_stop_writing. safe_go.
Qed.

Lemma safe_read_cb (oracle : nat -> list byte -> Z) : safe (ubev_read_cb oracle).
Proof.
  pose proof (safe_flush oracle).
  unfold ubev_read_cb. safe_go.
Qed.

Lemma safe_write_cb : safe ubev_write_cb.
Proof.
  pose proof keeps_bev_close. pose proof safe_cleanup.
  unfold ubev_write_cb. safe_go.
Qed.

Lemma safe_event_cb (events : Z) : safe (ubev_event_cb events).
Proof.
  pose proof keeps_utp_close. pose proof keeps_bev_close. pose proof safe_cleanup.
  unfold ubev_event_cb, event_eof_reading. safe_go.
Qed.

Lemma safe_through_userdata {A} (k : bool -> M A) (w : world) :
  no_dangling_userdata w ->
  safe (k true) ->
  (forall w', fault_of (k false w') <> Some use_after_free) ->
  fault_of ((p <- utp_get_userdata ;; k p) w) <> Some use_after_free.
Proof.
  intros Hw Ht Hf.
  unfold bind, utp_get_userdata.
  destruct (userdata w) eqn:Hd; [apply Ht, Hw, Hd | apply Hf].
Qed.

Lemma fault_of_then_ret {A B} (m : M A) (b : B) (w : world) :
  fault_of ((m ;; ret b) w) = fault_of (m w).
Proof. unfold bind. destruct (m w); reflexivity. Qed.

Lemma safe_utp_on_error (w : world) :
  no_dangling_userdata w -> fault_of (utp_on_error w) <> Some use_after_free.
Proof.
  intros Hw. unfold utp_on_error.
  pose proof keeps_utp_close. pose proof safe_graceful_close.
  apply safe_through_userdata; [exact Hw | safe_go | discriminate].
Qed.

Lemma safe_utp_on_read (buf : list byte) (w : world) :
  no_dangling_userdata w -> fault_of (utp_on_read buf w) <> Some use_after_free.
Proof.
  intros Hw. unfold utp_on_read.
  apply safe_through_userdata; [exact Hw | safe_go | discriminate].
Qed.

Lemma safe_utp_on_state_change (oracle : nat -> list byte -> Z)
    (st : utp_state) (w : world) :
  no_dangling_userdata w ->
  fault_of (utp_on_state_change oracle st w) <> Some use_after_free.
Proof.
  intros Hw. unfold utp_on_state_change.
  pose proof (safe_flush oracle). pose proof (safe_stop_writing oracle).
  apply safe_through_userdata; [exact Hw | | ].
  - unfold state_writable. destruct st; safe_go.
  - intros w'. destruct st; discriminate.
Qed.

Lemma safe_step (oracle : nat -> list byte -> Z) (e : event) (w : world) :
  no_dangling_userdata w ->
  fault_of (step oracle e w) <> Some use_after_free.
Proof.
  intros Hw. unfold step.
  destruct (deliverable e w) eqn:Hdel; [| discriminate].
  assert (Hlive : bev_alive w = true -> live w).
  { unfold bev_alive, live. destruct (heap w); discriminate. }
  destruct e; cbn [deliverable handler] in *;
    try rewrite fault_of_then_ret.
  - apply safe_utp_on_error, Hw.
  - apply safe_utp_on_read, Hw.
  - apply safe_utp_on_state_change, Hw.
  - apply safe_read_cb, Hlive, Hdel.
  - apply safe_write_cb, Hlive, Hdel.
  - apply safe_event_cb, Hlive, Hdel.
  - revert w Hw Hdel Hlive.
    assert (S : safe (b <- the_bev ;;
                      if is_enabled EV_READ b
                      then modify_bev (fun b0 => set_input (input b0 ++ data) b0)
                      else ret tt)) by safe_go.
    intros w _ Hdel Hlive. apply S, Hlive, Hdel.
  - apply (keeps_safe _ (keeps_modify_bev _)), Hlive, Hdel.
  - apply (keeps_safe _ (keeps_modify_bev _)), Hlive, Hdel.
  - pose proof safe_event_cb.
    assert (S : safe (handler oracle (read_failed what)))
      by (cbn [handler]; safe_go).
    apply S, Hlive, Hdel.
  - pose proof safe_event_cb.
    assert (S : safe (handler oracle (write_failed what)))
      by (cbn [handler]; safe_go).
    apply S, Hlive, Hdel.
Qed.

Lemma bridge_ok_no_dangling (w : world) : bridge_ok w -> no_dangling_userdata w.
Proof.
  intros [H _] Hd. destruct (H Hd) as [u [s [E _]]]. unfold live. congruence.
Qed.

Ltac ok_leaf :=
  unfold preserves, bridge_ok; intros;
  repeat match goal with
         | H : _ /\ _ |- _ => destruct H
         | H : heap ?w = Some _ |- _ => rewrite H in *
         end;
  fields; split;
  [ intros Hd;
    match goal with
    | H : _ -> exists _ _, _ |- _ =>
        destruct (H Hd) as [? [? [E ?]]]; injection E as <-; eauto
    end
  | auto ].

Lemma ubev_utp_close_ok : preserves bridge_ok ubev_utp_close.
Proof.
  intros [[[ut rs ob pe] |] d cs n] [H1 H2]; [| split; assumption].
  unfold ubev_utp_close. exec.
  destruct ut as [s |]; [| split; assumption].
  exec. destruct pe; exec; (split; [discriminate | exact H2]).
Qed.

Lemma ubev_cleanup_ok : preserves bridge_ok ubev_cleanup.
Proof.
  intros [[[ut rs ob pe] |] d cs n] [H1 H2]; [| split; assumption].
  unfold ubev_cleanup. exec.
  destruct ut as [s |]; [split; assumption |].
  destruct ob; [split; assumption |]. exec.
  split.
  - intros Hd. destruct (H1 Hd) as [u [s [E Hu]]].
    injection E as <-. discriminate Hu.
  - fields. unfold free_count in *. cbn [filter is_free length].
    rewrite H2. reflexivity.
Qed.

Lemma run_ok (oracle : nat -> list byte -> Z) (es : list event) :
  preserves bridge_ok (run oracle es).
Proof.
  apply inv_run;
    first [ exact ubev_utp_close_ok | exact ubev_cleanup_ok | idtac ].
  - intros c w Hw Hf [H1 H2]. split; [exact H1 |].
    cbn. unfold free_count in *. cbn. rewrite Hf. exact H2.
  - intros s l w [H1 H2]. split; [exact H1 | exact H2].
  - ok_leaf.
  - ok_leaf.
  - ok_leaf.
Qed.

Lemma step_ok (oracle : nat -> list byte -> Z) (e : event) :
  preserves bridge_ok (step oracle e).
Proof.
  intros w Hw. pose proof (run_ok oracle [e] w Hw) as H.
  cbn [run] in H. unfold bind, ret in H.
  destruct (step oracle e w); exact H.
Qed.

Lemma run_safe (oracle : nat -> list byte -> Z) :
  forall (es : list event) (w : world),
    bridge_ok w -> fault_of (run oracle es w) <> Some use_after_free.
Proof.
  induction es as [| e es IH]; intros w Hw; [discriminate |].
  cbn [run]. unfold bind.
  pose proof (safe_step oracle e w (bridge_ok_no_dangling w Hw)) as Hs.
  pose proof (step_ok oracle e w Hw) as Hk.
  destruct (step oracle e w) as [[] w' | f w']; [apply IH, Hk | exact Hs].
Qed.

(** C6. [ubev_cleanup] frees the bridge exactly when both handles are
    absent and does nothing when one of them is present; along every
    sequence of events the bridge is never used after it was freed and
    [free] is never called a second time; a constructor that fails, or
    [utp_connect_tcp] when the connection fails, has freed its bridge
    once. *)
Theorem bridge_freed_once_when_both_absent (oracle : nat -> list byte -> Z) :
  (forall (w : world) (u : utp_bufferevent), heap w = Some u ->
     ubev_cleanup w =
       Done tt (if present (utp u) || present (bev u) then w
                else log free_bridge (set_heap None w))
     /\ (heap (final (ubev_cleanup w)) = None <-> utp u = None /\ bev u = None))
  /\ (forall (es : list event) (w : world), bridge_ok w ->
        fault_of (run oracle es w) <> Some use_after_free
        /\ bridge_ok (final (run oracle es w))
        /\ (free_count (calls (final (run oracle es w))) <= 1)%nat)
  /\ (forall (s : utp_socket) (new_bev : option bufferevent) (n : nat),
        bridge_ok (final (utp_bufferevent_new s new_bev (mk_world None false [] n))))
  /\ (forall (s : utp_socket) (new_bev : option bufferevent) (c : Z) (n : nat),
        fault_of (utp_connect_tcp s new_bev c (mk_world None false [] n))
          <> Some use_after_free
        /\ bridge_ok (final (utp_connect_tcp s new_bev c
                               (mk_world None false [] n)))).
Proof.
  split; [| split; [| split]].
  - intros [h d cs n] [ut rs ob pe] Hh. fields. subst h.
    unfold ubev_cleanup. exec.
    destruct ut, ob; cbn; (split; [reflexivity |]);
      split; try discriminate; try (intros [? ?]; discriminate); auto.
  - intros es w Hw.
    pose proof (run_ok oracle es w Hw) as Hok.
    split; [apply run_safe, Hw | split; [exact Hok |]].
    destruct Hok as [_ Hc]. rewrite Hc. destruct (present _); lia.
  - intros s [b |] n; cbn; (split; [| reflexivity]).
    + intros _. eexists _, s. split; reflexivity.
    + discriminate.
  - intros s [b |] c n; [destruct (c <? 0) eqn:Hc |].
    + unfold utp_connect_tcp, bind. cbn. rewrite Hc. cbn.
      split; [discriminate | split; [discriminate | reflexivity]].
    + unfold utp_connect_tcp, bind. cbn. rewrite Hc. cbn.
      split; [discriminate | split; [| reflexivity]].
      intros _. eexists _, s. split; reflexivity.
    + cbn. split; [discriminate | split; [discriminate | reflexivity]].
Qed.

Lemma bridge_ok_open (i o : list byte) : bridge_ok (open_bridge i o).
Proof.
  split; [| reflexivity].
  intros _. eexists _, _. split; reflexivity.
Qed.

Lemma bridge_freed_once_when_both_absent_witness :
  fault_of (run always_fails
              [on_error; on_read [x01]; on_state_change UTP_STATE_DESTROYING]
              (open_bridge [] [])) <> Some use_after_free
  /\ bridge_ok (final (run always_fails
                         [on_error; on_read [x01];
                          on_state_change UTP_STATE_DESTROYING]
                         (open_bridge [] [])))
  /\ (free_count (calls (final (run always_fails
                                  [on_error; on_read [x01];
                                   on_state_change UTP_STATE_DESTROYING]
                                  (open_bridge [] [])))) <= 1)%nat.
Proof.
  apply (proj1 (proj2 (bridge_freed_once_when_both_absent always_fails))).
  apply bridge_ok_open.
Defined.

(** An error of the uTP socket on an idle bridge closes both sides and
    frees the bridge. *)
Example on_error_frees_idle_bridge :
  run always_fails [on_error] (open_bridge [] []) =
    Done tt (mk_world None false
               [free_bridge; bufferevent_free; utp_close 7%nat;
                utp_set_userdata 7%nat false] 0).
Proof. reflexivity. Qed.

(** [open_bridge [] []] is the bridge [utp_bufferevent_new] makes around a
    new bufferevent, which libevent creates with writing enabled. *)
Example utp_bufferevent_new_opens :
  utp_bufferevent_new 7%nat (Some (mk_bev EV_WRITE [] []))
    (mk_world None false [] 0) =
  Done true (log (utp_set_userdata 7%nat true) (open_bridge [] [])).
Proof. reflexivity. Qed.

(** ** Where the code leaves the behaviour the specification describes *)

(** C1 does not hold of the code.  [ubev_event_cb] calls [ubev_bev_close] on
    a bufferevent that is not drained and disabled, and an assertion of
    [ubev_bev_close] fails (line 51 when a direction is enabled, else line
    52):
    - on an error, with Transport A present, the code goes on to
      [ubev_bev_close] exactly when the input buffer is not empty;
    - on the end of the stream while reading, with [utp_read_shutdown] set
      and the output buffer empty, it goes on to [ubev_bev_close] without
      looking at the input buffer or at the enabled directions. *)
Theorem event_cb_closes_undrained_bufferevent :
  forall (events : Z) (w : world) (u : utp_bufferevent) (s : utp_socket)
         (b : bufferevent),
    heap w = Some u -> utp u = Some s -> bev u = Some b -> input b <> [] ->
    (has_flag events BEV_EVENT_ERROR = true ->
       fault_of (ubev_event_cb events w) =
         Some (assert_failed (if enabled b =? 0 then 52 else 51)))
    /\ (has_flag events BEV_EVENT_ERROR = false ->
        has_flag events BEV_EVENT_EOF = true ->
        has_flag events BEV_EVENT_WRITING = false ->
        has_flag events BEV_EVENT_READING = true ->
        utp_read_shutdown u = true -> output b = [] ->
        fault_of (ubev_event_cb events w) =
          Some (assert_failed (if enabled b =? 0 then 52 else 51))).
Proof.
  intros events [h d cs n] [ut rs ob pe] s [e i o] Hh Hu Hb Hi.
  fields. subst h ut ob. split.
  - intros He. unfold ubev_event_cb. exec. rewrite He. exec.
    rewrite (is_empty_false i Hi).
    unfold ubev_utp_close, ubev_bev_close. exec.
    destruct pe; exec; destruct (e =? 0); exec;
      rewrite ?(is_empty_false i Hi); reflexivity.
  - intros He Hf Hw Hr Hs Ho. subst rs o.
    unfold ubev_event_cb, event_eof_reading. exec. rewrite He, Hf, Hw, Hr. exec.
    unfold ubev_utp_close, ubev_bev_close. exec.
    destruct pe; exec; change (is_empty (@nil byte)) with true; exec;
      destruct (e =? 0); exec; rewrite ?(is_empty_false i Hi); reflexivity.
Qed.

Lemma event_cb_closes_undrained_bufferevent_witness :
  fault_of (ubev_event_cb (Z.lor BEV_EVENT_READING BEV_EVENT_ERROR)
              (mk_world (Some (mk_ubev (Some 7%nat) false
                                 (Some (mk_bev EV_WRITE [x01] [])) None))
                        true [] 0)) =
    Some (assert_failed 51)
  /\ fault_of (ubev_event_cb (Z.lor BEV_EVENT_READING BEV_EVENT_EOF)
                 (mk_world (Some (mk_ubev (Some 7%nat) true
                                    (Some (mk_bev 0 [x01] [])) None))
                           true [] 0)) =
     Some (assert_failed 52).
Proof.
  split.
  - exact (proj1 (event_cb_closes_undrained_bufferevent
                    (Z.lor BEV_EVENT_READING BEV_EVENT_ERROR)
                    (mk_world (Some (mk_ubev (Some 7%nat) false
                                       (Some (mk_bev EV_WRITE [x01] [])) None))
                              true [] 0)
                    (mk_ubev (Some 7%nat) false
                       (Some (mk_bev EV_WRITE [x01] [])) None)
                    7%nat (mk_bev EV_WRITE [x01] [])
                    eq_refl eq_refl eq_refl ltac:(discriminate))
             eq_refl).
  - exact (proj2 (event_cb_closes_undrained_bufferevent
                    (Z.lor BEV_EVENT_READING BEV_EVENT_EOF)
                    (mk_world (Some (mk_ubev (Some 7%nat) true
                                       (Some (mk_bev 0 [x01] [])) None))
                              true [] 0)
                    (mk_ubev (Some 7%nat) true (Some (mk_bev 0 [x01] [])) None)
                    7%nat (mk_bev 0 [x01] [])
                    eq_refl eq_refl eq_refl ltac:(discriminate))
             eq_refl eq_refl eq_refl eq_refl eq_refl eq_refl).
Defined.

(** The two ways into the failing assertion, from a new bridge: a byte that
    [utp_write] does not take stays in the input buffer, then reading
    fails, or ends after the uTP socket has reported its own end of
    stream. *)
Example read_error_with_pending_input :
  run backpressure [fd_read [x01]; read_cb; read_failed io_error]
    (open_bridge [] []) =
    Crash (assert_failed 51)
      (mk_world (Some (mk_ubev None false (Some (mk_bev EV_WRITE [x01] [])) None))
                false
                [utp_close 7%nat; utp_set_userdata 7%nat false;
                 utp_write 7%nat [x01] 0] 1)
  /\ run backpressure
       [on_state_change UTP_STATE_EOF; fd_read [x01]; read_cb;
        read_failed io_eof]
       (open_bridge [] []) =
     Crash (assert_failed 52)
       (mk_world (Some (mk_ubev None true (Some (mk_bev 0 [x01] [])) None))
                 false
                 [utp_close 7%nat; utp_set_userdata 7%nat false;
                  utp_write 7%nat [x01] 0; shutdown_fd SHUT_WR] 1).
Proof. split; reflexivity. Qed.

(** C4 does not hold of the code.  After the end of stream of the uTP socket
    with bytes in the output buffer, [utp_read_shutdown] is set and the
    bufferevent is left as it is; when the buffer has drained,
    [ubev_write_cb] only calls [utp_read_drained]: the enabled directions
    are what they were, so the write side is still enabled, and [shutdown]
    has not been called on the descriptor. *)
Theorem write_cb_forgets_deferred_shutdown (oracle : nat -> list byte -> Z) :
  forall (w : world) (u : utp_bufferevent) (s : utp_socket) (b : bufferevent),
    heap w = Some u -> userdata w = true -> utp u = Some s -> bev u = Some b ->
    output b <> [] ->
    run oracle [on_state_change UTP_STATE_EOF] w =
      Done tt (set_heap (Some (set_utp_read_shutdown true u)) w)
    /\ run oracle [on_state_change UTP_STATE_EOF; fd_written; write_cb] w =
       Done tt
         (log (utp_read_drained s)
            (set_heap
               (Some (set_bev (Some (set_output [] b))
                        (set_utp_read_shutdown true u)))
               w)).
Proof.
  intros [h d cs n] [ut rs ob pe] s [e i o] Hh Hd Hu Hb Ho.
  fields. subst h d ut ob.
  assert (Hne : is_empty o = false) by (destruct o; [congruence | reflexivity]).
  split.
  - cbn [run]. unfold step. cbn [deliverable handler].
    unfold utp_on_state_change. exec. rewrite Hne. reflexivity.
  - cbn [run]. unfold step. cbn [deliverable handler].
    unfold utp_on_state_change. exec. rewrite Hne. exec.
    unfold bev_alive. fields. unfold ubev_write_cb. exec. reflexivity.
Qed.

Lemma write_cb_forgets_deferred_shutdown_witness :
  run backpressure [on_state_change UTP_STATE_EOF] (open_bridge [] [x01]) =
    Done tt
      (mk_world (Some (mk_ubev (Some 7%nat) true (Some (mk_bev rd_wr [] [x01])) None))
                true [] 0)
  /\ run backpressure [on_state_change UTP_STATE_EOF; fd_written; write_cb]
       (open_bridge [] [x01]) =
     Done tt
       (mk_world (Some (mk_ubev (Some 7%nat) true (Some (mk_bev rd_wr [] [])) None))
                 true [utp_read_drained 7%nat] 0).
Proof.
  exact (write_cb_forgets_deferred_shutdown backpressure
           (open_bridge [] [x01])
           (mk_ubev (Some 7%nat) false (Some (mk_bev rd_wr [] [x01])) None)
           7%nat (mk_bev rd_wr [] [x01])
           eq_refl eq_refl eq_refl eq_refl ltac:(discriminate)).
Defined.

(** With an empty output buffer the same event does stop the writing: it
    disables the write side and calls [shutdown]. *)
Example eof_with_empty_output_stops_writing :
  run backpressure [on_state_change UTP_STATE_EOF] (open_bridge [] []) =
    Done tt
      (mk_world (Some (mk_ubev (Some 7%nat) true (Some (mk_bev EV_READ [] [])) None))
                true [shutdown_fd SHUT_WR] 0).
Proof. reflexivity. Qed.

(** The other deferred teardown, after [ubev_bev_graceful_close] has left a
    byte in the output buffer, does not complete either: the write side
    was never disabled and [ubev_write_cb] runs into the assertion of line
    51. *)
Example write_cb_after_graceful_close :
  run backpressure [on_read [x01]; on_error; fd_written; write_cb]
    (open_bridge [] []) =
    Crash (assert_failed 51)
      (mk_world (Some (mk_ubev None false (Some (mk_bev EV_WRITE [] [])) None))
                false [utp_close 7%nat; utp_set_userdata 7%nat false] 0).
Proof. reflexivity. Qed.

(** With the uTP socket present [ubev_write_cb] does nothing but
    acknowledge, whatever [utp_read_shutdown] is. *)
Lemma write_cb_only_acknowledges :
  forall (w : world) (u : utp_bufferevent) (s : utp_socket) (b : bufferevent),
    heap w = Some u -> utp u = Some s -> bev u = Some b -> output b = [] ->
    ubev_write_cb w = Done tt (log (utp_read_drained s) w).
Proof.
  intros [h d cs n] [ut rs ob pe] s [e i o] Hh Hu Hb Ho. fields.
  subst h ut ob o. reflexivity.
Qed.

(** ** No call on an absent handle

    The branches of [ubev_event_cb] that can run after Transport A was
    closed test [u->utp]; the end-of-stream-while-reading branch does not.
    It does not have to, as long as libevent reports reading events only
    while reading is enabled: whenever the code closes Transport A it has
    disabled reading ([ubev_bev_graceful_close]) or closes the bufferevent
    as well, and [ubev_read_cb] asserts the same thing, [u->utp]. *)

(** Runs the code on a world given by its fields, one test at a time. *)
Ltac setters :=
  cbv [set_utp set_utp_read_shutdown set_bev set_other_bev set_enabled
       set_input set_output set_heap set_userdata log] in *.

Ltac split_tests :=
  repeat (exec; setters;
          match goal with
          | |- context [if ?c then _ else _] => destruct c eqn:?
          | |- context [match ?x with Some _ => _ | None => _ end] =>
              is_var x; destruct x
          end);
  exec; setters.

Lemma enabled_false (e ev : Z) : negb (Z.land e ev =? 0) = false <-> Z.land e ev = 0.
Proof. rewrite negb_false_iff. apply Z.eqb_eq. Qed.

Lemma enabled_true (e ev : Z) : negb (Z.land e ev =? 0) = true <-> Z.land e ev <> 0.
Proof. rewrite negb_true_iff. apply Z.eqb_neq. Qed.

Ltac bits :=
  unfold is_enabled, has_flag in *; fields;
  repeat match goal with
         | H : negb (Z.land _ _ =? 0) = false |- _ => apply enabled_false in H
         | H : negb (Z.land _ _ =? 0) = true |- _ => apply enabled_true in H
         | |- negb (Z.land _ _ =? 0) = false => apply enabled_false
         end;
  rewrite ?land_disable_same in *;
  try congruence; auto using land_disable_other.

Ltac handles_done :=
  unfold no_null_handle, handles_ok in *; fields;
  repeat match goal with
         | H : _ /\ _ |- _ => destruct H
         end;
  try reflexivity;
  repeat split; intros;
  repeat match goal with
         | H : Some _ = Some _ |- _ => injection H as H; subst
         | H : true = true -> _ |- _ => specialize (H eq_refl)
         | H : false = false -> _ |- _ => specialize (H eq_refl)
         | H : forall b, Some ?x = Some b -> _ |- _ => specialize (H x eq_refl)
         | H : ?d = true -> false = true |- _ =>
             is_var d; destruct d; [discriminate (H eq_refl) | clear H]
         end;
  try congruence; try discriminate; bits.

Lemma flush_tail_handles s rs b pe d cs n :
  no_null_handle (flush_tail (both_open s rs b pe d cs n)).
Proof.
  destruct b as [e i o].
  unfold both_open, flush_tail, ubev_utp_close, ubev_bev_close, ubev_cleanup.
  split_tests; handles_done.
Qed.

Lemma close_then_graceful_handles s rs b pe d cs n :
  no_null_handle
    ((ubev_utp_close ;; ubev_bev_graceful_close) (both_open s rs b pe d cs n)).
Proof.
  destruct b as [e i o].
  unfold both_open, ubev_bev_graceful_close, ubev_utp_close, ubev_bev_close,
    ubev_cleanup.
  split_tests; handles_done.
Qed.

Lemma flush_loop_handles (oracle : nat -> list byte -> Z) :
  forall fuel s rs b pe d cs n,
    no_null_handle (flush_loop oracle fuel (both_open s rs b pe d cs n)).
Proof.
  induction fuel as [| fuel IH]; intros s rs [e i o] pe d cs n.
  - unfold both_open. cbn [flush_loop]. exec.
    destruct (is_empty i); [| reflexivity].
    apply (flush_tail_handles s rs (mk_bev e i o)).
  - unfold both_open. cbn [flush_loop]. exec.
    destruct (is_empty i); [apply (flush_tail_handles s rs (mk_bev e i o)) |].
    exec. fold (chunk i).
    set (r := oracle n (chunk i)).
    destruct (r <? 0);
      [apply (close_then_graceful_handles s rs (mk_bev e i o)) |].
    destruct (r =? 0); [apply (flush_tail_handles s rs (mk_bev e i o)) |].
    apply (IH s rs (mk_bev e (evbuffer_drain r i) o)).
Qed.

Lemma flush_handles (oracle : nat -> list byte -> Z) s rs b pe d cs n :
  no_null_handle (utp_bufferevent_flush oracle (both_open s rs b pe d cs n)).
Proof.
  unfold utp_bufferevent_flush, both_open. exec.
  apply (flush_loop_handles oracle _ s rs b).
Qed.

Ltac use_flush :=
  match goal with
  | |- context [utp_bufferevent_flush ?o
                  (mk_world (Some (mk_ubev (Some ?s) ?rs (Some ?b) ?pe)) ?d ?cs ?n)] =>
      let F := fresh "F" in
      pose proof (flush_handles o s rs b pe d cs n) as F;
      unfold both_open in F;
      destruct (utp_bufferevent_flush o
                  (mk_world (Some (mk_ubev (Some s) rs (Some b) pe)) d cs n));
      exact F
  end.

Ltac open_world w :=
  destruct w as [[[[?s |] ?rs [[?e ?i ?o] |] ?pe] |] ?d ?cs ?n].

Lemma utp_on_error_handles (w : world) :
  handles_ok w -> no_null_handle (utp_on_error w).
Proof.
  intros H. open_world w;
    unfold utp_on_error, ubev_bev_graceful_close, ubev_utp_close, ubev_bev_close,
      ubev_cleanup;
    split_tests; handles_done.
Qed.

Lemma utp_on_read_handles (buf : list byte) (w : world) :
  handles_ok w -> no_null_handle (utp_on_read buf w).
Proof.
  intros H. open_world w; unfold utp_on_read; split_tests; handles_done.
Qed.

Lemma utp_on_state_change_handles (oracle : nat -> list byte -> Z)
    (st : utp_state) (w : world) :
  handles_ok w -> no_null_handle (utp_on_state_change oracle st w).
Proof.
  intros H. destruct st; open_world w;
    unfold utp_on_state_change, state_writable, ubev_bev_stop_writing;
    split_tests; first [use_flush | handles_done].
Qed.

Lemma read_cb_handles (oracle : nat -> list byte -> Z) (w : world) :
  handles_ok w -> no_null_handle (ubev_read_cb oracle w).
Proof.
  intros H. open_world w; unfold ubev_read_cb;
    split_tests; first [use_flush | handles_done].
Qed.

Lemma write_cb_handles (w : world) :
  handles_ok w -> bev_alive w = true -> no_null_handle (ubev_write_cb w).
Proof.
  intros H A. open_world w; try discriminate A;
    unfold ubev_write_cb, ubev_bev_close, ubev_cleanup;
    split_tests; handles_done.
Qed.

Lemma event_cb_handles (events : Z) (w : world) :
  handles_ok w -> bev_alive w = true ->
  has_flag events BEV_EVENT_READING = false ->
  no_null_handle (ubev_event_cb events w).
Proof.
  intros H A R. open_world w; try discriminate A;
    unfold ubev_event_cb, event_eof_reading, ubev_utp_close, ubev_bev_close,
      ubev_cleanup;
    rewrite ?R; split_tests; handles_done.
Qed.

Lemma read_failed_handles (oracle : nat -> list byte -> Z)
    (what : io_failure) (w : world) :
  handles_ok w -> bev_alive w = true ->
  no_null_handle (handler oracle (read_failed what) w).
Proof.
  intros H A. destruct what; open_world w; try discriminate A;
    cbn [handler failure_flag];
    unfold ubev_event_cb, event_eof_reading, ubev_utp_close, ubev_bev_close,
      ubev_cleanup;
    split_tests; handles_done.
Qed.

Lemma write_failed_handles (oracle : nat -> list byte -> Z)
    (what : io_failure) (w : world) :
  handles_ok w -> bev_alive w = true ->
  no_null_handle (handler oracle (write_failed what) w).
Proof.
  intros H A. destruct what; open_world w; try discriminate A;
    cbn [handler failure_flag];
    unfold ubev_event_cb, event_eof_reading, ubev_utp_close, ubev_bev_close,
      ubev_cleanup;
    split_tests; handles_done.
Qed.

Lemma libevent_steps_handle (oracle : nat -> list byte -> Z) (w : world) :
  handles_ok w -> bev_alive w = true ->
  (forall data, no_null_handle (handler oracle (fd_read data) w))
  /\ no_null_handle (handler oracle fd_written w)
  /\ (forall ev, no_null_handle (handler oracle (libevent_disable ev) w)).
Proof.
  intros H A. repeat split; intros; open_world w; try discriminate A;
    cbn [handler]; split_tests; handles_done.
Qed.

Lemma step_handles (oracle : nat -> list byte -> Z) (e : event) (w : world) :
  handles_ok w -> from_libevent e = true -> no_null_handle (step oracle e w).
Proof.
  intros H L. unfold step.
  destruct (deliverable e w) eqn:A; [| exact H].
  pose proof (libevent_steps_handle oracle w H) as Hl.
  destruct e; cbn [deliverable from_libevent] in *.
  - cbn [handler]. pose proof (utp_on_error_handles w H) as P.
    unfold bind. destruct (utp_on_error w); exact P.
  - cbn [handler]. pose proof (utp_on_read_handles buf w H) as P.
    unfold bind. destruct (utp_on_read buf w); exact P.
  - cbn [handler]. pose proof (utp_on_state_change_handles oracle st w H) as P.
    unfold bind. destruct (utp_on_state_change oracle st w); exact P.
  - apply read_cb_handles, H.
  - apply write_cb_handles; assumption.
  - apply event_cb_handles; [assumption | assumption |].
    apply negb_true_iff, L.
  - apply (proj1 (Hl A)).
  - apply (proj1 (proj2 (Hl A))).
  - apply (proj2 (proj2 (Hl A))).
  - apply read_failed_handles; assumption.
  - apply write_failed_handles; assumption.
Qed.

Lemma run_handles (oracle : nat -> list byte -> Z) :
  forall (es : list event) (w : world),
    handles_ok w -> forallb from_libevent es = true ->
    no_null_handle (run oracle es w).
Proof.
  induction es as [| e es IH]; intros w H L; [exact H |].
  cbn [forallb] in L. apply andb_true_iff in L. destruct L as [Le Les].
  cbn [run]. unfold bind.
  pose proof (step_handles oracle e w H Le) as P.
  destruct (step oracle e w) as [[] w' | f w']; [apply IH; assumption | exact P].
Qed.

(** C5. No libutp call is made on an absent [u->utp] and no libevent call
    on an absent [u->bev]: along every sequence of callbacks and libevent
    steps, libevent reporting [BEV_EVENT_READING] from its read path, that
    is while reading is enabled, no call meets a NULL handle, and the
    bridge stays in a state where the socket is only absent when the
    bufferevent is closed or does not read any more.  The end-of-stream-
    while-reading branch, which does not test [u->utp], is therefore only
    reached with the socket present. *)
Theorem no_call_on_absent_handle (oracle : nat -> list byte -> Z) :
  forall (es : list event) (w : world),
    handles_ok w -> forallb from_libevent es = true ->
    match run oracle es w with
    | Done _ w' => handles_ok w'
    | Crash f _ => f <> null_utp /\ f <> null_bev
    end.
Proof.
  intros es w H L. pose proof (run_handles oracle es w H L) as P.
  destruct (run oracle es w) as [a w' | f w']; [exact P |].
  cbn in P. destruct f; try discriminate P; split; discriminate.
Qed.

Lemma handles_ok_open (i o : list byte) : handles_ok (open_bridge i o).
Proof. repeat split; intros; try reflexivity; discriminate. Qed.

Lemma no_call_on_absent_handle_witness :
  match run backpressure
          [on_read [x01]; fd_read [x02]; read_cb; on_error;
           read_failed io_eof]
          (open_bridge [] []) with
  | Done _ w' => handles_ok w'
  | Crash f _ => f <> null_utp /\ f <> null_bev
  end.
Proof.
  apply (no_call_on_absent_handle backpressure).
  - apply handles_ok_open.
  - reflexivity.
Defined.

(** The condition on the events is used.  The end-of-stream-while-reading
    branch of [ubev_event_cb] does not test [u->utp]; what keeps it from a
    NULL socket is that reading is disabled whenever the socket is closed
    and the bufferevent stays.  An event with
    [BEV_EVENT_EOF | BEV_EVENT_READING] in such a state, which libevent
    does not raise, would reach [utp_shutdown] with the NULL handle. *)
Lemma eof_reading_uses_absent_utp :
  run backpressure [on_read [x01]; on_error] (open_bridge [] []) =
    Done tt closed_with_pending_output
  /\ step backpressure (event_cb (Z.lor BEV_EVENT_EOF BEV_EVENT_READING))
       closed_with_pending_output =
     Crash null_utp closed_with_pending_output
  /\ ~ spares_absent_handles backpressure
        (event_cb (Z.lor BEV_EVENT_EOF BEV_EVENT_READING))
        closed_with_pending_output.
Proof.
  split; [reflexivity | split; [reflexivity |]].
  intros [H _]. apply H. reflexivity.
Qed.

(** * Further properties of the code *)

(** ** Invariants that look at what a step does to the bufferevent

    As [Loop_invariant], for invariants that [ubev_bev_close] has to be
    shown to preserve as a whole and that only bear a bufferevent being
    replaced by one with the same or fewer enabled events. *)

Lemma submask_refl (a : Z) : submask a a.
Proof. apply Z.land_lnot_diag. Qed.

Lemma submask_disable (a ev : Z) : submask (Z.land a (Z.lnot ev)) a.
Proof.
  unfold submask.
  rewrite <- Z.land_assoc, (Z.land_comm (Z.lnot ev)), Z.land_assoc.
  rewrite Z.land_lnot_diag. apply Z.land_0_l.
Qed.

Lemma submask_land (a b c : Z) : submask a b -> Z.land b c = 0 -> Z.land a c = 0.
Proof.
  unfold submask. intros Hab Hbc. apply Z.bits_inj'. intros n Hn.
  apply (f_equal (fun x => Z.testbit x n)) in Hab.
  apply (f_equal (fun x => Z.testbit x n)) in Hbc.
  rewrite Z.land_spec, Z.bits_0 in *. rewrite Z.lnot_spec in Hab by exact Hn.
  destruct (Z.testbit a n), (Z.testbit b n), (Z.testbit c n);
    cbn in *; congruence.
Qed.

Lemma preserves_modify_bev_at (I : world -> Prop) (f : bufferevent -> bufferevent) :
  (forall w u b, I w -> heap w = Some u -> bev u = Some b ->
     I (set_heap (Some (set_bev (Some (f b)) u)) w)) ->
  preserves I (modify_bev f).
Proof.
  intros H w Hw; unfold modify_bev, the_bev, bind, get_u, modify_u.
  destruct (heap w) as [u |] eqn:Hu; [| exact Hw].
  destruct (bev u) as [b |] eqn:Hb; cbn; [| exact Hw].
  rewrite Hu. cbn. apply H; assumption.
Qed.

(** [case UTP_STATE_CONNECT]: the notification runs only when the bridge
    refers to a far end. *)
Lemma preserves_connect (I : world -> Prop) (p : bool) (k : M unit) :
  (forall o w u, I w -> heap w = Some u -> other_bev u = Some o ->
     I (final (tell_connected o w))) ->
  preserves I k ->
  preserves I (u <- deref p ;;
               (match other_bev u with
                | Some o => tell_connected o
                | None => ret tt
                end) ;;
               k).
Proof.
  intros H Hk w Hw. unfold bind, deref. destruct p; [| exact Hw].
  unfold get_u. destruct (heap w) as [u |] eqn:Hu; [| exact Hw].
  destruct (other_bev u) as [o |] eqn:Ho.
  - specialize (H o w u Hw Hu Ho).
    destruct (tell_connected o w); [apply Hk |]; exact H.
  - apply Hk, Hw.
Qed.

Lemma connected_always (I : world -> Prop) :
  (forall o, preserves I (tell_connected o)) ->
  forall o w u, I w -> heap w = Some u -> other_bev u = Some o ->
    I (final (tell_connected o w)).
Proof. intros H o w u Hw _ _. apply H, Hw. Qed.

Ltac pres_at leaf :=
  repeat first
    [ assumption
    | match goal with H : forall _, preserves _ _ |- _ => apply H end
    | apply preserves_ret
    | apply preserves_crash
    | apply preserves_c_assert
    | apply preserves_get_u
    | apply preserves_the_bev
    | apply preserves_utp_get_userdata
    | apply preserves_deref
    | apply preserves_modify_bev_at; solve [leaf]
    | apply preserves_modify_u; solve [leaf]
    | apply preserves_do_call; solve [leaf]
    | apply preserves_on_utp; solve [leaf]
    | match goal with
      | |- preserves _ (if ?c then _ else _) => destruct c
      | |- preserves _ (match ?o with Some _ => _ | None => _ end) => destruct o
      | |- preserves _ (bufferevent_disable _) => unfold bufferevent_disable
      | |- preserves _ (bufferevent_enable _) => unfold bufferevent_enable
      | |- preserves _ (bufferevent_write _) => unfold bufferevent_write
      | |- preserves _ (modify_bev _) => fail 2
      end
    | apply preserves_bind; [| intro]
    | solve [leaf] ].

Section Fine_invariant.

Variable oracle : nat -> list byte -> Z.
Variable I : world -> Prop.

Hypothesis F_utp_close : preserves I ubev_utp_close.
Hypothesis F_bev_close : preserves I ubev_bev_close.
Hypothesis F_cleanup : preserves I ubev_cleanup.
Hypothesis F_quiet : forall c w, quiet c = true -> I w -> I (log c w).
Hypothesis F_write :
  forall s l w, I w -> I (wrote s (chunk l) (oracle (writes w) (chunk l)) w).
Hypothesis F_bev :
  forall w u b b', I w -> heap w = Some u -> bev u = Some b ->
    submask (enabled b') (enabled b) ->
    I (set_heap (Some (set_bev (Some b') u)) w).
Hypothesis F_flag :
  forall w u, I w -> heap w = Some u ->
    I (set_heap (Some (set_utp_read_shutdown true u)) w).
Hypothesis F_connected :
  forall o w u, I w -> heap w = Some u -> other_bev u = Some o ->
    I (final (tell_connected o w)).

Ltac fine_leaf :=
  first [ intros; apply F_quiet; [reflexivity | assumption]
        | intros; eapply F_bev; [eassumption | eassumption | eassumption |];
          first [apply submask_refl | apply submask_disable]
        | intros; apply F_flag; assumption ].

Lemma fine_graceful_close : preserves I ubev_bev_graceful_close.
Proof. unfold ubev_bev_graceful_close. pres_at fine_leaf. Qed.

Lemma fine_flush_tail : preserves I flush_tail.
Proof. unfold flush_tail. pres_at fine_leaf. Qed.

Lemma fine_do_utp_write (s : option utp_socket) (l : list byte) :
  preserves I (do_utp_write oracle s (chunk l)).
Proof.
  destruct s; [| apply preserves_crash].
  intros w Hw. apply (F_write _ l w Hw).
Qed.

Lemma fine_flush_loop (fuel : nat) : preserves I (flush_loop oracle fuel).
Proof.
  pose proof fine_flush_tail. pose proof fine_graceful_close.
  induction fuel as [| fuel IH]; cbn [flush_loop].
  - pres_at fine_leaf.
  - apply preserves_bind; [apply preserves_the_bev | intros b].
    destruct (is_empty (input b)); [assumption |].
    cbv zeta. fold (chunk (input b)).
    apply preserves_bind; [apply preserves_get_u | intros u].
    apply preserves_bind; [apply fine_do_utp_write | intros r].
    pres_at fine_leaf.
Qed.

Lemma fine_flush : preserves I (utp_bufferevent_flush oracle).
Proof.
  unfold utp_bufferevent_flush.
  apply preserves_bind; [apply preserves_the_bev | intros b; apply fine_flush_loop].
Qed.

Lemma fine_stop_writing : preserves I (ubev_bev_stop_writing oracle).
Proof.
  pose proof fine_flush.
  unfold ubev_bev_stop_writing. pres_at fine_leaf.
Qed.

Lemma fine_utp_on_error : preserves I utp_on_error.
Proof.
  pose proof fine_graceful_close.
  unfold utp_on_error. pres_at fine_leaf.
Qed.

Lemma fine_utp_on_read (buf : list byte) : preserves I (utp_on_read buf).
Proof. unfold utp_on_read. pres_at fine_leaf. Qed.

Lemma fine_utp_on_state_change (st : utp_state) :
  preserves I (utp_on_state_change oracle st).
Proof.
  pose proof fine_flush. pose proof fine_stop_writing.
  assert (W : forall p, preserves I (state_writable oracle p))
    by (intros p; unfold state_writable; pres_at fine_leaf).
  unfold utp_on_state_change. fold tell_connected.
  destruct st; [| pres_at fine_leaf ..].
  apply preserves_bind; [apply preserves_utp_get_userdata | intros p].
  apply preserves_bind; [| intros; apply preserves_ret].
  apply preserves_connect; [exact F_connected | apply W].
Qed.

Lemma fine_read_cb : preserves I (ubev_read_cb oracle).
Proof.
  pose proof fine_flush.
  unfold ubev_read_cb. pres_at fine_leaf.
Qed.

Lemma fine_write_cb : preserves I ubev_write_cb.
Proof. unfold ubev_write_cb. pres_at fine_leaf. Qed.

Lemma fine_event_cb (events : Z) : preserves I (ubev_event_cb events).
Proof. unfold ubev_event_cb, event_eof_reading. pres_at fine_leaf. Qed.

Lemma fine_step (e : event) : preserves I (step oracle e).
Proof.
  intros w Hw. unfold step. destruct (deliverable e w); [| exact Hw].
  revert w Hw. fold (preserves I (handler oracle e)).
  pose proof fine_utp_on_error. pose proof fine_utp_on_read.
  pose proof fine_utp_on_state_change. pose proof fine_read_cb.
  pose proof fine_write_cb. pose proof fine_event_cb.
  destruct e; cbn [handler]; pres_at fine_leaf.
Qed.

Lemma fine_run (es : list event) : preserves I (run oracle es).
Proof.
  induction es as [| e es IH]; cbn [run].
  - apply preserves_ret.
  - apply preserves_bind; [apply fine_step | intros _; exact IH].
Qed.

End Fine_invariant.

(** ** What a run cannot undo *)

Ltac state_leaf :=
  unfold preserves, holds_utp, bev_alive, disabled in *; intros; fields;
  repeat match goal with
         | H : heap ?w = _ |- _ => rewrite H in *
         | H : bev ?u = _ |- _ => rewrite H in *
         | H : Some _ = Some _ |- _ => injection H as H; subst
         end;
  fields; try congruence; try discriminate; eauto.

Lemma utp_gone_run (oracle : nat -> list byte -> Z) (es : list event) :
  preserves (fun w => holds_utp w = false) (run oracle es).
Proof.
  apply fine_run; try solve [state_leaf].
  - intros [[[[s |] rs ob pe] |] d cs n] H; try discriminate H; exact H.
  - unfold ubev_bev_close. pres_at state_leaf.
  - unfold ubev_cleanup. pres_at state_leaf.
  - apply connected_always. intros o. unfold tell_connected. pres_at state_leaf.
Qed.

Lemma bev_gone_run (oracle : nat -> list byte -> Z) (es : list event) :
  preserves (fun w => bev_alive w = false) (run oracle es).
Proof.
  apply fine_run; try solve [state_leaf].
  - unfold ubev_utp_close. pres_at state_leaf.
  - intros [[[ut rs [b |] pe] |] d cs n] H; try discriminate H; exact H.
  - unfold ubev_cleanup. pres_at state_leaf.
  - apply connected_always. intros o. unfold tell_connected. pres_at state_leaf.
Qed.

(** X1. A side of the bridge that is closed stays closed: along every
    sequence of events, once [u->utp] is NULL (or the bridge is freed) it
    is never set again, and the same holds of [u->bev]. *)
Theorem closed_side_stays_closed (oracle : nat -> list byte -> Z) :
  forall (es : list event) (w : world),
    (holds_utp w = false -> holds_utp (final (run oracle es w)) = false)
    /\ (bev_alive w = false -> bev_alive (final (run oracle es w)) = false).
Proof.
  intros es w. split.
  - apply (utp_gone_run oracle es).
  - apply (bev_gone_run oracle es).
Qed.

Lemma closed_side_stays_closed_witness :
  holds_utp (final (run backpressure [fd_written; write_cb; on_error]
                      closed_with_pending_output)) = false
  /\ bev_alive (final (run backpressure
                         [on_state_change UTP_STATE_DESTROYING; on_error]
                         (mk_world None false [free_bridge] 0))) = false.
Proof.
  split.
  - exact (proj1 (closed_side_stays_closed backpressure
                    [fd_written; write_cb; on_error]
                    closed_with_pending_output) eq_refl).
  - exact (proj2 (closed_side_stays_closed backpressure
                    [on_state_change UTP_STATE_DESTROYING; on_error]
                    (mk_world None false [free_bridge] 0)) eq_refl).
Defined.

Ltac balance_leaf :=
  unfold preserves, balance_is, utp_balance, bev_balance, holds_utp, bev_alive,
    count in *;
  intros; fields;
  repeat match goal with
         | H : heap ?w = _ |- _ => rewrite H in *
         | H : bev ?u = _ |- _ => rewrite H in *
         | c : call |- _ => destruct c; try discriminate
         end;
  fields; cbn [filter is_utp_close is_bufferevent_free length]; auto.

Ltac balance_count :=
  unfold balance_is, utp_balance, bev_balance, holds_utp, bev_alive, count in *;
  fields; cbn [filter is_utp_close is_bufferevent_free length Nat.b2n] in *;
  lia.

Lemma balance_utp_close (k1 k2 : nat) : preserves (balance_is k1 k2) ubev_utp_close.
Proof.
  intros [[[[s |] rs ob pe] |] d cs n] H; try exact H.
  unfold ubev_utp_close. exec. destruct pe, ob; exec; balance_count.
Qed.

Lemma balance_bev_close (k1 k2 : nat) : preserves (balance_is k1 k2) ubev_bev_close.
Proof.
  intros [[[ut rs [[e i o] |] pe] |] d cs n] H; try exact H.
  unfold ubev_bev_close. exec.
  destruct (e =? 0); [| exact H]. exec.
  destruct (is_empty i); [| exact H]. exec.
  destruct (is_empty o); [| exact H]. exec.
  destruct ut; balance_count.
Qed.

Lemma balance_cleanup (k1 k2 : nat) : preserves (balance_is k1 k2) ubev_cleanup.
Proof.
  intros [[[[s |] rs [b |] pe] |] d cs n] H; exact H.
Qed.

Lemma balance_run (oracle : nat -> list byte -> Z) (k1 k2 : nat)
    (es : list event) :
  preserves (balance_is k1 k2) (run oracle es).
Proof.
  apply fine_run;
    first [ apply balance_utp_close | apply balance_bev_close
          | apply balance_cleanup | solve [balance_leaf] | idtac ].
  apply connected_always. intros o. unfold tell_connected. pres_at balance_leaf.
Qed.

(** X2. Each side is released once.  Along every sequence of events the
    number of [utp_close] calls grows by one exactly when the bridge stops
    holding the socket, and the number of [bufferevent_free] calls by one
    exactly when it stops holding the bufferevent: no handle is closed
    twice and none is dropped without being closed. *)
Theorem each_side_released_once (oracle : nat -> list byte -> Z) :
  forall (es : list event) (w : world),
    (count is_utp_close (calls (final (run oracle es w)))
       + Nat.b2n (holds_utp (final (run oracle es w)))
     = count is_utp_close (calls w) + Nat.b2n (holds_utp w))%nat
    /\ (count is_bufferevent_free (calls (final (run oracle es w)))
          + Nat.b2n (bev_alive (final (run oracle es w)))
        = count is_bufferevent_free (calls w) + Nat.b2n (bev_alive w))%nat.
Proof.
  intros es w.
  exact (balance_run oracle (utp_balance w) (bev_balance w) es w
           (conj eq_refl eq_refl)).
Qed.

Ltac disabled_leaf :=
  unfold preserves, disabled in *; intros; fields;
  repeat match goal with
         | H : heap ?w = _ |- _ => rewrite H in *
         | H : Some _ = Some _ |- _ => injection H as H; subst
         end;
  fields; try discriminate; eauto using submask_land.

Lemma disabled_run (oracle : nat -> list byte -> Z) (ev : Z) (es : list event) :
  preserves (disabled ev) (run oracle es).
Proof.
  apply fine_run; try solve [disabled_leaf].
  - unfold ubev_utp_close. pres_at disabled_leaf.
  - unfold ubev_bev_close. pres_at disabled_leaf.
  - unfold ubev_cleanup. pres_at disabled_leaf.
  - intros w u b b' H Hu Hb Hs u' b'' E1 E2. fields.
    injection E1 as <-. fields. injection E2 as <-.
    apply (submask_land _ (enabled b)); [exact Hs | exact (H u b Hu Hb)].
  - apply connected_always. intros o. unfold tell_connected.
    pres_at disabled_leaf.
Qed.

(** X3. The bridge never enables a direction again: along every sequence
    of events, an event that is not enabled in the bufferevent stays not
    enabled for as long as the bufferevent exists ([bufferevent_enable] is
    only called by the constructor). *)
Theorem disabled_direction_stays_disabled (oracle : nat -> list byte -> Z) :
  forall (ev : Z) (es : list event) (w : world),
    disabled ev w -> disabled ev (final (run oracle es w)).
Proof. intros ev es. apply disabled_run. Qed.

Lemma disabled_direction_stays_disabled_witness :
  disabled EV_READ
    (final (run accept_all
              [fd_read [x01]; read_cb; on_read [x02]; fd_written; write_cb;
               on_state_change UTP_STATE_WRITABLE]
              (mk_world (Some (mk_ubev (Some 7%nat) false
                                 (Some (mk_bev EV_WRITE [x03] [])) None))
                        true [] 0))).
Proof.
  apply (disabled_direction_stays_disabled accept_all EV_READ).
  intros u b Hu Hb. injection Hu as <-. injection Hb as <-. reflexivity.
Defined.

(** ** More on [utp_bufferevent_flush] *)

Lemma flush_tail_writes (n : nat) : preserves (writes_is n) flush_tail.
Proof.
  pose proof (ubev_utp_close_writes n). pose proof (ubev_bev_close_writes n).
  pose proof (ubev_cleanup_writes n).
  unfold flush_tail. pres_with writes_leaf.
Qed.

Lemma close_then_graceful_writes (n : nat) :
  preserves (writes_is n) (ubev_utp_close ;; ubev_bev_graceful_close).
Proof.
  apply preserves_bind; [apply ubev_utp_close_writes |].
  intros _; apply ubev_bev_graceful_close_writes.
Qed.

Lemma flush_tail_writes_eq (w : world) :
  writes (final (flush_tail w)) = writes w.
Proof. exact (flush_tail_writes (writes w) w eq_refl). Qed.

Lemma close_then_graceful_writes_eq (w : world) :
  writes (final ((ubev_utp_close ;; ubev_bev_graceful_close) w)) = writes w.
Proof. exact (close_then_graceful_writes (writes w) w eq_refl). Qed.

Lemma flush_loop_turns (oracle : nat -> list byte -> Z) :
  forall (fuel : nat) (w : world),
    (writes (final (flush_loop oracle fuel w)) <= writes w + input_len w)%nat.
Proof.
  induction fuel as [| fuel IH]; intros w.
  - destruct w as [[[ut rs [[e i o] |] ob] |] d cs n]; try (cbn; lia).
    cbn [flush_loop]. exec.
    destruct (is_empty i); [| cbn; lia].
    rewrite flush_tail_writes_eq. cbn. lia.
  - destruct w as [[[ut rs [[e i o] |] ob] |] d cs n]; try (cbn; lia).
    cbn [flush_loop]. exec.
    destruct i as [| x i].
    { change (is_empty (@nil byte)) with true. cbv iota.
      rewrite flush_tail_writes_eq. cbn. lia. }
    rewrite (is_empty_false (x :: i)) by congruence.
    destruct ut as [s |]; [| cbn; lia]. exec.
    match goal with |- context [oracle n ?b] => set (r := oracle n b) end.
    destruct (r <? 0) eqn:Hneg.
    { change (writes (final ((ubev_utp_close ;; ubev_bev_graceful_close)
                               (wrote s (chunk (x :: i)) r
                                  (both_open s rs (mk_bev e (x :: i) o) ob d cs n))))
              <= n + length (x :: i))%nat.
      rewrite close_then_graceful_writes_eq.
      cbn [wrote writes both_open length]. lia. }
    destruct (r =? 0) eqn:Hz.
    { rewrite flush_tail_writes_eq. cbn [writes length]. lia. }
    assert (Hd : (length (evbuffer_drain r (x :: i)) < length (x :: i))%nat)
      by (apply drain_shorter; [lia | congruence]).
    exec.
    match goal with
    | |- (writes (final (flush_loop oracle fuel ?w1)) <= _)%nat =>
        specialize (IH w1)
    end.
    fields. lia.
Qed.

(** X4. The loop of [utp_bufferevent_flush] comes to an end, and it calls
    [utp_write] at most once for every byte that is in the input buffer when
    it starts, whatever [utp_write] answers. *)
Theorem flush_terminates_within_input_length (oracle : nat -> list byte -> Z) :
  forall w : world,
    (writes (final (utp_bufferevent_flush oracle w))
       <= writes w + input_len w)%nat
    /\ fault_of (utp_bufferevent_flush oracle w) <> Some out_of_fuel.
Proof.
  intros w. split; [| apply flush_enough_fuel].
  unfold utp_bufferevent_flush, bind.
  destruct (the_bev w) as [b w' | f w'] eqn:E.
  - assert (w' = w).
    { unfold the_bev, bind, get_u in E.
      destruct (heap w) as [u |]; [| discriminate E].
      destruct (bev u); [injection E as _ <-; reflexivity | discriminate E]. }
    subst w'. apply flush_loop_turns.
  - assert (w' = w).
    { unfold the_bev, bind, get_u in E.
      destruct (heap w) as [u |]; [| injection E as _ <-; reflexivity].
      destruct (bev u); [discriminate E | injection E as _ <-; reflexivity]. }
    subst w'. cbn. lia.
Qed.

Lemma input_len_remaining (w : world) : input_len w = length (remaining_input w).
Proof.
  unfold input_len, remaining_input.
  destruct (heap w) as [u |]; [destruct (bev u) |]; reflexivity.
Qed.

Lemma chunks_needed_step (len k : nat) :
  (0 < len)%nat -> k = Nat.min 1500 len ->
  (S ((len - k + 1499) / 1500) = (len + 1499) / 1500)%nat.
Proof.
  intros Hpos Hk.
  destruct (Nat.le_gt_cases len 1500) as [Hle | Hgt].
  - assert (E : (len - k + 1499 = 1499)%nat) by lia. rewrite E.
    rewrite (Nat.div_small 1499 1500) by lia.
    cbn [Nat.add]. apply (Nat.div_unique _ 1500 1 (len - 1)%nat); lia.
  - assert (E : (len + 1499 = (len - k + 1499) + 1 * 1500)%nat) by lia.
    rewrite E, Nat.div_add by lia. lia.
Qed.

Lemma flush_accept_all_drains (oracle : nat -> list byte -> Z) :
  (forall n buf, oracle n buf = Z.of_nat (length buf)) ->
  forall (m : nat) s rs e i o pe d cs n,
    (length i <= m)%nat ->
    input_len (final (utp_bufferevent_flush oracle
                        (both_open s rs (mk_bev e i o) pe d cs n))) = O
    /\ writes (final (utp_bufferevent_flush oracle
                        (both_open s rs (mk_bev e i o) pe d cs n)))
       = (n + (length i + 1499) / 1500)%nat.
Proof.
  intros Hall. induction m as [| m IH]; intros s rs e i o pe d cs n Hm.
  - destruct i; [| cbn in Hm; lia].
    rewrite (flush_empty oracle (both_open s rs (mk_bev e [] o) pe d cs n)
               (mk_ubev (Some s) rs (Some (mk_bev e [] o)) pe) (mk_bev e [] o)
               eq_refl eq_refl eq_refl).
    split; [apply flush_tail_drained; reflexivity |].
    rewrite flush_tail_writes_eq. cbn. lia.
  - destruct i as [| x i].
    + rewrite (flush_empty oracle (both_open s rs (mk_bev e [] o) pe d cs n)
                 (mk_ubev (Some s) rs (Some (mk_bev e [] o)) pe) (mk_bev e [] o)
                 eq_refl eq_refl eq_refl).
      split; [apply flush_tail_drained; reflexivity |].
      rewrite flush_tail_writes_eq. cbn. lia.
    + unfold both_open.
      rewrite (flush_accept_turn_open oracle Hall)
        with (k := Nat.min 1500 (length (x :: i)));
        [| congruence | reflexivity].
      set (k := Nat.min 1500 (length (x :: i))).
      assert (Hk : (1 <= k <= length (x :: i))%nat)
        by (unfold k; cbn [length]; lia).
      destruct (IH s rs e (skipn k (x :: i)) o pe d
                  (utp_write s (firstn k (x :: i)) (Z.of_nat k) :: cs) (S n))
        as [H1 H2].
      { rewrite length_skipn. lia. }
      unfold both_open in H1, H2. split; [exact H1 |].
      rewrite H2, length_skipn.
      rewrite <- (chunks_needed_step (length (x :: i)) k);
        [lia | cbn [length]; lia | reflexivity].
Qed.

(** X5. When [utp_write] takes all it is given, [utp_bufferevent_flush]
    empties the input buffer whatever its length: the bytes taken by
    [utp_write] are the bytes of the buffer, in order, and the number of
    calls is the length divided by 1500, rounded up. *)
Theorem flush_drains_in_chunks (oracle : nat -> list byte -> Z) :
  (forall n buf, oracle n buf = Z.of_nat (length buf)) ->
  forall (w : world) (u : utp_bufferevent) (s : utp_socket) (b : bufferevent),
    heap w = Some u -> utp u = Some s -> bev u = Some b ->
    remaining_input (final (utp_bufferevent_flush oracle w)) = []
    /\ accepted (calls (final (utp_bufferevent_flush oracle w)))
       = accepted (calls w) ++ input b
    /\ writes (final (utp_bufferevent_flush oracle w))
       = (writes w + (length (input b) + 1499) / 1500)%nat.
Proof.
  intros Hall [h d cs n] [ut rs ob pe] s [e i o] Hh Hu Hb.
  fields. subst h ut ob.
  destruct (flush_accept_all_drains oracle Hall (length i) s rs e i o pe d cs n
              (le_n _)) as [H1 H2].
  unfold both_open in H1, H2.
  rewrite input_len_remaining in H1. apply length_zero_iff_nil in H1.
  split; [exact H1 | split; [| exact H2]].
  assert (Hb : forall k buf, 0 <= oracle k buf <= Z.of_nat (length buf))
    by (intros k buf; rewrite Hall; lia).
  pose proof (flush_loop_accounted oracle (accepted cs ++ i) Hb (length i)
                (mk_world (Some (mk_ubev (Some s) rs (Some (mk_bev e i o)) pe))
                          d cs n) eq_refl) as A.
  unfold accounted in A.
  change (flush_loop oracle (length i)
            (mk_world (Some (mk_ubev (Some s) rs (Some (mk_bev e i o)) pe)) d cs n))
    with (utp_bufferevent_flush oracle
            (mk_world (Some (mk_ubev (Some s) rs (Some (mk_bev e i o)) pe)) d cs n))
    in A.
  rewrite H1, app_nil_r in A. exact A.
Qed.

Lemma flush_drains_in_chunks_witness :
  remaining_input (final (utp_bufferevent_flush accept_all
                            (open_bridge (repeat x00 3001) []))) = []
  /\ accepted (calls (final (utp_bufferevent_flush accept_all
                               (open_bridge (repeat x00 3001) []))))
     = repeat x00 3001
  /\ writes (final (utp_bufferevent_flush accept_all
                      (open_bridge (repeat x00 3001) [])))
     = ((length (repeat x00 3001) + 1499) / 1500)%nat.
Proof.
  exact (flush_drains_in_chunks accept_all (fun _ _ => eq_refl)
           (open_bridge (repeat x00 3001) [])
           (mk_ubev (Some 7%nat) false
              (Some (mk_bev rd_wr (repeat x00 3001) [])) None)
           7%nat (mk_bev rd_wr (repeat x00 3001) [])
           eq_refl eq_refl eq_refl).
Defined.

(** ** Invariants of the callbacks

    For invariants that relate a buffer of the bufferevent to its history:
    [utp_bufferevent_flush], the two closes and the notification of
    [UTP_STATE_CONNECT] are each shown to preserve them as a whole; the
    other changes leave the input buffer alone, leave the output buffer
    alone or empty it, and enable nothing.  The two events that bring data,
    reading from the descriptor and [utp_on_read], are not among them. *)

Section Callback_invariant.

Variable oracle : nat -> list byte -> Z.
Variable I : world -> Prop.

Hypothesis K_utp_close : preserves I ubev_utp_close.
Hypothesis K_bev_close : preserves I ubev_bev_close.
Hypothesis K_cleanup : preserves I ubev_cleanup.
Hypothesis K_error : preserves I (ubev_utp_close ;; ubev_bev_graceful_close).
Hypothesis K_flush : preserves I (utp_bufferevent_flush oracle).
Hypothesis K_connected :
  forall o w u, I w -> heap w = Some u -> other_bev u = Some o ->
    I (final (tell_connected o w)).
Hypothesis K_quiet : forall c w, quiet c = true -> I w -> I (log c w).
Hypothesis K_bev :
  forall w u b b', I w -> heap w = Some u -> bev u = Some b ->
    input b' = input b -> output b' = output b \/ output b' = [] ->
    submask (enabled b') (enabled b) ->
    I (set_heap (Some (set_bev (Some b') u)) w).
Hypothesis K_flag :
  forall w u, I w -> heap w = Some u ->
    I (set_heap (Some (set_utp_read_shutdown true u)) w).

Ltac cb_leaf :=
  first [ intros; apply K_quiet; [reflexivity | assumption]
        | intros; eapply K_bev;
            [ eassumption | eassumption | eassumption | reflexivity
            | first [left; reflexivity | right; reflexivity]
            | first [apply submask_refl | apply submask_disable] ]
        | intros; apply K_flag; assumption ].

Lemma cb_stop_writing : preserves I (ubev_bev_stop_writing oracle).
Proof. unfold ubev_bev_stop_writing. pres_at cb_leaf. Qed.

Lemma cb_utp_on_error : preserves I utp_on_error.
Proof. unfold utp_on_error. pres_at cb_leaf. Qed.

Lemma cb_utp_on_state_change (st : utp_state) :
  preserves I (utp_on_state_change oracle st).
Proof.
  pose proof cb_stop_writing.
  assert (W : forall p, preserves I (state_writable oracle p))
    by (intros p; unfold state_writable; pres_at cb_leaf).
  unfold utp_on_state_change. fold tell_connected.
  destruct st; [| pres_at cb_leaf ..].
  apply preserves_bind; [apply preserves_utp_get_userdata | intros p].
  apply preserves_bind; [| intros; apply preserves_ret].
  apply preserves_connect; [exact K_connected | apply W].
Qed.

Lemma cb_read_cb : preserves I (ubev_read_cb oracle).
Proof. unfold ubev_read_cb. pres_at cb_leaf. Qed.

Lemma cb_write_cb : preserves I ubev_write_cb.
Proof. unfold ubev_write_cb. pres_at cb_leaf. Qed.

Lemma cb_event_cb (events : Z) : preserves I (ubev_event_cb events).
Proof. unfold ubev_event_cb, event_eof_reading. pres_at cb_leaf. Qed.

Lemma cb_step (e : event) : brings_data e = false -> preserves I (step oracle e).
Proof.
  intros He w Hw. unfold step. destruct (deliverable e w); [| exact Hw].
  revert w Hw. fold (preserves I (handler oracle e)).
  pose proof cb_utp_on_error.
  pose proof cb_utp_on_state_change. pose proof cb_read_cb.
  pose proof cb_write_cb. pose proof cb_event_cb.
  destruct e; try discriminate He; cbn [handler]; pres_at cb_leaf.
Qed.

End Callback_invariant.

(** ** The order of the bytes given to [utp_write] *)

Ltac order_open :=
  unfold in_order, holds_utp, read_on, remaining_input in *; fields.

Lemma in_order_frozen (L T T' : list byte) (w w' : world) :
  in_order L T w -> accepted (calls w') = accepted (calls w) ->
  holds_utp w' = false -> in_order L T' w'.
Proof.
  intros [rest [E _]] Ha Hu. exists rest. rewrite Ha. split; [exact E |].
  rewrite Hu. discriminate.
Qed.

Lemma in_order_utp_close (L T : list byte) : preserves (in_order L T) ubev_utp_close.
Proof.
  intros [[[[s |] rs ob pe] |] d cs n] H; try exact H.
  unfold ubev_utp_close. exec.
  destruct pe; exec; (eapply in_order_frozen; [exact H | reflexivity | reflexivity]).
Qed.

Lemma in_order_bev_close (L T : list byte) : preserves (in_order L T) ubev_bev_close.
Proof.
  intros [[[ut rs [[e i o] |] pe] |] d cs n] H; try exact H.
  unfold ubev_bev_close. exec.
  destruct (e =? 0); [| exact H]. exec.
  destruct i as [| x i]; [| exact H].
  change (is_empty (@nil byte)) with true. exec.
  destruct (is_empty o); [| exact H]. exec.
  destruct H as [rest [E H]]. exists rest. split; [exact E |].
  order_open. intros Hu. destruct (H Hu) as [tail [E' _]].
  exists tail. split; [exact E' | discriminate].
Qed.

Lemma in_order_cleanup (L T : list byte) : preserves (in_order L T) ubev_cleanup.
Proof.
  intros [[[[s |] rs [b |] pe] |] d cs n] H; exact H.
Qed.

Ltac frozen_leaf :=
  unfold preserves, holds_utp in *; intros; fields;
  repeat match goal with
         | H : _ /\ _ |- _ => destruct H
         | H : heap ?w = _ |- _ => rewrite H in *
         end;
  fields; cbn [accepted]; auto.

Lemma frozen_bev_close (A : list byte) :
  preserves (fun w => holds_utp w = false /\ accepted (calls w) = A) ubev_bev_close.
Proof. unfold ubev_bev_close. pres_at frozen_leaf. Qed.

Lemma frozen_cleanup (A : list byte) :
  preserves (fun w => holds_utp w = false /\ accepted (calls w) = A) ubev_cleanup.
Proof.
  intros [[[[s |] rs [b |] pe] |] d cs n] H; exact H.
Qed.

Lemma frozen_graceful_close (A : list byte) :
  preserves (fun w => holds_utp w = false /\ accepted (calls w) = A)
    ubev_bev_graceful_close.
Proof.
  pose proof (frozen_bev_close A). pose proof (frozen_cleanup A).
  unfold ubev_bev_graceful_close. pres_at frozen_leaf.
Qed.

Lemma in_order_error (L T : list byte) :
  preserves (in_order L T) (ubev_utp_close ;; ubev_bev_graceful_close).
Proof.
  intros w H. unfold bind.
  destruct (ubev_utp_close w) as [[] w1 | f w1] eqn:E1.
  - assert (H1 : holds_utp w1 = false /\ accepted (calls w1) = accepted (calls w)).
    { destruct w as [[[[s |] rs ob pe] |] d cs n]; try discriminate E1.
      unfold ubev_utp_close in E1. revert E1. exec.
      destruct pe; exec; intros E1; injection E1 as <-; split; reflexivity. }
    destruct (frozen_graceful_close _ w1 H1) as [F1 F2].
    eapply in_order_frozen; [exact H | exact F2 | exact F1].
  - pose proof (in_order_utp_close L T w H) as H'. rewrite E1 in H'. exact H'.
Qed.

Lemma in_order_flush_tail (L T : list byte) : preserves (in_order L T) flush_tail.
Proof.
  pose proof (in_order_utp_close L T). pose proof (in_order_bev_close L T).
  pose proof (in_order_cleanup L T).
  unfold flush_tail. pres_at ltac:(intros; assumption).
Qed.


Lemma in_order_flush_loop (oracle : nat -> list byte -> Z) (L T : list byte) :
  (forall n buf, oracle n buf <= Z.of_nat (length buf)) ->
  forall fuel, preserves (in_order L T) (flush_loop oracle fuel).
Proof.
  intros Hor. pose proof (in_order_flush_tail L T) as Htail.
  pose proof (in_order_error L T) as Herr.
  induction fuel as [| fuel IH]; intros w H.
  - destruct w as [[[ut rs [[e i o] |] pe] |] d cs n]; try exact H.
    cbn [flush_loop]. exec.
    destruct (is_empty i); [apply Htail |]; exact H.
  - destruct w as [[[ut rs [[e i o] |] pe] |] d cs n]; try exact H.
    cbn [flush_loop]. exec.
    destruct (is_empty i) eqn:Hi; [apply Htail; exact H |].
    destruct ut as [s |]; [| exact H]. exec. fold (chunk i).
    specialize (Hor n (chunk i)).
    set (r := oracle n (chunk i)) in *.
    assert (Hstep : in_order L T
              (mk_world (Some (mk_ubev (Some s) rs
                                 (Some (mk_bev e (evbuffer_drain r i) o)) pe))
                        d (utp_write s (chunk i) r :: cs) (S n))).
    { destruct H as [rest [E H]]. order_open.
      destruct (H eq_refl) as [tail [E' HT]]. subst rest.
      exists (evbuffer_drain r i ++ tail). cbn [accepted]. split; [| eauto].
      rewrite E, <- !app_assoc. f_equal. rewrite app_assoc. f_equal.
      unfold evbuffer_drain.
      rewrite <- (firstn_skipn (Z.to_nat r) i) at 1. f_equal.
      unfold chunk, evbuffer_pullup in *. rewrite firstn_firstn. f_equal.
      rewrite length_firstn in Hor. unfold evbuffer_get_length in *. lia. }
    destruct (Z.ltb_spec r 0) as [Hneg | Hpos].
    + apply Herr. destruct H as [rest [E H]]. exists rest.
      cbn [accepted calls wrote]. 
      replace (Z.to_nat r) with O by lia. cbn [firstn]. rewrite app_nil_r.
      split; [exact E | exact H].
    + destruct (Z.eqb_spec r 0) as [Hz | Hz].
      * apply Htail. destruct H as [rest [E H]]. exists rest.
        cbn [accepted calls wrote].
        rewrite Hz. cbn [Z.to_nat firstn]. rewrite app_nil_r.
        split; [exact E | exact H].
      * apply IH. exact Hstep.
Qed.

Lemma in_order_flush (oracle : nat -> list byte -> Z) (L T : list byte) :
  (forall n buf, oracle n buf <= Z.of_nat (length buf)) ->
  preserves (in_order L T) (utp_bufferevent_flush oracle).
Proof.
  intros Hor. unfold utp_bufferevent_flush.
  apply preserves_bind; [apply preserves_the_bev |].
  intros b. apply in_order_flush_loop, Hor.
Qed.

Lemma enabled_submask (ev : Z) (b b' : bufferevent) :
  submask (enabled b') (enabled b) ->
  is_enabled ev b' = true -> is_enabled ev b = true.
Proof.
  unfold is_enabled. intros Hs H.
  destruct (Z.eqb_spec (Z.land (enabled b) ev) 0) as [E |]; [| reflexivity].
  rewrite (submask_land _ _ _ Hs E) in H. exact H.
Qed.

Lemma in_order_step (oracle : nat -> list byte -> Z) (L T : list byte)
    (e : event) :
  (forall n buf, oracle n buf <= Z.of_nat (length buf)) ->
  brings_data e = false -> preserves (in_order L T) (step oracle e).
Proof.
  intros Hor He.
  apply cb_step;
    first [ exact He | apply in_order_utp_close | apply in_order_bev_close
          | apply in_order_cleanup | apply in_order_error
          | apply in_order_flush; exact Hor | idtac ].
  - apply connected_always. intros o. unfold tell_connected.
    pres_at ltac:(first [ intros; assumption
                        | intros w u [rest [E H]] Hu; exists rest;
                          split; [exact E |]; order_open;
                          rewrite Hu in H; exact H ]).
  - intros c w Hc H. destruct c; try discriminate Hc; exact H.
  - intros w u b b' [rest [E H]] Hu Hb Hi _ Hs. exists rest. split; [exact E |].
    order_open. rewrite Hu in H. rewrite Hb in H. rewrite Hi.
    intros Hp. destruct (H Hp) as [tail [E' HT]]. exists tail.
    split; [exact E' |]. intros Hr. apply HT. exact (enabled_submask _ _ _ Hs Hr).
  - intros w u [rest [E H]] Hu. exists rest. split; [exact E |].
    order_open. rewrite Hu in H. exact H.
Qed.

Lemma in_order_on_read (oracle : nat -> list byte -> Z) (L T : list byte)
    (buf : list byte) :
  preserves (in_order L T) (step oracle (on_read buf)).
Proof.
  intros w H. unfold step. cbn [deliverable handler].
  revert w H. fold (preserves (in_order L T) (utp_on_read buf ;; ret tt)).
  unfold utp_on_read.
  pres_at ltac:(intros ? ? ? [rest [E H]] Hu Hb; exists rest;
                split; [exact E |]; order_open;
                rewrite Hu in H; rewrite Hb in H; exact H).
Qed.

Lemma in_order_fd_read (oracle : nat -> list byte -> Z) (L T data : list byte)
    (w : world) :
  in_order L (data ++ T) w -> in_order L T (final (step oracle (fd_read data) w)).
Proof.
  intros [rest [E H]]. exists rest.
  destruct w as [[[ut rs [[e i o] |] pe] |] d cs n].
  - unfold step. cbn [deliverable]. unfold bev_alive.
    cbn [heap bev present handler]. exec.
    destruct (is_enabled EV_READ (mk_bev e i o)) eqn:Hr; exec.
    + split; [exact E |]. order_open.
      intros Hp. destruct (H Hp) as [tail [E' HT]]. exists T.
      rewrite (HT Hr) in E'. rewrite <- app_assoc. split; [exact E' | reflexivity].
    + split; [exact E |]. order_open. rewrite Hr in *.
      intros Hp. destruct (H Hp) as [tail [E' _]]. exists tail.
      split; [exact E' | discriminate].
  - split; [exact E |]. order_open. intros Hp.
    destruct (H Hp) as [tail [E' _]]. exists tail.
    split; [exact E' | discriminate].
  - split; [exact E | discriminate].
Qed.

Lemma in_order_run (oracle : nat -> list byte -> Z) (L : list byte) :
  (forall n buf, oracle n buf <= Z.of_nat (length buf)) ->
  forall (es : list event) (w : world),
    in_order L (fed es) w -> exists T, in_order L T (final (run oracle es w)).
Proof.
  intros Hor. induction es as [| e es IH]; intros w H; [exists []; exact H |].
  cbn [run]. unfold bind.
  assert (Hs : in_order L (fed es) (final (step oracle e w))).
  { destruct (brings_data e) eqn:He.
    - destruct e; try discriminate He.
      + apply in_order_on_read. exact H.
      + apply in_order_fd_read. exact H.
    - apply (in_order_step oracle L (fed es) e Hor He).
      destruct e; try discriminate He; exact H. }
  destruct (step oracle e w) as [[] w' | f w']; cbn [final] in *.
  - apply IH. exact Hs.
  - exists (fed es). exact Hs.
Qed.

(** X6. Transport A is given the bytes of the descriptor in the order in
    which they were read, each of them at most once and none that was not
    read.  Along every sequence of events, when [utp_write] never claims
    more bytes than it was given, the bytes it has taken are a prefix of the
    bytes taken before, followed by the input buffer, followed by what
    libevent reads; and as long as the bridge holds the uTP socket no byte
    has been dropped: the input buffer is what follows that prefix. *)
Theorem utp_receives_the_stream_in_order (oracle : nat -> list byte -> Z) :
  (forall n buf, oracle n buf <= Z.of_nat (length buf)) ->
  forall (es : list event) (w : world),
    exists rest,
      accepted (calls w) ++ remaining_input w ++ fed es
        = accepted (calls (final (run oracle es w))) ++ rest
      /\ (holds_utp (final (run oracle es w)) = true ->
          exists tail, rest = remaining_input (final (run oracle es w)) ++ tail).
Proof.
  intros Hor es w.
  destruct (in_order_run oracle (accepted (calls w) ++ remaining_input w ++ fed es)
              Hor es w) as [T [rest [E H]]].
  - exists (remaining_input w ++ fed es). split; [reflexivity |].
    intros _. exists (fed es). split; [reflexivity | reflexivity].
  - exists rest. split; [exact E |].
    intros Hp. destruct (H Hp) as [tail [E' _]]. exists tail. exact E'.
Qed.

Lemma accept_two_at_most :
  forall n buf, accept_two n buf <= Z.of_nat (length buf).
Proof. intros n buf. unfold accept_two. lia. Qed.

Lemma utp_receives_the_stream_in_order_witness :
  exists rest,
    accepted (calls (open_bridge [x01] []))
      ++ remaining_input (open_bridge [x01] [])
      ++ fed [fd_read [x02; x03; x04]; read_cb; on_state_change UTP_STATE_WRITABLE;
              fd_read [x05]; on_error; fd_read [x06]]
      = accepted (calls (final (run accept_two
                                  [fd_read [x02; x03; x04]; read_cb;
                                   on_state_change UTP_STATE_WRITABLE;
                                   fd_read [x05]; on_error; fd_read [x06]]
                                  (open_bridge [x01] [])))) ++ rest
    /\ (holds_utp (final (run accept_two
                            [fd_read [x02; x03; x04]; read_cb;
                             on_state_change UTP_STATE_WRITABLE;
                             fd_read [x05]; on_error; fd_read [x06]]
                            (open_bridge [x01] []))) = true ->
        exists tail,
          rest = remaining_input
                   (final (run accept_two
                             [fd_read [x02; x03; x04]; read_cb;
                              on_state_change UTP_STATE_WRITABLE;
                              fd_read [x05]; on_error; fd_read [x06]]
                             (open_bridge [x01] []))) ++ tail).
Proof.
  exact (utp_receives_the_stream_in_order accept_two accept_two_at_most
           [fd_read [x02; x03; x04]; read_cb; on_state_change UTP_STATE_WRITABLE;
            fd_read [x05]; on_error; fd_read [x06]]
           (open_bridge [x01] [])).
Defined.

(** ** The end of the streams *)

(** With [utp_write] taking all it is given, the loop only logs its calls and
    leaves an empty input buffer to the tail. *)
Lemma flush_accept_all_tail (oracle : nat -> list byte -> Z) :
  (forall n buf, oracle n buf = Z.of_nat (length buf)) ->
  forall (m : nat) s rs e i o pe d cs n,
    (length i <= m)%nat ->
    exists new,
      Forall (fun c => is_utp_write c = true) new
      /\ accepted (new ++ cs) = accepted cs ++ i
      /\ utp_bufferevent_flush oracle (both_open s rs (mk_bev e i o) pe d cs n)
         = flush_tail (both_open s rs (mk_bev e [] o) pe d (new ++ cs)
                         (n + length new)).
Proof.
  intros Hall. induction m as [| m IH]; intros s rs e i o pe d cs n Hm.
  - destruct i; [| cbn in Hm; lia].
    exists []. split; [constructor | split; [cbn; rewrite app_nil_r; reflexivity |]].
    cbn [app length]. rewrite Nat.add_0_r.
    exact (flush_empty oracle (both_open s rs (mk_bev e [] o) pe d cs n)
             (mk_ubev (Some s) rs (Some (mk_bev e [] o)) pe) (mk_bev e [] o)
             eq_refl eq_refl eq_refl).
  - destruct i as [| x i].
    + exists []. split; [constructor | split; [cbn; rewrite app_nil_r; reflexivity |]].
      cbn [app length]. rewrite Nat.add_0_r.
      exact (flush_empty oracle (both_open s rs (mk_bev e [] o) pe d cs n)
               (mk_ubev (Some s) rs (Some (mk_bev e [] o)) pe) (mk_bev e [] o)
               eq_refl eq_refl eq_refl).
    + set (k := Nat.min 1500 (length (x :: i))).
      assert (Hk : (1 <= k <= length (x :: i))%nat)
        by (unfold k; cbn [length]; lia).
      destruct (IH s rs e (skipn k (x :: i)) o pe d
                  (utp_write s (firstn k (x :: i)) (Z.of_nat k) :: cs) (S n))
        as [new [F [A E]]].
      { rewrite length_skipn. lia. }
      exists (new ++ [utp_write s (firstn k (x :: i)) (Z.of_nat k)]).
      split; [| split].
      * apply Forall_app. split; [exact F | repeat constructor].
      * rewrite <- app_assoc. cbn [app]. rewrite A. cbn [accepted].
        rewrite Nat2Z.id, <- app_assoc. f_equal.
        rewrite firstn_firstn, Nat.min_id. apply firstn_skipn.
      * unfold both_open in *.
        rewrite (flush_accept_turn_open oracle Hall) with (k := k);
          [| congruence | reflexivity].
        rewrite E. rewrite <- app_assoc, length_app. cbn [app length].
        replace (S n + length new)%nat with (n + (length new + 1))%nat by lia.
        reflexivity.
Qed.

(** X7. The end of the descriptor's stream reaches Transport A only after
    the data.  When the read side of the bufferevent is disabled and
    [utp_write] takes all it is given, [utp_bufferevent_flush] first gives
    the whole input buffer to [utp_write]; then, if the write side is still
    enabled, it calls [utp_shutdown(SHUT_WR)] and keeps both sides; if
    nothing is enabled and the output buffer is empty, it closes both sides
    and frees the bridge. *)
Theorem flush_ends_the_stream_after_the_data (oracle : nat -> list byte -> Z) :
  (forall n buf, oracle n buf = Z.of_nat (length buf)) ->
  forall s rs e i o pe d cs n,
    Z.land e EV_READ = 0 ->
    exists new,
      Forall (fun c => is_utp_write c = true) new
      /\ accepted (new ++ cs) = accepted cs ++ i
      /\ (Z.land e EV_WRITE <> 0 ->
          utp_bufferevent_flush oracle (both_open s rs (mk_bev e i o) pe d cs n)
          = Done tt (both_open s rs (mk_bev e [] o) pe d
                       (utp_shutdown s SHUT_WR :: new ++ cs) (n + length new)))
      /\ (e = 0 -> o = [] ->
          utp_bufferevent_flush oracle (both_open s rs (mk_bev e i o) pe d cs n)
          = Done tt (torn_down s pe (new ++ cs) (n + length new))).
Proof.
  intros Hall s rs e i o pe d cs n Hr.
  destruct (flush_accept_all_tail oracle Hall (length i) s rs e i o pe d cs n
              (le_n _)) as [new [F [A E]]].
  exists new. split; [exact F | split; [exact A | split]].
  - intros Hw. rewrite E. unfold flush_tail, both_open. exec.
    unfold is_enabled. fields. rewrite Hr.
    destruct (Z.eqb_spec (Z.land e EV_WRITE) 0) as [Hz | _]; [contradiction |].
    reflexivity.
  - intros He Ho. subst e o. rewrite E.
    unfold flush_tail, both_open, torn_down, utp_close_calls.
    destruct pe; reflexivity.
Qed.

Lemma flush_ends_the_stream_after_the_data_witness :
  exists new,
    Forall (fun c => is_utp_write c = true) new
    /\ accepted (new ++ []) = accepted [] ++ repeat x00 1501
    /\ (Z.land EV_WRITE EV_WRITE <> 0 ->
        utp_bufferevent_flush accept_all
          (both_open 7%nat false (mk_bev EV_WRITE (repeat x00 1501) []) None true [] 0)
        = Done tt (both_open 7%nat false (mk_bev EV_WRITE [] []) None true
                     (utp_shutdown 7%nat SHUT_WR :: new ++ []) (0 + length new)))
    /\ (EV_WRITE = 0 -> @nil byte = [] ->
        utp_bufferevent_flush accept_all
          (both_open 7%nat false (mk_bev EV_WRITE (repeat x00 1501) []) None true [] 0)
        = Done tt (torn_down 7%nat None (new ++ []) (0 + length new))).
Proof.
  exact (flush_ends_the_stream_after_the_data accept_all (fun _ _ => eq_refl)
           7%nat false EV_WRITE (repeat x00 1501) [] None true [] 0%nat eq_refl).
Defined.

(** X8. An orderly end of both streams releases everything.  On a bridge
    with empty buffers that reads, the end of the uTP stream stops the
    writing to the descriptor ([shutdown(SHUT_WR)]); data that the
    descriptor still delivers is given to [utp_write]; and when the
    descriptor's stream ends too, the uTP socket is closed, the bufferevent
    is freed and the bridge is freed. *)
Theorem end_of_both_streams_frees_the_bridge (oracle : nat -> list byte -> Z) :
  (forall n buf, oracle n buf = Z.of_nat (length buf)) ->
  forall s rs e pe cs n data,
    submask e rd_wr -> Z.land e EV_READ <> 0 ->
    exists new,
      Forall (fun c => is_utp_write c = true) new
      /\ accepted (new ++ shutdown_fd SHUT_WR :: cs) = accepted cs ++ data
      /\ run oracle
           [on_state_change UTP_STATE_EOF; fd_read data; read_cb;
            read_failed io_eof]
           (both_open s rs (mk_bev e [] []) pe true cs n)
         = Done tt (torn_down s pe (new ++ shutdown_fd SHUT_WR :: cs)
                      (n + length new)).
Proof.
  intros Hall s rs e pe cs n data Hm Hr.
  destruct (flush_accept_all_tail oracle Hall (length data) s true EV_READ data []
              pe true (shutdown_fd SHUT_WR :: cs) n (le_n _)) as [new [F [A E]]].
  exists new. split; [exact F | split; [exact A |]].
  assert (S1 : step oracle (on_state_change UTP_STATE_EOF)
                 (both_open s rs (mk_bev e [] []) pe true cs n)
               = Done tt (both_open s true (mk_bev EV_READ [] []) pe true
                            (shutdown_fd SHUT_WR :: cs) n)).
  { destruct (mask_cases e Hm) as [-> | [-> | [-> | ->]]];
      first [ exfalso; apply Hr; reflexivity | reflexivity ]. }
  assert (S3 : step oracle read_cb
                 (both_open s true (mk_bev EV_READ data []) pe true
                    (shutdown_fd SHUT_WR :: cs) n)
               = Done tt (both_open s true (mk_bev EV_READ [] []) pe true
                            (new ++ shutdown_fd SHUT_WR :: cs) (n + length new))).
  { change (step oracle read_cb
              (both_open s true (mk_bev EV_READ data []) pe true
                 (shutdown_fd SHUT_WR :: cs) n))
      with (utp_bufferevent_flush oracle
              (both_open s true (mk_bev EV_READ data []) pe true
                 (shutdown_fd SHUT_WR :: cs) n)).
    rewrite E. reflexivity. }
  cbn [run]. unfold bind at 1. rewrite S1.
  unfold bind at 1.
  change (step oracle (fd_read data)
            (both_open s true (mk_bev EV_READ [] []) pe true
               (shutdown_fd SHUT_WR :: cs) n))
    with (@Done unit tt (both_open s true (mk_bev EV_READ data []) pe true
                    (shutdown_fd SHUT_WR :: cs) n)).
  cbv iota beta. unfold bind at 1. rewrite S3.
  unfold torn_down, utp_close_calls. destruct pe; reflexivity.
Qed.

Lemma end_of_both_streams_frees_the_bridge_witness :
  exists new,
    Forall (fun c => is_utp_write c = true) new
    /\ accepted (new ++ shutdown_fd SHUT_WR :: []) = accepted [] ++ [x01; x02]
    /\ run accept_all
         [on_state_change UTP_STATE_EOF; fd_read [x01; x02]; read_cb;
          read_failed io_eof]
         (both_open 7%nat false (mk_bev rd_wr [] []) None true [] 0)
       = Done tt (torn_down 7%nat None (new ++ shutdown_fd SHUT_WR :: [])
                    (0 + length new)).
Proof.
  apply (end_of_both_streams_frees_the_bridge accept_all (fun _ _ => eq_refl)
           7%nat false rd_wr None [] 0%nat [x01; x02]).
  - reflexivity.
  - discriminate.
Defined.

(** X9. In the other order the two ends of stream do not release the
    bridge.  When the descriptor's stream ends first, the uTP socket is
    told ([utp_shutdown(SHUT_WR)]); when the uTP stream ends afterwards,
    [ubev_bev_stop_writing] finds the read side disabled and goes to
    [utp_bufferevent_flush], which calls [utp_shutdown(SHUT_WR)] a second
    time: the write side of the bufferevent stays enabled, [shutdown] is
    not called on the descriptor, and nothing is closed or freed. *)
Theorem stream_end_of_descriptor_first (oracle : nat -> list byte -> Z) :
  forall s pe cs n,
    run oracle [read_failed io_eof; on_state_change UTP_STATE_EOF]
      (both_open s false (mk_bev rd_wr [] []) pe true cs n)
    = Done tt (both_open s true (mk_bev EV_WRITE [] []) pe true
                 (utp_shutdown s SHUT_WR :: utp_shutdown s SHUT_WR :: cs) n).
Proof. intros s pe cs n. reflexivity. Qed.

(** ** Errors of the uTP socket and late callbacks *)

Lemma on_error_with_pending_output :
  forall s rs e i o pe cs n,
    o <> [] ->
    utp_on_error (both_open s rs (mk_bev e i o) pe true cs n)
    = Done 0 (mk_world
                (Some (mk_ubev None rs
                         (Some (mk_bev (Z.land e (Z.lnot EV_READ)) [] o)) None))
                false (utp_close_calls s pe ++ cs) n).
Proof.
  intros s rs e i o pe cs n Ho.
  unfold utp_on_error, ubev_utp_close, ubev_bev_graceful_close,
    both_open, utp_close_calls.
  destruct pe; exec; rewrite (is_empty_false o Ho); reflexivity.
Qed.

(** X10. An error of the uTP socket closes the socket and stops the reading
    from the descriptor, and keeps what is still to be written to it.
    [utp_on_error] on a bridge that holds both sides calls [utp_close],
    discards the input buffer and disables reading; with bytes in the
    output buffer the bufferevent stays, with the output buffer as it was;
    with an empty output buffer (and nothing but reading and writing
    enabled) the bufferevent and the bridge are freed.  When the user data
    of the socket is NULL it does nothing. *)
Theorem utp_on_error_closes_the_socket :
  forall s rs e i o pe cs n,
    (o <> [] ->
     utp_on_error (both_open s rs (mk_bev e i o) pe true cs n)
     = Done 0 (mk_world
                 (Some (mk_ubev None rs
                          (Some (mk_bev (Z.land e (Z.lnot EV_READ)) [] o)) None))
                 false (utp_close_calls s pe ++ cs) n))
    /\ (o = [] -> submask e rd_wr ->
        utp_on_error (both_open s rs (mk_bev e i o) pe true cs n)
        = Done 0 (torn_down s pe cs n))
    /\ (forall w, userdata w = false -> utp_on_error w = Done 0 w).
Proof.
  intros s rs e i o pe cs n. split; [| split].
  - apply on_error_with_pending_output.
  - intros -> Hm. unfold torn_down, utp_close_calls.
    destruct (mask_cases e Hm) as [-> | [-> | [-> | ->]]]; destruct pe; reflexivity.
  - intros [h d cs' n'] Hd. fields. subst d. reflexivity.
Qed.

Lemma utp_on_error_closes_the_socket_witness :
  utp_on_error (both_open 7%nat false (mk_bev rd_wr [x01] [x02]) None true [] 0)
  = Done 0 (mk_world
              (Some (mk_ubev None false (Some (mk_bev EV_WRITE [] [x02])) None))
              false [utp_close 7%nat; utp_set_userdata 7%nat false] 0)
  /\ utp_on_error (both_open 7%nat false (mk_bev rd_wr [x01] []) None true [] 0)
     = Done 0 (torn_down 7%nat None [] 0)
  /\ utp_on_error closed_with_pending_output = Done 0 closed_with_pending_output.
Proof.
  split; [| split].
  - exact (proj1 (utp_on_error_closes_the_socket 7%nat false rd_wr [x01] [x02]
                    None [] 0%nat) ltac:(discriminate)).
  - exact (proj1 (proj2 (utp_on_error_closes_the_socket 7%nat false rd_wr [x01] []
                           None [] 0%nat)) eq_refl eq_refl).
  - exact (proj2 (proj2 (utp_on_error_closes_the_socket 7%nat false rd_wr [] []
                           None [] 0%nat)) closed_with_pending_output eq_refl).
Defined.

(** X11. Once the bridge has closed the uTP socket, the user data of the
    socket is NULL, and the callbacks of libutp differ in what they do with
    it: [utp_on_error] and the state change [UTP_STATE_DESTROYING] do
    nothing, [utp_on_read] and the other state changes use the NULL
    pointer. *)
Theorem callbacks_after_the_socket_is_closed (oracle : nat -> list byte -> Z) :
  forall (es : list event) (w : world),
    bridge_ok w -> holds_utp (final (run oracle es w)) = false ->
    userdata (final (run oracle es w)) = false
    /\ utp_on_error (final (run oracle es w)) = Done 0 (final (run oracle es w))
    /\ utp_on_state_change oracle UTP_STATE_DESTROYING (final (run oracle es w))
       = Done 0 (final (run oracle es w))
    /\ (forall buf,
          utp_on_read buf (final (run oracle es w))
          = Crash null_bridge (final (run oracle es w)))
    /\ (forall st, st <> UTP_STATE_DESTROYING ->
          utp_on_state_change oracle st (final (run oracle es w))
          = Crash null_bridge (final (run oracle es w))).
Proof.
  intros es w Hw Hu.
  destruct (run_ok oracle es w Hw) as [Hd _].
  set (w' := final (run oracle es w)) in *.
  assert (E : userdata w' = false).
  { destruct (userdata w') eqn:E; [| reflexivity].
    destruct (Hd eq_refl) as [u [s [Hh Hs]]].
    unfold holds_utp in Hu. rewrite Hh, Hs in Hu. discriminate Hu. }
  clearbody w'. destruct w' as [h d cs n]. fields. subst d.
  split; [reflexivity | split; [reflexivity | split; [reflexivity | split]]].
  - intros buf. reflexivity.
  - intros st Hst. destruct st; try reflexivity. contradiction.
Qed.

Lemma callbacks_after_the_socket_is_closed_witness :
  userdata (final (run backpressure [on_read [x01]; on_error] (open_bridge [] [])))
    = false
  /\ utp_on_error (final (run backpressure [on_read [x01]; on_error]
                            (open_bridge [] [])))
     = Done 0 (final (run backpressure [on_read [x01]; on_error]
                        (open_bridge [] [])))
  /\ utp_on_state_change backpressure UTP_STATE_DESTROYING
       (final (run backpressure [on_read [x01]; on_error] (open_bridge [] [])))
     = Done 0 (final (run backpressure [on_read [x01]; on_error]
                        (open_bridge [] [])))
  /\ (forall buf,
        utp_on_read buf (final (run backpressure [on_read [x01]; on_error]
                                  (open_bridge [] [])))
        = Crash null_bridge (final (run backpressure [on_read [x01]; on_error]
                                      (open_bridge [] []))))
  /\ (forall st, st <> UTP_STATE_DESTROYING ->
        utp_on_state_change backpressure st
          (final (run backpressure [on_read [x01]; on_error] (open_bridge [] [])))
        = Crash null_bridge (final (run backpressure [on_read [x01]; on_error]
                                      (open_bridge [] [])))).
Proof.
  apply (callbacks_after_the_socket_is_closed backpressure
           [on_read [x01]; on_error] (open_bridge [] [])).
  - apply bridge_ok_open.
  - reflexivity.
Defined.

(** ** The constructors *)

Lemma new_bridge_is (s : utp_socket) (b : bufferevent) (n : nat) :
  new_bridge s b n
  = both_open s false (set_enabled (Z.lor (enabled b) EV_READ) b) None true
      [utp_set_userdata s true] n.
Proof. destruct b as [e i o]. reflexivity. Qed.

(** X12. A bridge made by [utp_bufferevent_new] closes the uTP socket at
    most once and frees the bufferevent at most once, whatever happens to
    it; [free] is called at most once, and when it has been called, both
    [utp_close] and [bufferevent_free] have been called exactly once. *)
Theorem new_bridge_releases_each_side_once (oracle : nat -> list byte -> Z) :
  forall (s : utp_socket) (b : bufferevent) (n : nat) (es : list event),
    (count is_utp_close (calls (final (run oracle es (new_bridge s b n))))
       <= 1)%nat
    /\ (count is_bufferevent_free
          (calls (final (run oracle es (new_bridge s b n)))) <= 1)%nat
    /\ (free_count (calls (final (run oracle es (new_bridge s b n)))) <= 1)%nat
    /\ (heap (final (run oracle es (new_bridge s b n))) = None ->
        count is_utp_close (calls (final (run oracle es (new_bridge s b n))))
          = 1%nat
        /\ count is_bufferevent_free
             (calls (final (run oracle es (new_bridge s b n)))) = 1%nat
        /\ free_count (calls (final (run oracle es (new_bridge s b n))))
           = 1%nat).
Proof.
  intros s b n es.
  assert (Hb : balance_is 1 1 (new_bridge s b n))
    by (rewrite new_bridge_is; split; reflexivity).
  assert (Hk : bridge_ok (new_bridge s b n)).
  { rewrite new_bridge_is. split; [| reflexivity].
    intros _. eexists _, s. split; reflexivity. }
  destruct (balance_run oracle 1 1 es _ Hb) as [B1 B2].
  destruct (run_ok oracle es _ Hk) as [_ Hf].
  set (w' := final (run oracle es (new_bridge s b n))) in *.
  unfold utp_balance, bev_balance, holds_utp, bev_alive in *.
  revert B1 B2 Hf. clearbody w'.
  destruct (heap w') as [u |]; cbn [present Nat.b2n]; intros B1 B2 Hf.
  - split; [| split; [| split]];
      [ destruct (present (utp u)); cbn in B1; lia
      | destruct (present (bev u)); cbn in B2; lia
      | lia
      | discriminate ].
  - repeat split; lia.
Qed.

(** X13. [utp_connect_tcp] when the connection cannot be started gives up
    everything it has made: it frees the bufferevent, closes the uTP socket
    and frees the bridge.  When the connection is started the bridge stays,
    reading enabled.  When [bufferevent_socket_new] has failed,
    [utp_bufferevent_new] has released the socket and the bridge and has
    returned NULL, which [utp_connect_tcp] does not test before it uses
    it. *)
Theorem utp_connect_tcp_outcomes :
  forall (s : utp_socket) (b : bufferevent) (c : Z) (n : nat),
    (c < 0 ->
     utp_connect_tcp s (Some b) c (mk_world None false [] n)
     = Done tt (mk_world None false
                  [free_bridge; utp_close s; utp_set_userdata s false;
                   bufferevent_free; utp_set_userdata s true] n))
    /\ (0 <= c ->
        utp_connect_tcp s (Some b) c (mk_world None false [] n)
        = Done tt (new_bridge s b n))
    /\ utp_connect_tcp s None c (mk_world None false [] n)
       = Crash null_bridge
           (mk_world None false
              [free_bridge; utp_close s; utp_set_userdata s false;
               utp_set_userdata s true] n).
Proof.
  intros s [e i o] c n. split; [| split].
  - intros Hc. unfold utp_connect_tcp, utp_bufferevent_new, alloc. exec.
    destruct (Z.ltb_spec c 0); [reflexivity | lia].
  - intros Hc. unfold utp_connect_tcp, new_bridge, utp_bufferevent_new, alloc. exec.
    destruct (Z.ltb_spec c 0); [lia | reflexivity].
  - reflexivity.
Qed.

Lemma utp_connect_tcp_outcomes_witness :
  utp_connect_tcp 7%nat (Some (mk_bev EV_WRITE [] [])) (-1)
    (mk_world None false [] 0)
  = Done tt (mk_world None false
               [free_bridge; utp_close 7%nat; utp_set_userdata 7%nat false;
                bufferevent_free; utp_set_userdata 7%nat true] 0)
  /\ utp_connect_tcp 7%nat (Some (mk_bev EV_WRITE [] [])) 0
       (mk_world None false [] 0)
     = Done tt (new_bridge 7%nat (mk_bev EV_WRITE [] []) 0).
Proof.
  split.
  - exact (proj1 (utp_connect_tcp_outcomes 7%nat (mk_bev EV_WRITE [] []) (-1) 0%nat)
             ltac:(lia)).
  - exact (proj1 (proj2 (utp_connect_tcp_outcomes 7%nat (mk_bev EV_WRITE [] []) 0
                           0%nat)) ltac:(lia)).
Defined.

(** *** The reference on the far end *)

Ltac reference_leaf :=
  unfold preserves, reference_is, has_other, holds_utp, count in *;
  intros; fields;
  repeat match goal with
         | H : _ /\ _ |- _ => destruct H
         | H : heap ?w = _ |- _ => rewrite H in *
         | c : call |- _ => destruct c; try discriminate
         end;
  fields; cbn [filter is_decref length]; auto.

Lemma reference_utp_close (k : nat) : preserves (reference_is k) ubev_utp_close.
Proof.
  intros [[[[s |] rs ob pe] |] d cs n] H; try exact H.
  unfold ubev_utp_close. exec. destruct H as [H1 H2].
  destruct pe; exec; (split; [| discriminate]);
    unfold has_other, count in *; fields;
    cbn [filter is_decref length Nat.b2n present] in *; lia.
Qed.

Lemma reference_cleanup (k : nat) : preserves (reference_is k) ubev_cleanup.
Proof.
  intros [[[[s |] rs [b |] pe] |] d cs n] H; try exact H.
  unfold ubev_cleanup. exec. destruct H as [H1 H2].
  destruct pe; [discriminate (H2 eq_refl) |].
  split; [exact H1 | discriminate].
Qed.

Lemma reference_connected (k : nat) :
  forall o w u, reference_is k w -> heap w = Some u -> other_bev u = Some o ->
    reference_is k (final (tell_connected o w)).
Proof.
  intros o [h d cs n] [ut rs ob pe] [H1 H2] Hu Ho. fields. subst h pe.
  unfold tell_connected. exec.
  destruct (has_event_cb o); exec; (split; [| discriminate]);
    unfold has_other, count in *; fields;
    cbn [filter is_decref length Nat.b2n present] in *; lia.
Qed.

Lemma reference_run (oracle : nat -> list byte -> Z) (k : nat) (es : list event) :
  preserves (reference_is k) (run oracle es).
Proof.
  apply fine_run;
    first [ apply reference_utp_close | apply reference_cleanup
          | apply reference_connected | solve [reference_leaf] | idtac ].
  unfold ubev_bev_close. pres_at reference_leaf.
Qed.

(** X14. The reference [utp_socket_create_bev] takes on the far end is given
    back exactly once: by the state change [UTP_STATE_CONNECT] or, if the
    socket is closed before it connects, by [ubev_utp_close].  Along every
    sequence of events [bufferevent_decref] has been called once if the
    bridge no longer refers to the far end and not at all if it does, and
    it has been called once the bridge has closed the socket. *)
Theorem far_end_reference_given_back_once (oracle : nat -> list byte -> Z) :
  forall s fds0 fds1 b o n (es : list event),
    (count is_decref
       (calls (final (run oracle es (new_bridge_with_far_end s fds0 fds1 b o n))))
     + Nat.b2n
         (has_other (final (run oracle es
                              (new_bridge_with_far_end s fds0 fds1 b o n)))))%nat
    = 1%nat
    /\ (holds_utp (final (run oracle es
                            (new_bridge_with_far_end s fds0 fds1 b o n))) = false ->
        count is_decref
          (calls (final (run oracle es
                           (new_bridge_with_far_end s fds0 fds1 b o n))))
        = 1%nat).
Proof.
  intros s fds0 fds1 [e i o'] o n es.
  assert (H : reference_is 1 (new_bridge_with_far_end s fds0 fds1 (mk_bev e i o') o n))
    by (split; reflexivity).
  destruct (reference_run oracle 1 es _ H) as [H1 H2].
  split; [exact H1 |].
  intros Hu. destruct (has_other _) eqn:Ho.
  - rewrite (H2 eq_refl) in Hu. discriminate Hu.
  - cbn [Nat.b2n] in H1. lia.
Qed.

(** The state change [UTP_STATE_CONNECT] tells the owner of the far end, if
    it has installed an event callback, and gives the reference back. *)
Example connect_tells_the_far_end :
  forall (oracle : nat -> list byte -> Z) cb,
    run oracle [on_state_change UTP_STATE_CONNECT]
      (new_bridge_with_far_end 7%nat 3 4 (mk_bev EV_WRITE [] []) (mk_other cb) 0)
    = Done tt
        (mk_world (Some (mk_ubev (Some 7%nat) false (Some (mk_bev rd_wr [] [])) None))
           true
           (bufferevent_decref
              :: (if cb then [event_cb_connected] else [])
              ++ [bufferevent_incref; utp_set_userdata 7%nat true]) 0).
Proof. intros oracle [|]; reflexivity. Qed.

(** ** Teardown that is put off *)

(** X15. The teardown that [utp_on_error] puts off until the output buffer
    is written does not complete.  [ubev_bev_graceful_close] leaves the
    bufferevent with its write side enabled; when the output buffer has
    been written out, [ubev_write_cb] finds the socket gone and calls
    [ubev_bev_close], whose first assertion (nothing enabled) fails. *)
Theorem write_cb_after_error_fails_assertion (oracle : nat -> list byte -> Z) :
  forall s rs e i o pe cs n,
    o <> [] -> Z.land e EV_WRITE <> 0 ->
    run oracle [on_error; fd_written; write_cb]
      (both_open s rs (mk_bev e i o) pe true cs n)
    = Crash (assert_failed 51)
        (mk_world
           (Some (mk_ubev None rs
                    (Some (mk_bev (Z.land e (Z.lnot EV_READ)) [] [])) None))
           false (utp_close_calls s pe ++ cs) n).
Proof.
  intros s rs e i o pe cs n Ho Hw.
  assert (Hm : (Z.land e (Z.lnot EV_READ) =? 0) = false).
  { apply Z.eqb_neq. intros E. apply Hw.
    change EV_WRITE with (Z.land (Z.lnot EV_READ) EV_WRITE).
    rewrite Z.land_assoc, E. reflexivity. }
  cbn [run]. unfold step at 1. unfold bind at 1. cbn [deliverable handler].
  unfold bind at 1. rewrite (on_error_with_pending_output s rs e i o pe cs n Ho).
  unfold step, bind. cbn [deliverable handler]. unfold bev_alive. exec. setters.
  unfold bev_alive. exec.
  unfold ubev_write_cb, ubev_bev_close. exec.
  change (is_empty (@nil byte)) with true. exec.
  rewrite Hm. reflexivity.
Qed.

Lemma write_cb_after_error_fails_assertion_witness :
  run backpressure [on_error; fd_written; write_cb]
    (both_open 7%nat false (mk_bev rd_wr [] [x01]) None true [] 0)
  = Crash (assert_failed 51)
      (mk_world (Some (mk_ubev None false (Some (mk_bev EV_WRITE [] [])) None))
         false [utp_close 7%nat; utp_set_userdata 7%nat false] 0).
Proof.
  apply (write_cb_after_error_fails_assertion backpressure 7%nat false rd_wr []
           [x01] None [] 0%nat).
  - discriminate.
  - discriminate.
Defined.

(** ** A new bridge in the event loop *)

Lemma new_bridge_handles (s : utp_socket) (b : bufferevent) (n : nat) :
  handles_ok (new_bridge s b n).
Proof.
  rewrite new_bridge_is. repeat split; intros; try reflexivity; discriminate.
Qed.

Lemma new_bridge_ok (s : utp_socket) (b : bufferevent) (n : nat) :
  bridge_ok (new_bridge s b n).
Proof.
  rewrite new_bridge_is. split; [| reflexivity].
  intros _. eexists _, s. split; reflexivity.
Qed.

(** X16. What can go wrong with a bridge made by [utp_bufferevent_new].
    Along every sequence of events in which libevent reports
    [BEV_EVENT_READING] only from its read path, a run stops early in two
    ways only: an assertion of the code fails, or libutp calls
    [utp_on_read] or [utp_on_state_change] on a socket whose user data is
    NULL.  The bridge is never used after it was freed, no call is made on
    a NULL [u->utp] or [u->bev], and the loop of [utp_bufferevent_flush]
    always comes to an end. *)
Theorem new_bridge_stops_only_on_assert_or_null_userdata
    (oracle : nat -> list byte -> Z) :
  forall (s : utp_socket) (b : bufferevent) (n : nat) (es : list event)
         (f : fault),
    forallb from_libevent es = true ->
    fault_of (run oracle es (new_bridge s b n)) = Some f ->
    (exists line, f = assert_failed line) \/ f = null_bridge.
Proof.
  intros s b n es f L Hf.
  pose proof (run_safe oracle es _ (new_bridge_ok s b n)) as H1.
  pose proof (run_handles oracle es _ (new_bridge_handles s b n) L) as H2.
  pose proof (run_enough_fuel oracle es (new_bridge s b n)) as H3.
  destruct (run oracle es (new_bridge s b n)) as [a w' | f' w'];
    [discriminate Hf |].
  cbn in *. injection Hf as ->.
  destruct f; try discriminate H2;
    first [ left; eexists; reflexivity | right; reflexivity
          | exfalso; apply H1; reflexivity | exfalso; apply H3; reflexivity ].
Qed.

Lemma new_bridge_stops_only_on_assert_or_null_userdata_witness :
  (exists line, assert_failed 51 = assert_failed line)
  \/ assert_failed 51 = null_bridge.
Proof.
  apply (new_bridge_stops_only_on_assert_or_null_userdata backpressure 7%nat
           (mk_bev EV_WRITE [] []) 0%nat
           [fd_read [x01]; read_cb; read_failed io_error] (assert_failed 51)).
  - reflexivity.
  - reflexivity.
Defined.

(** ** The end of the stream while writing *)

(** X17. The end of the stream met while writing to the descriptor.  On a
    bridge that reads, [ubev_event_cb] tells the uTP socket to stop reading
    ([utp_shutdown(SHUT_RD)]) and discards the output buffer, and the
    descriptor goes on being read: what it still delivers is given to
    [utp_write].  When its stream ends as well, the uTP socket is closed
    and the bufferevent and the bridge are freed. *)
Theorem end_of_writing_then_reading_frees_the_bridge
    (oracle : nat -> list byte -> Z) :
  (forall n buf, oracle n buf = Z.of_nat (length buf)) ->
  forall s rs o pe cs n data,
    exists new,
      Forall (fun c => is_utp_write c = true) new
      /\ accepted (new ++ utp_shutdown s SHUT_RD :: cs) = accepted cs ++ data
      /\ run oracle [write_failed io_eof]
           (both_open s rs (mk_bev rd_wr [] o) pe true cs n)
         = Done tt (both_open s true (mk_bev EV_READ [] []) pe true
                      (utp_shutdown s SHUT_RD :: cs) n)
      /\ run oracle
           [write_failed io_eof; fd_read data; read_cb; read_failed io_eof]
           (both_open s rs (mk_bev rd_wr [] o) pe true cs n)
         = Done tt (torn_down s pe (new ++ utp_shutdown s SHUT_RD :: cs)
                      (n + length new)).
Proof.
  intros Hall s rs o pe cs n data.
  destruct (flush_accept_all_tail oracle Hall (length data) s true EV_READ data []
              pe true (utp_shutdown s SHUT_RD :: cs) n (le_n _)) as [new [F [A E]]].
  exists new. split; [exact F | split; [exact A | split; [reflexivity |]]].
  assert (S3 : step oracle read_cb
                 (both_open s true (mk_bev EV_READ data []) pe true
                    (utp_shutdown s SHUT_RD :: cs) n)
               = Done tt (both_open s true (mk_bev EV_READ [] []) pe true
                            (new ++ utp_shutdown s SHUT_RD :: cs) (n + length new))).
  { change (step oracle read_cb
              (both_open s true (mk_bev EV_READ data []) pe true
                 (utp_shutdown s SHUT_RD :: cs) n))
      with (utp_bufferevent_flush oracle
              (both_open s true (mk_bev EV_READ data []) pe true
                 (utp_shutdown s SHUT_RD :: cs) n)).
    rewrite E. reflexivity. }
  cbn [run]. unfold bind at 1.
  change (step oracle (write_failed io_eof)
            (both_open s rs (mk_bev rd_wr [] o) pe true cs n))
    with (@Done unit tt (both_open s true (mk_bev EV_READ [] []) pe true
                           (utp_shutdown s SHUT_RD :: cs) n)).
  cbv iota beta. unfold bind at 1.
  change (step oracle (fd_read data)
            (both_open s true (mk_bev EV_READ [] []) pe true
               (utp_shutdown s SHUT_RD :: cs) n))
    with (@Done unit tt (both_open s true (mk_bev EV_READ data []) pe true
                    (utp_shutdown s SHUT_RD :: cs) n)).
  cbv iota beta. unfold bind at 1. rewrite S3.
  unfold torn_down, utp_close_calls. destruct pe; reflexivity.
Qed.

Lemma end_of_writing_then_reading_frees_the_bridge_witness :
  exists new,
    Forall (fun c => is_utp_write c = true) new
    /\ accepted (new ++ utp_shutdown 7%nat SHUT_RD :: []) = accepted [] ++ [x01]
    /\ run accept_all [write_failed io_eof]
         (both_open 7%nat false (mk_bev rd_wr [] [x02]) None true [] 0)
       = Done tt (both_open 7%nat true (mk_bev EV_READ [] []) None true
                    (utp_shutdown 7%nat SHUT_RD :: []) 0)
    /\ run accept_all
         [write_failed io_eof; fd_read [x01]; read_cb; read_failed io_eof]
         (both_open 7%nat false (mk_bev rd_wr [] [x02]) None true [] 0)
       = Done tt (torn_down 7%nat None (new ++ utp_shutdown 7%nat SHUT_RD :: [])
                    (0 + length new)).
Proof.
  exact (end_of_writing_then_reading_frees_the_bridge accept_all
           (fun _ _ => eq_refl) 7%nat false [x02] None [] 0%nat [x01]).
Defined.

(** ** The order of the bytes queued for the descriptor *)

Ltac queue_open :=
  unfold queued_in_order, write_on, waiting_output in *; fields.

(** The output buffer is as it was and nothing was enabled. *)
Lemma queued_same (L T : list byte) (w w' : world) :
  queued_in_order L T w ->
  waiting_output w' = waiting_output w ->
  (write_on w' = true -> userdata w' = true ->
   write_on w = true /\ userdata w = true) ->
  queued_in_order L T w'.
Proof.
  intros [pre [post [E H]]] Ho Hw. exists pre, post. rewrite Ho.
  split; [exact E |]. intros H1 H2. destruct (Hw H1 H2). auto.
Qed.

(** The output buffer was emptied and nothing was enabled. *)
Lemma queued_emptied (L T : list byte) (w w' : world) :
  queued_in_order L T w ->
  waiting_output w' = [] ->
  (write_on w' = true -> userdata w' = true ->
   write_on w = true /\ userdata w = true) ->
  queued_in_order L T w'.
Proof.
  intros [pre [post [E H]]] Ho Hw. exists (pre ++ waiting_output w), post.
  rewrite Ho. cbn [app]. rewrite <- app_assoc.
  split; [exact E |]. intros H1 H2. destruct (Hw H1 H2). auto.
Qed.

Ltac queue_leaf :=
  intros;
  match goal with
  | H : queued_in_order _ _ _ |- _ =>
      first [ eapply queued_same; [exact H | |]
            | eapply queued_emptied; [exact H | |] ];
      unfold write_on, waiting_output; fields;
      repeat match goal with
             | E : heap _ = _ |- _ => rewrite E
             | E : bev _ = _ |- _ => rewrite E
             end;
      fields;
      solve [ reflexivity | discriminate
            | intros; split; [| assumption];
              first [ assumption
                    | eapply enabled_submask; [| eassumption];
                      first [apply submask_refl | apply submask_disable] ] ]
  end.

Lemma queued_utp_close (L T : list byte) :
  preserves (queued_in_order L T) ubev_utp_close.
Proof.
  intros [[[[s |] rs ob pe] |] d cs n] H; try exact H.
  unfold ubev_utp_close. exec.
  destruct pe; exec; (eapply queued_same; [exact H | reflexivity | discriminate]).
Qed.

Lemma queued_bev_close (L T : list byte) :
  preserves (queued_in_order L T) ubev_bev_close.
Proof.
  intros [[[ut rs [[e i o] |] pe] |] d cs n] H; try exact H.
  unfold ubev_bev_close. exec.
  destruct (e =? 0); [| exact H]. exec.
  destruct (is_empty i); [| exact H]. exec.
  destruct (is_empty o); [| exact H]. exec.
  eapply queued_emptied; [exact H | reflexivity | discriminate].
Qed.

Lemma queued_cleanup (L T : list byte) :
  preserves (queued_in_order L T) ubev_cleanup.
Proof.
  intros [[[[s |] rs [b |] pe] |] d cs n] H; exact H.
Qed.

Lemma queued_graceful_close (L T : list byte) :
  preserves (queued_in_order L T) ubev_bev_graceful_close.
Proof.
  pose proof (queued_bev_close L T). pose proof (queued_cleanup L T).
  unfold ubev_bev_graceful_close. pres_at queue_leaf.
Qed.

Lemma queued_error (L T : list byte) :
  preserves (queued_in_order L T) (ubev_utp_close ;; ubev_bev_graceful_close).
Proof.
  apply preserves_bind; [apply queued_utp_close | intros _].
  apply queued_graceful_close.
Qed.

Lemma queued_flush_tail (L T : list byte) :
  preserves (queued_in_order L T) flush_tail.
Proof.
  pose proof (queued_utp_close L T). pose proof (queued_bev_close L T).
  pose proof (queued_cleanup L T).
  unfold flush_tail. pres_at queue_leaf.
Qed.

Lemma queued_flush_loop (oracle : nat -> list byte -> Z) (L T : list byte) :
  forall fuel, preserves (queued_in_order L T) (flush_loop oracle fuel).
Proof.
  pose proof (queued_flush_tail L T). pose proof (queued_error L T).
  induction fuel as [| fuel IH]; cbn [flush_loop].
  - pres_at queue_leaf.
  - apply preserves_bind; [apply preserves_the_bev | intros b].
    destruct (is_empty (input b)); [assumption |].
    cbv zeta.
    apply preserves_bind; [apply preserves_get_u | intros u].
    apply preserves_bind.
    { destruct (utp u); [| apply preserves_crash].
      intros w Hw. eapply queued_same; [exact Hw | reflexivity | auto]. }
    intros r. pres_at queue_leaf.
Qed.

Lemma queued_flush (oracle : nat -> list byte -> Z) (L T : list byte) :
  preserves (queued_in_order L T) (utp_bufferevent_flush oracle).
Proof.
  unfold utp_bufferevent_flush.
  apply preserves_bind; [apply preserves_the_bev |].
  intros b. apply queued_flush_loop.
Qed.

Lemma queued_step (oracle : nat -> list byte -> Z) (L T : list byte) (e : event) :
  brings_data e = false -> preserves (queued_in_order L T) (step oracle e).
Proof.
  intros He.
  apply cb_step;
    first [ exact He | apply queued_utp_close | apply queued_bev_close
          | apply queued_cleanup | apply queued_error | apply queued_flush
          | idtac ].
  - apply connected_always. intros o. unfold tell_connected. pres_at queue_leaf.
  - intros c w Hc H. destruct c; try discriminate Hc; exact H.
  - intros w u b b' H Hu Hb Hi Ho Hs. destruct Ho as [Ho | Ho].
    + eapply queued_same; [exact H | |];
        unfold write_on, waiting_output; fields; rewrite Hu, Hb;
        [exact Ho |].
      intros H1 H2. split; [| exact H2]. exact (enabled_submask _ _ _ Hs H1).
    + eapply queued_emptied; [exact H | |];
        unfold write_on, waiting_output; fields; try rewrite Hu, Hb;
        [exact Ho |].
      intros H1 H2. split; [| exact H2]. exact (enabled_submask _ _ _ Hs H1).
  - queue_leaf.
Qed.

Lemma queued_fd_read (oracle : nat -> list byte -> Z) (L T data : list byte) :
  preserves (queued_in_order L T) (step oracle (fd_read data)).
Proof.
  intros w H. unfold step. destruct (deliverable (fd_read data) w); [| exact H].
  revert w H. fold (preserves (queued_in_order L T) (handler oracle (fd_read data))).
  cbn [handler]. pres_at queue_leaf.
Qed.

Lemma queued_on_read (oracle : nat -> list byte -> Z) (L T buf : list byte)
    (w : world) :
  queued_in_order L (buf ++ T) w ->
  queued_in_order L T (final (step oracle (on_read buf) w)).
Proof.
  intros [pre [post [E H]]].
  unfold step. cbn [deliverable handler].
  destruct w as [[[ut rs [[e i o] |] pe] |] [|] cs n];
    try (exists pre, post; split; [exact E | discriminate]).
  unfold utp_on_read. exec.
  destruct (is_enabled EV_WRITE (mk_bev e i o)) eqn:Hw; exec.
  - exists pre, T. queue_open. rewrite (H Hw eq_refl) in E.
    rewrite <- app_assoc. split; [exact E | reflexivity].
  - exists pre, post. queue_open. rewrite Hw. split; [exact E | discriminate].
Qed.

Lemma queued_run (oracle : nat -> list byte -> Z) (L : list byte) :
  forall (es : list event) (w : world),
    queued_in_order L (given es) w ->
    match run oracle es w with
    | Done _ w' => queued_in_order L [] w'
    | Crash _ w' => exists T, queued_in_order L T w'
    end.
Proof.
  induction es as [| e es IH]; intros w H; [exact H |].
  cbn [run]. unfold bind.
  assert (Hs : queued_in_order L (given es) (final (step oracle e w))).
  { destruct (brings_data e) eqn:He.
    - destruct e; try discriminate He.
      + apply queued_on_read. exact H.
      + apply queued_fd_read. exact H.
    - apply (queued_step oracle L (given es) e He).
      destruct e; try discriminate He; exact H. }
  destruct (step oracle e w) as [[] w' | f w']; cbn [final] in *.
  - apply IH. exact Hs.
  - exists (given es). exact Hs.
Qed.

(** X18. The bytes that wait to be written to the descriptor are bytes
    received from the uTP socket, in the order of their arrival and without
    gaps: along every sequence of events the output buffer is a run of
    consecutive bytes of what it held at the start followed by what
    [utp_on_read] was given.  When the run has not stopped early and ends
    with the write side enabled and the socket referring to the bridge,
    that run reaches to the last byte received. *)
Theorem output_holds_the_utp_stream_in_order (oracle : nat -> list byte -> Z) :
  forall (es : list event) (w : world),
    exists pre post,
      waiting_output w ++ given es
        = pre ++ waiting_output (final (run oracle es w)) ++ post
      /\ (fault_of (run oracle es w) = None ->
          write_on (final (run oracle es w)) = true ->
          userdata (final (run oracle es w)) = true ->
          post = []).
Proof.
  intros es w.
  assert (H : queued_in_order (waiting_output w ++ given es) (given es) w).
  { exists [], (given es). split; [reflexivity | reflexivity]. }
  pose proof (queued_run oracle _ es w H) as R.
  destruct (run oracle es w) as [[] w' | f w']; cbn [final fault_of].
  - destruct R as [pre [post [E P]]]. exists pre, post.
    split; [exact E | intros _; exact P].
  - destruct R as [T [pre [post [E P]]]]. exists pre, post.
    split; [exact E | discriminate].
Qed.

Lemma output_holds_the_utp_stream_in_order_witness :
  exists pre post,
    waiting_output (open_bridge [] [x01])
      ++ given [on_read [x02; x03]; fd_written; write_cb; on_read [x04];
                on_state_change UTP_STATE_EOF; on_read [x05]]
      = pre
        ++ waiting_output
             (final (run backpressure
                       [on_read [x02; x03]; fd_written; write_cb; on_read [x04];
                        on_state_change UTP_STATE_EOF; on_read [x05]]
                       (open_bridge [] [x01])))
        ++ post
    /\ (fault_of (run backpressure
                    [on_read [x02; x03]; fd_written; write_cb; on_read [x04];
                     on_state_change UTP_STATE_EOF; on_read [x05]]
                    (open_bridge [] [x01])) = None ->
        write_on (final (run backpressure
                           [on_read [x02; x03]; fd_written; write_cb;
                            on_read [x04]; on_state_change UTP_STATE_EOF;
                            on_read [x05]]
                           (open_bridge [] [x01]))) = true ->
        userdata (final (run backpressure
                           [on_read [x02; x03]; fd_written; write_cb;
                            on_read [x04]; on_state_change UTP_STATE_EOF;
                            on_read [x05]]
                           (open_bridge [] [x01]))) = true ->
        post = []).
Proof.
  exact (output_holds_the_utp_stream_in_order backpressure
           [on_read [x02; x03]; fd_written; write_cb; on_read [x04];
            on_state_change UTP_STATE_EOF; on_read [x05]]
           (open_bridge [] [x01])).
Defined.
